(** * Embedding Atlas viewer: chart-specification compiler and runtime

    A shallow embedding of the chart core of the viewer
    ([charts/spec/runtime.ts], [charts/common/aggregate.ts] and
    [charts/basic/CountPlot.svelte]) together with the properties the
    specification states about it, of the occupancy map of the
    dashboard layout ([layouts/dashboard/occupancy_map.ts]) and of the
    placement of axis labels ([charts/common/infer.ts]).

    Conventions.
    - A JavaScript [number] that carries data is an IEEE-754 binary64 value,
      modelled by Rocq's primitive [float]; [isFinite], [<], [==] and [+] are
      the primitive operations.  Row counts and indices are integers and are
      modelled by [Z] and [nat].
    - [undefined] is [None] wherever the source has an optional property.
    - A plain object used as a record with a fixed set of keys is a [Record];
      a [Record<string, _>] whose key order is immaterial is a [gmap string _];
      where the source iterates an object or a [Map] in insertion order the
      model is an association list.
    - Code that can throw returns [option]: [None] is the exception. *)

From Stdlib Require Import ZArith Floats Lia Ascii String Sorted.
From stdpp Require Import base option list gmap strings pretty.

Set Warnings "-register-all".
Open Scope Z_scope.

(** * Part I: the embedding *)

(** ** JavaScript numbers and arrays *)

Module Js.

(** [isFinite(x)] for a value that is already a number. *)
Definition isFinite (x : float) : bool := PrimFloat.is_finite x.

(** [a > b] on numbers. *)
Definition gtb (a b : float) : bool := PrimFloat.ltb b a.

(** [a < b] on numbers. *)
Definition ltb (a b : float) : bool := PrimFloat.ltb a b.

(** [a == b] on numbers. *)
Definition eqb (a b : float) : bool := PrimFloat.eqb a b.

(** [a <= b] on numbers. *)
Definition leb (a b : float) : bool := PrimFloat.leb a b.

(** [array.slice(start)]: a negative [start] counts from the end. *)
Definition slice_from {A} (start : Z) (l : list A) : list A :=
  if start <? 0
  then drop (Z.to_nat (Z.max (Z.of_nat (length l) + start) 0)) l
  else drop (Z.to_nat start) l.

(** [array.slice(0, stop)]: a negative [stop] counts from the end. *)
Definition slice_to {A} (stop : Z) (l : list A) : list A :=
  if stop <? 0
  then take (Z.to_nat (Z.max (Z.of_nat (length l) + stop) 0)) l
  else take (Z.to_nat stop) l.

(** [array[i] = v]: writing at or past the end extends the array, the
    skipped positions reading as [hole]. *)
Definition array_set {A} (hole : A) (i : nat) (v : A) (l : list A) : list A :=
  if decide (i < length l)%nat
  then <[i := v]> l
  else l ++ replicate (i - length l) hole ++ [v].

(** [Math.min(a, b)] and [Math.max(a, b)]: [NaN] if either argument is,
    and [-0] below [+0]. *)
Definition min (a b : float) : float :=
  if PrimFloat.is_nan a || PrimFloat.is_nan b then PrimFloat.nan
  else if PrimFloat.ltb a b then a
  else if PrimFloat.ltb b a then b
  else if PrimFloat.get_sign a then a else b.

Definition max (a b : float) : float :=
  if PrimFloat.is_nan a || PrimFloat.is_nan b then PrimFloat.nan
  else if PrimFloat.ltb a b then b
  else if PrimFloat.ltb b a then a
  else if PrimFloat.get_sign a then b else a.

(** The sign of a comparator's result as [Array.prototype.sort] reads
    it: negative, positive, or neither ([0] and [NaN]). *)
Definition sign (r : float) : comparison :=
  if ltb r 0 then Lt else if gtb r 0 then Gt else Eq.

(** [array.sort(compare)].  The sort is stable; it is modelled by the
    stable insertion sort, with which every stable sort agrees on a
    comparator that is a consistent ordering. *)
Fixpoint sort_insert {A} (compare : A -> A -> comparison) (x : A) (l : list A) : list A :=
  match l with
  | [] => [x]
  | y :: rest =>
      match compare x y with
      | Gt => y :: sort_insert compare x rest
      | _ => x :: y :: rest
      end
  end.

Fixpoint sort {A} (compare : A -> A -> comparison) (l : list A) : list A :=
  match l with
  | [] => []
  | x :: rest => sort_insert compare x (sort compare rest)
  end.

(** The number an integer converts to (exact below [2^53]). *)
Definition of_Z (z : Z) : float :=
  if z <? 0 then (- PrimFloat.of_uint63 (Uint63.of_Z (- z)))%float
  else PrimFloat.of_uint63 (Uint63.of_Z z).

(** [Math.floor(x)]: a number with no fractional bit, which includes the
    zeros, the infinities and [NaN], is its own floor. *)
Definition floor (x : float) : float :=
  match Prim2SF x with
  | S754_finite s m e =>
      if 0 <=? e then x
      else of_Z (Z.shiftr (if s then Z.neg m else Z.pos m) (- e))
  | _ => x
  end.

End Js.

(** The order of the numbers that are not [NaN], read off their
    IEEE-754 decomposition: sign class, exponent and mantissa compared
    lexicographically. *)
Module FloatOrder.

Definition key (x : spec_float) : Z * Z * Z :=
  match x with
  | S754_zero _ => (0, 0, 0)
  | S754_infinity s => (if s then -2 else 2, 0, 0)
  | S754_nan => (0, 0, 0)
  | S754_finite s m e => if s then (-1, - e, Z.neg m) else (1, e, Z.pos m)
  end.

Definition lex (a b : Z * Z * Z) : comparison :=
  match a.1.1 ?= b.1.1 with
  | Eq => match a.1.2 ?= b.1.2 with Eq => a.2 ?= b.2 | r => r end
  | r => r
  end.

Definition le (a b : Z * Z * Z) : Prop := lex a b <> Gt.

Definition is_nan (x : spec_float) : bool :=
  match x with S754_nan => true | _ => false end.

Definition fkey (x : float) : Z * Z * Z := key (Prim2SF x).

Definition notNaN (x : float) : Prop := PrimFloat.is_nan x = false.

End FloatOrder.

(** [Number.prototype.toLocaleString] on a count depends on the host's
    locale and is a parameter of the model. *)
Class Locale : Type := toLocaleString : Z -> string.

(** ** SQL expressions

    The nodes of [@uwdata/mosaic-sql] that the chart core builds.  The
    builders are constructors: [SQL.or(...clauses)] is [Or clauses], with
    no clause at all it is the empty disjunction [Or []], an expression
    node and not [null]. *)

Module SQL.

Inductive ExprNode : Type :=
| Column (name : string)
| RawSql (text : string)
| Literal (text : string)
| LiteralNull
| LiteralFalse
| LiteralNum (x : float)
| LiteralArray (xs : list float)
| Cast (e : ExprNode) (type : string)
| Count
| Aggregate (fn : string) (e : ExprNode) (quantile : option float)
| Where (e filter : ExprNode)
| IsFinite (e : ExprNode)
| IsNull (e : ExprNode)
| IsNotNull (e : ExprNode)
| Not (e : ExprNode)
| Gt (a b : ExprNode)
| Sub (a b : ExprNode)
| Mul (a : ExprNode) (k : float)
| Floor (e : ExprNode)
| Cond (test a b : ExprNode)
| IsIn (e : ExprNode) (values : list ExprNode)
| IsBetween (e : ExprNode) (lo hi : float)
| IsNotDistinct (a b : ExprNode)
| Unnest (e : ExprNode)
| UnnestQuantileDisc (e : ExprNode) (qs : ExprNode)
| Quantiles (count : nat)
| And (clauses : list ExprNode)
| Or (clauses : list ExprNode).

End SQL.

(** ** Data values and tables ([runtime.ts]) *)

(** [type DataValue = string | number | [number, number] | null | undefined] *)
Inductive DataValue : Type :=
| VStr (s : string)
| VNum (x : float)
| VPair (a b : float)
| VNull
| VUndef.

(** Primitive floats have decidable (Leibniz) equality. *)
#[global] Instance float_eq_dec : EqDecision float.
Proof.
  refine (fun x y =>
    match PrimFloat.Leibniz.eqb x y as b
          return PrimFloat.Leibniz.eqb x y = b -> Decision (x = y) with
    | true => fun E => left _
    | false => fun E => right _
    end eq_refl).
  - by apply Leibniz.eqb_spec.
  - intros Hxy. apply Leibniz.eqb_spec in Hxy. congruence.
Defined.

(** The text [JSON.stringify] produces, up to equality of texts.  A number
    that is not finite prints as [null]; both zeros print as [0]; distinct
    finite numbers print differently, and so do distinct strings. *)
Inductive JsonText : Type :=
| JNull
| JNum (x : float)
| JStr (s : string)
| JPair (a b : JsonText).

#[global] Instance JsonText_eq_dec : EqDecision JsonText.
Proof. solve_decision. Defined.

Definition json_number (x : float) : JsonText :=
  if Js.isFinite x then JNum (if Js.eqb x 0%float then 0%float else x) else JNull.

(** [JSON.stringify(v)]; [None] is its [undefined] result. *)
Definition JSON_stringify (v : DataValue) : option JsonText :=
  match v with
  | VUndef => None
  | VNull => Some JNull
  | VNum x => Some (json_number x)
  | VStr s => Some (JStr s)
  | VPair a b => Some (JPair (json_number a) (json_number b))
  end.

(** [type ScaleType = "linear" | "log" | "symlog" | "band"] *)
Inductive ScaleType : Type := Linear | Log | Symlog | Band.

Inductive ScaleKind : Type := Quantitative | Nominal.

(** [type Channel = "x" | "y" | "color" | "size"] *)
Inductive Channel : Type := ChX | ChY | ChColor | ChSize.

#[global] Instance ScaleType_eq_dec : EqDecision ScaleType.
Proof. solve_decision. Defined.
#[global] Instance ScaleKind_eq_dec : EqDecision ScaleKind.
Proof. solve_decision. Defined.
#[global] Instance Channel_eq_dec : EqDecision Channel.
Proof. solve_decision. Defined.

(** ** Scale hints ([runtime.ts]) *)

Module Title.

(** White space as [String.prototype.trim] removes it, on ASCII text. *)
Definition is_space (c : Ascii.ascii) : bool :=
  let n := Ascii.nat_of_ascii c in
  ((9 <=? n) && (n <=? 13))%nat || (n =? 32)%nat.

(** [x.trim() != ""] *)
Fixpoint nonblank (s : string) : bool :=
  match s with
  | EmptyString => false
  | String c rest => negb (is_space c) || nonblank rest
  end.

(** [Array.from(new Set(xs))]: the first occurrence of each element, in order. *)
Fixpoint dedup (seen : list string) (xs : list string) : list string :=
  match xs with
  | [] => []
  | x :: rest =>
      if bool_decide (x ∈ seen) then dedup seen rest else x :: dedup (x :: seen) rest
  end.

(** [[a, b].filter((x) => x != undefined && x.trim() != "")] *)
Definition kept (t : option string) : list string :=
  match t with
  | Some x => if nonblank x then [x] else []
  | None => []
  end.

Definition merge (a b : option string) : option string :=
  let titles := dedup [] (kept a ++ kept b) in
  if (0 <? length titles)%nat then Some (String.concat ", " titles) else None.

End Title.

Module ScaleHints.

(** [interface ScaleHints] *)
Record t : Type := mk {
  kind : ScaleKind;
  type : option ScaleType;
  domain : option (list DataValue);
  specialValues : option (list string);
  includeZero : option bool;
  title : option string;
  predicate : option (DataValue -> option SQL.ExprNode);
}.

End ScaleHints.

(** [function mergeScaleHints(current, value)] *)
Definition mergeScaleHints (current value : ScaleHints.t) : ScaleHints.t :=
  {| ScaleHints.kind := ScaleHints.kind value;
     ScaleHints.type :=
       match ScaleHints.type current with
       | Some t => Some t
       | None => ScaleHints.type value
       end;
     ScaleHints.domain :=
       Some (default [] (ScaleHints.domain current)
             ++ default [] (ScaleHints.domain value));
     ScaleHints.specialValues :=
       Some (default [] (ScaleHints.specialValues current)
             ++ default [] (ScaleHints.specialValues value));
     ScaleHints.title := Title.merge (ScaleHints.title current) (ScaleHints.title value);
     ScaleHints.includeZero :=
       if bool_decide (ScaleHints.includeZero current = Some true)
          || bool_decide (ScaleHints.includeZero value = Some true)
       then Some true else None;
     ScaleHints.predicate :=
       match ScaleHints.predicate current with
       | Some p => Some p
       | None => ScaleHints.predicate value
       end |}.

(** The values a channel's hints put in its domain ([hints.domain ?? []]). *)
Definition hint_domain (h : ScaleHints.t) : list DataValue :=
  default [] (ScaleHints.domain h).

(** ** Field statistics and aggregate inference ([aggregate.ts]) *)

Module QStats.

(** [FieldStats.quantitative] *)
Record t : Type := mk {
  count : Z;            (* number of finite values *)
  min : float;          (* the minimum finite value *)
  max : float;          (* the maximum finite value *)
  mean : float;
  median : float;
  minPositive : float;  (* the minimum positive finite value *)
  countNonFinite : Z;   (* number of non-finite values (inf, nan, null) *)
}.

End QStats.

Module Level.

(** One entry of [FieldStats.nominal.levels] *)
Record t : Type := mk { value : string; count : Z }.

End Level.

Module NStats.

(** [FieldStats.nominal] *)
Record t : Type := mk {
  levels : list Level.t;   (* top k levels *)
  numOtherLevels : Z;      (* number of other levels *)
  otherCount : Z;          (* number of points in "other" *)
  nullCount : Z;           (* number of null points *)
}.

End NStats.

Module FieldStats.

(** [interface FieldStats] *)
Record t : Type := mk {
  field : SQL.ExprNode;
  quantitative : option QStats.t;
  nominal : option NStats.t;
}.

End FieldStats.

Module ScaleConfig.

(** [range?: (string | number)[] | string] *)
Inductive Range : Type :=
| RangeList (items : list (string + float))
| RangeName (name : string).

(** [interface ScaleConfig] ([common/types.ts]) *)
Record t : Type := mk {
  type : ScaleType;
  domain : list DataValue;
  specialValues : option (list string);
  constant : option float;
  range : option Range;
}.

End ScaleConfig.

(** [type AggregateValue = [number, number] | string] *)
Inductive AggregateValue : Type :=
| AStr (s : string)
| AInterval (lo hi : float).

(** The argument of a predicate builder, [AggregateValue | AggregateValue[]]. *)
Inductive PredicateArg : Type :=
| One (v : AggregateValue)
| Many (vs : list AggregateValue)
| OtherValue.

Definition AggregateValue_to_DataValue (v : AggregateValue) : DataValue :=
  match v with
  | AStr s => VStr s
  | AInterval a b => VPair a b
  end.

Module AggregateInfo.

(** [interface AggregateInfo] *)
Record t : Type := mk {
  select : SQL.ExprNode;
  scale : ScaleConfig.t;
  field : DataValue -> DataValue;
  predicate : PredicateArg -> option SQL.ExprNode;
  order : AggregateValue -> AggregateValue -> float;
}.

End AggregateInfo.

Module Binning.

(** The scale of a binning: its type, its constant and the three forms of
    its transform ([expr] on SQL expressions, [forward] and [reverse] on
    numbers). *)
Record Scale : Type := mkScale {
  type : ScaleType;
  constant : option float;
  expr : SQL.ExprNode -> float -> SQL.ExprNode;
  forward : float -> float -> float;
  reverse : float -> float -> float;
}.

(** What [inferBinning] returns. *)
Record t : Type := mk {
  scale : Scale;
  binStart : float;
  binSize : float;
}.

End Binning.

(** [inferBinning(stats, { scale, desiredCount })] of [common/binning.ts],
    the nice-boundary policy; [aggregate.ts] only calls it. *)
Class BinningPolicy : Type :=
  inferBinning : QStats.t -> option ScaleType -> Z -> Binning.t.

Section InferAggregate.
Context `{Locale} `{BinningPolicy}.

(** The quantitative branch of [inferAggregate], its locals named as in
    the source. *)
Section Quantitative.
Variable field : SQL.ExprNode.
Variable q : QStats.t.
Variable binning : Binning.t.

Definition q_constant : float := default 0%float (Binning.constant (Binning.scale binning)).
Definition q_is_log : bool := bool_decide (Binning.type (Binning.scale binning) = Log).
Definition q_inputExpr : SQL.ExprNode := SQL.Cast field "DOUBLE".
Definition q_expr : SQL.ExprNode := Binning.expr (Binning.scale binning) q_inputExpr q_constant.

Definition q_binExpr : SQL.ExprNode :=
  SQL.Floor (SQL.Mul (SQL.Sub q_expr (SQL.LiteralNum (Binning.binStart binning)))
             (1 / Binning.binSize binning)%float).

Definition q_select : SQL.ExprNode :=
  if q_is_log
  then SQL.Cond (SQL.And [SQL.IsFinite q_inputExpr; SQL.Gt q_inputExpr (SQL.LiteralNum 0%float)])
            q_binExpr SQL.LiteralNull
  else SQL.Cond (SQL.IsFinite q_inputExpr) q_binExpr SQL.LiteralNull.

Definition valueToBinIndex (x : float) : float :=
  Js.floor ((Binning.forward (Binning.scale binning) x q_constant
               - Binning.binStart binning) / Binning.binSize binning)%float.

Definition binIndexToValue (idx : float) : float :=
  Binning.reverse (Binning.scale binning)
    (idx * Binning.binSize binning + Binning.binStart binning)%float q_constant.

Definition q_bin0 : float :=
  valueToBinIndex (if q_is_log then QStats.minPositive q else QStats.min q).
Definition q_bin1 : float := valueToBinIndex (QStats.max q).
Definition q_domain : list DataValue :=
  [VNum (binIndexToValue q_bin0); VNum (binIndexToValue (q_bin1 + 1)%float)].

(** [let hasNA = countNonFinite > 0; if (type == "log" && min < 0) hasNA = true] *)
Definition hasNA : bool :=
  let hasNA := 0 <? QStats.countNonFinite q in
  if q_is_log && Js.ltb (QStats.min q) 0%float then true else hasNA.

Definition q_valueToPredicate1 (v : AggregateValue) : SQL.ExprNode :=
  match v with
  | AStr s =>
      if bool_decide (s = "n/a")
      then SQL.Or [SQL.Not (SQL.IsFinite q_inputExpr); SQL.IsNull q_inputExpr]
      else SQL.LiteralFalse
  | AInterval v1 v2 => SQL.IsBetween q_inputExpr (Js.min v1 v2) (Js.max v1 v2)
  end.

Definition q_valueToPredicate (v : PredicateArg) : SQL.ExprNode :=
  match v with
  | One v => q_valueToPredicate1 v
  | Many vs => SQL.Or (map q_valueToPredicate1 vs)
  | OtherValue => SQL.LiteralFalse
  end.

Definition q_order (a b : AggregateValue) : float :=
  let key v := match v with AStr _ => (1, 0) | AInterval lo _ => (0, lo) end%float in
  let xa := key a in
  let xb := key b in
  if negb (Js.eqb xa.1 xb.1) then (xa.1 - xb.1)%float else (xa.2 - xb.2)%float.

(** The mapper from the queried bin index to the display value; the
    argument is a number or [null], as the query returns it. *)
Definition q_field (v : DataValue) : DataValue :=
  match v with
  | VNull | VUndef => VStr "n/a"
  | VNum i => VPair (binIndexToValue i) (binIndexToValue (i + 1)%float)
  | _ => VPair PrimFloat.nan PrimFloat.nan
  end.

Definition inferAggregate_quantitative : AggregateInfo.t :=
  {| AggregateInfo.select := q_select;
     AggregateInfo.scale :=
       {| ScaleConfig.type := Binning.type (Binning.scale binning);
          ScaleConfig.constant := Binning.constant (Binning.scale binning);
          ScaleConfig.domain := q_domain;
          ScaleConfig.specialValues := Some (if hasNA then ["n/a"] else []);
          ScaleConfig.range := None |};
     AggregateInfo.predicate := fun v => Some (q_valueToPredicate v);
     AggregateInfo.order := q_order;
     AggregateInfo.field := q_field |}.

End Quantitative.

(** The nominal branch of [inferAggregate]. *)
Section NominalBranch.
Variable field : SQL.ExprNode.
Variable n : NStats.t.
Variable binCount : Z.

(** [levels.slice(binCount).reduce((a, b) => a + b.count, 0)] *)
Definition clippedCount (levels : list Level.t) : Z :=
  foldl (fun a b => a + Level.count b) 0 (Js.slice_from binCount levels).

(** The locals [levels], [numOtherLevels] and [otherCount] after the
    [if (levels.length > binCount)] block. *)
Definition n_clipped : bool := binCount <? Z.of_nat (length (NStats.levels n)).

Definition n_levels : list Level.t :=
  if n_clipped then Js.slice_to binCount (NStats.levels n) else NStats.levels n.

Definition n_numOtherLevels : Z :=
  if n_clipped
  then NStats.numOtherLevels n + (Z.of_nat (length (NStats.levels n)) - binCount)
  else NStats.numOtherLevels n.

Definition n_otherCount : Z :=
  if n_clipped then clippedCount (NStats.levels n) else NStats.otherCount n.

Definition otherRepr : string := "(" +:+ toLocaleString n_numOtherLevels +:+ " others)".
Definition nullRepr : string := "(null)".

Definition n_inputExpr : SQL.ExprNode := SQL.Cast field "TEXT".
Definition n_levelLiterals : list SQL.ExprNode := map (fun l => SQL.Literal (Level.value l)) n_levels.

Definition n_select : SQL.ExprNode :=
  SQL.Cond (SQL.IsIn n_inputExpr n_levelLiterals) n_inputExpr
       (SQL.Cond (SQL.IsNull n_inputExpr) (SQL.Literal nullRepr) (SQL.Literal otherRepr)).

Definition n_specialValues : list string :=
  (if 0 <? n_otherCount then [otherRepr] else [])
  ++ (if 0 <? NStats.nullCount n then [nullRepr] else []).

Definition n_predicate1 (v : string) : SQL.ExprNode :=
  if bool_decide (v = nullRepr) then SQL.IsNull n_inputExpr
  else if bool_decide (v = otherRepr)
       then SQL.And [SQL.Not (SQL.IsIn n_inputExpr n_levelLiterals); SQL.IsNotNull n_inputExpr]
       else SQL.IsNotDistinct n_inputExpr (SQL.Literal v).

(** [predicate(d as string)] on an element that is not a string compares
    with the element's literal. *)
Definition n_predicateElem (d : AggregateValue) : SQL.ExprNode :=
  match d with
  | AStr s => n_predicate1 s
  | AInterval a b => SQL.IsNotDistinct n_inputExpr (SQL.LiteralArray [a; b])
  end.

(** [(v) => { if (v instanceof Array) return SQL.or(...v.map(predicate));
              else if (typeof v == "string") return predicate(v); }] *)
Definition n_predicate (v : PredicateArg) : option SQL.ExprNode :=
  match v with
  | Many vs => Some (SQL.Or (map n_predicateElem vs))
  | One (AStr s) => Some (n_predicate1 s)
  | One (AInterval a b) =>
      Some (SQL.Or [SQL.IsNotDistinct n_inputExpr (SQL.LiteralNum a);
                SQL.IsNotDistinct n_inputExpr (SQL.LiteralNum b)])
  | OtherValue => None
  end.

Definition n_levelValues : list string := map Level.value n_levels.

(** [array.indexOf(x)], [-1] when absent. *)
Fixpoint indexOf (x : string) (l : list string) : Z :=
  match l with
  | [] => -1
  | y :: rest =>
      if bool_decide (x = y) then 0
      else let r := indexOf x rest in if r <? 0 then -1 else 1 + r
  end.

Definition n_rank (a : string) : Z :=
  let xa := indexOf a n_levelValues in
  if xa <? 0 then Z.of_nat (length n_levelValues) + indexOf a n_specialValues else xa.

Definition n_order (a b : AggregateValue) : float :=
  match a, b with
  | AStr a, AStr b => Js.of_Z (n_rank a - n_rank b)
  | _, _ => 0%float
  end.

Definition inferAggregate_nominal : AggregateInfo.t :=
  {| AggregateInfo.select := n_select;
     AggregateInfo.scale :=
       {| ScaleConfig.type := Band;
          ScaleConfig.domain := map (fun l => VStr (Level.value l)) n_levels;
          ScaleConfig.specialValues := Some n_specialValues;
          ScaleConfig.constant := None;
          ScaleConfig.range := None |};
     AggregateInfo.field := fun v => v;
     AggregateInfo.predicate := n_predicate;
     AggregateInfo.order := n_order |}.

End NominalBranch.

(** [export function inferAggregate({ stats, scaleType, binCount })] *)
Definition inferAggregate (stats : FieldStats.t) (scaleType : option ScaleType)
    (binCount : option Z) : option AggregateInfo.t :=
  match FieldStats.quantitative stats with
  | Some q =>
      let binning := inferBinning q scaleType (default 20 binCount) in
      Some (inferAggregate_quantitative (FieldStats.field stats) q binning)
  | None =>
      match FieldStats.nominal stats with
      | Some n => Some (inferAggregate_nominal (FieldStats.field stats) n (default 15 binCount))
      | None => None
      end
  end.

End InferAggregate.

(** ** Clauses of the shared cross-filter

    [SelectionClause] of [@uwdata/mosaic-core], with [null] as [None]. *)

Module Clause.

Record t (Source Client Value : Type) : Type := mk {
  source : Source;
  clients : list Client;
  value : option Value;
  predicate : option SQL.ExprNode;
}.

Arguments mk {_ _ _} _ _ _ _.
Arguments source {_ _ _} _.
Arguments clients {_ _ _} _.
Arguments value {_ _ _} _.
Arguments predicate {_ _ _} _.

End Clause.

(** ** The count plot ([basic/CountPlot.svelte]) *)

Module CountPlot.

(** [State.selection]: the selected bars, [None] when [undefined]. *)
Definition Selection : Type := option (list AggregateValue).

(** [const isSame = (a, b) => JSON.stringify(a) == JSON.stringify(b)] *)
Definition isSame (a b : AggregateValue) : bool :=
  bool_decide (JSON_stringify (AggregateValue_to_DataValue a)
               = JSON_stringify (AggregateValue_to_DataValue b)).

(** [function toggleSelection(value, shift)]: the result is the
    [selection] it hands to [onStateChange], which becomes the chart's
    [selection]. *)
Definition toggleSelection (selection : Selection) (value : AggregateValue)
    (shift : bool) : Selection :=
  match selection with
  | None | Some [] => Some [value]
  | Some selection =>
      let exists_ := existsb (fun x => isSame x value) selection in
      if shift then
        if exists_ then Some (filter (fun x => negb (isSame x value)) selection)
        else Some (selection ++ [value])
      else
        if exists_ then None else Some [value]
  end.

(** The clause of the "sync selection with brush" effect. *)
Definition selectionClause {Source Client : Type} (capturedAggregate : AggregateInfo.t)
    (source : Source) (clientSelection : Client) (selection : Selection)
  : Clause.t Source Client (list AggregateValue) :=
  match selection with
  | Some selection =>
      Clause.mk source [clientSelection] (Some selection)
        (AggregateInfo.predicate capturedAggregate (Many selection))
  | None => Clause.mk source [clientSelection] None None
  end.

(** The text [JSON.stringify] compares in [isSame]. *)
Definition text (v : AggregateValue) : option JsonText :=
  JSON_stringify (AggregateValue_to_DataValue v).

End CountPlot.

(** ** Chart specifications ([spec.ts]) *)

(** [type SQLField = string | { sql: string }], and [SQLTable] likewise. *)
Inductive SQLField : Type :=
| FieldName (name : string)
| FieldSql (sql : string).

Inductive SQLTable : Type :=
| TableName (name : string)
| TableSql (sql : string).

(** [aggregate: AggregateFn | { sql: string }]; the function is kept as
    the string the JSON specification carries. *)
Inductive AggregateSpec : Type :=
| AggName (name : string)
| AggSql (sql : string).

Inductive Axis : Type := AxisX | AxisY.

(** [type Encoding]: a field (with optional binning), an aggregate, or a
    constant value; [bin] is [Some desiredCount] when present. *)
Inductive Encoding : Type :=
| EncField (field : SQLField) (bin : option (option Z))
| EncAggregate (aggregate : AggregateSpec) (field : option SQLField)
    (quantile : option float) (normalize : option Axis)
| EncValue (value : DataValue).

Module Scale.

(** [interface Scale] *)
Record t : Type := mk {
  type : option ScaleType;
  domain : option (list DataValue);
  specialValues : option (list string);
  constant : option float;
  range : option ScaleConfig.Range;
}.

Definition empty : t := mk None None None None None.

End Scale.

Inductive SelectionEncoding : Type := SelX | SelY | SelXY.

Module Layer.

(** [interface Layer], the properties the runtime reads. *)
Record t : Type := mk {
  from : option SQLTable;
  filter : bool;                       (* [filter == "$filter"] *)
  mark : string;
  orientation : option string;
  encoding : list (string * Encoding);
}.

End Layer.

Module ChartSpec.

(** [interface ChartSpec], the properties the runtime reads. *)
Record t : Type := mk {
  layers : list Layer.t;
  scale : list (Channel * Scale.t);
  selection : list (string * SelectionEncoding);
}.

End ChartSpec.

(** A chart specification is first-order data: equality is decidable. *)
#[global] Instance DataValue_eq_dec : EqDecision DataValue.
Proof. solve_decision. Defined.
#[global] Instance Range_eq_dec : EqDecision ScaleConfig.Range.
Proof. solve_decision. Defined.
#[global] Instance Scale_eq_dec : EqDecision Scale.t.
Proof. solve_decision. Defined.
#[global] Instance SQLField_eq_dec : EqDecision SQLField.
Proof. solve_decision. Defined.
#[global] Instance SQLTable_eq_dec : EqDecision SQLTable.
Proof. solve_decision. Defined.
#[global] Instance AggregateSpec_eq_dec : EqDecision AggregateSpec.
Proof. solve_decision. Defined.
#[global] Instance Axis_eq_dec : EqDecision Axis.
Proof. solve_decision. Defined.
#[global] Instance Encoding_eq_dec : EqDecision Encoding.
Proof. solve_decision. Defined.
#[global] Instance Layer_eq_dec : EqDecision Layer.t.
Proof. solve_decision. Defined.
#[global] Instance SelectionEncoding_eq_dec : EqDecision SelectionEncoding.
Proof. solve_decision. Defined.
#[global] Instance ChartSpec_eq_dec : EqDecision ChartSpec.t.
Proof. solve_decision. Defined.

(** ** Encoding resolution ([runtime.ts]) *)

(** [from.toString()] of a [FromExpr]. *)
Inductive FromExpr : Type :=
| TableRef (name : string)
| FromSql (text : string).

Module ReplaceVars.

Definition is_letter (c : Ascii.ascii) : bool :=
  let n := Ascii.nat_of_ascii c in
  (((65 <=? n) && (n <=? 90)) || ((97 <=? n) && (n <=? 122)))%nat.

Definition is_word (c : Ascii.ascii) : bool :=
  let n := Ascii.nat_of_ascii c in
  is_letter c || ((48 <=? n) && (n <=? 57))%nat || (n =? 95)%nat.

Definition lookup (vars : list (string * string)) (name : string) : option string :=
  snd <$> List.find (fun kv => bool_decide (kv.1 = name)) vars.

(** The text for a [$] followed by [name]: its value, or the original. *)
Definition flush (vars : list (string * string)) (pending : option string) : string :=
  match pending with
  | None => ""
  | Some name =>
      match name with
      | EmptyString => "$"
      | _ => default ("$" +:+ name) (lookup vars name)
      end
  end.

(** One pass over the text; [pending] is the name read after a [$]. *)
Fixpoint scan (vars : list (string * string)) (pending : option string) (text : string)
  : string :=
  match text with
  | EmptyString => flush vars pending
  | String c rest =>
      let extends_ :=
        match pending with
        | Some EmptyString => is_letter c
        | Some _ => is_word c
        | None => false
        end in
      if extends_ then scan vars ((fun n => n +:+ String c "") <$> pending) rest
      else
        flush vars pending
        +:+ (if bool_decide (c = "$"%char) then scan vars (Some "") rest
            else String c (scan vars None rest))
  end.



(** [text.indexOf("$") < 0] *)
Definition plain (text : string) : bool :=
  forallb (fun c => negb (bool_decide (c = "$"%char))) (list_ascii_of_string text).

End ReplaceVars.

(** [function replaceVars(text, vars)]: every [$name] with a value in
    [vars] is replaced by it. *)
Definition replaceVars (text : string) (vars : list (string * string)) : string :=
  ReplaceVars.scan vars None text.

Module BuildContext.

(** [class BuildContext]: the chart's table, its specification and the
    field statistics, looked up by [fieldStatsKey(from, field)]. *)
Record t : Type := mk {
  table : string;
  spec : ChartSpec.t;
  stats : FromExpr -> SQLField -> option FieldStats.t;
}.

Definition fieldExpr (ctx : t) (field : SQLField) : SQL.ExprNode :=
  let vars := [("table", table ctx); ("filter", "(true)")] in
  match field with
  | FieldName name => SQL.Column name
  | FieldSql sql => SQL.RawSql (replaceVars sql vars)
  end.

Definition fromExpr (ctx : t) (tbl : SQLTable) (predicate : option string) : FromExpr :=
  let vars := [("table", table ctx); ("filter", default "(true)" predicate)] in
  match tbl with
  | TableName name => TableRef name
  | TableSql sql => FromSql ("(" +:+ replaceVars sql vars +:+ ")")
  end.

End BuildContext.

(** [const numericalAggregates]: the aggregate functions that take a field. *)
Definition numericalAggregates (name : string)
  : option (SQL.ExprNode -> option float -> SQL.ExprNode) :=
  let plain fn := Some (fun e (_ : option float) => SQL.Aggregate fn e None) in
  if bool_decide (name = "min") then plain "min"
  else if bool_decide (name = "max") then plain "max"
  else if bool_decide (name = "mean") then plain "avg"
  else if bool_decide (name = "average") then plain "avg"
  else if bool_decide (name = "median") then plain "median"
  else if bool_decide (name = "stdev") then plain "stddev"
  else if bool_decide (name = "stdevp") then plain "stddevPop"
  else if bool_decide (name = "variance") then plain "variance"
  else if bool_decide (name = "variancep") then plain "varPop"
  else if bool_decide (name = "sum") then plain "sum"
  else if bool_decide (name = "product") then plain "product"
  else if bool_decide (name = "quantile")
       then Some (fun e quantile => SQL.Aggregate "quantile" e (Some (default 0.5%float quantile)))
  else None.

(** [function fieldTitle(field)] *)
Definition fieldTitle (field : SQLField) : string :=
  match field with
  | FieldName name => name
  | FieldSql sql => sql
  end.

(** [function quantilesExpr()]: the 201 quantiles [i / 200]. *)
Definition quantilesExpr : SQL.ExprNode :=
  SQL.Cast (SQL.LiteralArray
          (map (fun i => (PrimFloat.of_uint63 (Uint63.of_Z (Z.of_nat i)) / 200)%float)
               (seq 0 201)))
       "DOUBLE[]".

(** [function quantitativePredicate(field, v)] *)
Definition quantitativePredicate (field : SQL.ExprNode) (v : DataValue) : option SQL.ExprNode :=
  match v with
  | VPair v1 v2 => Some (SQL.IsBetween field (Js.min v1 v2) (Js.max v1 v2))
  | _ => None
  end.

(** [function channelForAttribute(attribute)] *)
Definition channelForAttribute (attribute : string) : option Channel :=
  if bool_decide (attribute ∈ ["x"; "x1"; "x2"]) then Some ChX
  else if bool_decide (attribute ∈ ["y"; "y1"; "y2"]) then Some ChY
  else if bool_decide (attribute = "color") then Some ChColor
  else if bool_decide (attribute = "size") then Some ChSize
  else None.

(** [String.prototype.toUpperCase] on ASCII text. *)
Definition toUpperCase (s : string) : string :=
  let up c :=
    let n := Ascii.nat_of_ascii c in
    if ((97 <=? n) && (n <=? 122))%nat then Ascii.ascii_of_nat (n - 32) else c in
  string_of_list_ascii (map up (list_ascii_of_string s)).

Module Resolved.

(** What [buildEncoding] returns for an encoding it resolves. *)
Record t : Type := mk {
  select : option SQL.ExprNode;
  scale : option ScaleHints.t;
  normalize : option Axis;
  grouping : option (list SQL.ExprNode);
  mapper : option (DataValue -> DataValue);
  order : option (DataValue -> DataValue -> float);
}.

Definition empty : t := mk None None None None None None.

End Resolved.

(** A value of a chart column as the argument of an aggregate's predicate
    builder or comparator. *)
Definition DataValue_to_PredicateArg (v : DataValue) : PredicateArg :=
  match v with
  | VStr s => One (AStr s)
  | VPair a b => One (AInterval a b)
  | _ => OtherValue
  end.

(** An aggregate's comparator on chart values; the values of a binned
    column are strings and intervals, on which it is the aggregate's. *)
Definition order_on_values (order : AggregateValue -> AggregateValue -> float)
    (a b : DataValue) : float :=
  match a, b with
  | VStr a, VStr b => order (AStr a) (AStr b)
  | VStr a, VPair b1 b2 => order (AStr a) (AInterval b1 b2)
  | VPair a1 a2, VStr b => order (AInterval a1 a2) (AStr b)
  | VPair a1 a2, VPair b1 b2 => order (AInterval a1 a2) (AInterval b1 b2)
  | _, _ => PrimFloat.nan
  end.

(** The output of code that logs: the [console.warn] messages, in order,
    and the value. *)
Definition Logged (A : Type) : Type := list string * A.

Definition quiet {A} (a : A) : Logged A := ([], a).
Definition warn {A} (message : string) (a : A) : Logged A := ([message], a).

(** The first half of [buildLayer]: the objects it fills while it
    resolves the layer's encodings.  An object filled key by key and read
    in insertion order is an association list. *)
Module LayerParts.

Record t : Type := mk {
  scaleHints : list (Channel * ScaleHints.t);
  fieldMappers : list (string * (DataValue -> DataValue));
  selectEntries : list (string * SQL.ExprNode);
  normalizeEntries : list (string * Axis);
  groupBys : list SQL.ExprNode;
  orders : list (string * (DataValue -> DataValue -> float));
}.

Definition empty : t := mk [] [] [] [] [] [].

End LayerParts.

(** [object[key] = value] *)
Fixpoint assoc_set {K V : Type} `{EqDecision K} (key : K) (value : V)
    (object : list (K * V)) : list (K * V) :=
  match object with
  | [] => [(key, value)]
  | (k, v) :: rest =>
      if decide (key = k) then (key, value) :: rest
      else (k, v) :: assoc_set key value rest
  end.

(** [object[key]] *)
Definition assoc_get {K V : Type} `{EqDecision K} (key : K) (object : list (K * V))
  : option V :=
  snd <$> List.find (fun kv => bool_decide (kv.1 = key)) object.

(** The flag [hasAggregateOrBin] of [buildLayer]. *)
Definition hasAggregateOrBin (encodings : list (string * Encoding)) : bool :=
  existsb (fun ae =>
             match ae.2 with
             | EncAggregate _ _ _ _ => true
             | EncField _ bin => bool_decide (is_Some bin)
             | EncValue _ => false
             end) encodings.

Section BuildEncoding.
Context `{Locale} `{BinningPolicy}.

(** The name a specification's aggregate prints as in a message. *)
Definition aggregate_text (a : AggregateSpec) : string :=
  match a with
  | AggName name => name
  | AggSql _ => "[object Object]"
  end.

Definition quantitativeHints (title : option string)
    (predicate : option (DataValue -> option SQL.ExprNode)) (domain : option (list DataValue))
    (includeZero : option bool) : ScaleHints.t :=
  ScaleHints.mk Quantitative None domain None includeZero title predicate.

(** [function buildEncoding(ctx, from, channel, encoding, fieldsInGroupBy)];
    [None] is its [undefined] result. *)
Definition buildEncoding (ctx : BuildContext.t) (from : FromExpr)
    (channel : option Channel) (encoding : Encoding) (fieldsInGroupBy : bool)
  : Logged (option Resolved.t) :=
  match encoding with
  | EncAggregate aggregate field quantile normalize =>
      let requireField :=
        warn ("Invalid spec: aggregate '" +:+ aggregate_text aggregate
              +:+ "' require a field") None in
      let other :=
        match aggregate with
        | AggSql sql =>
            quiet (Some {| Resolved.select := Some (SQL.RawSql sql);
                           Resolved.scale :=
                             Some (quantitativeHints None None None None);
                           Resolved.normalize := normalize;
                           Resolved.grouping := None;
                           Resolved.mapper := None;
                           Resolved.order := None |})
        | AggName name =>
            warn ("Invalid spec: unknown aggregate '" +:+ name +:+ "'") None
        end in
      match aggregate with
      | AggName name =>
          if bool_decide (name = "count") then
            quiet (Some {| Resolved.select := Some SQL.Count;
                           Resolved.scale :=
                             Some (quantitativeHints (Some "Count") None None (Some true));
                           Resolved.normalize := normalize;
                           Resolved.grouping := None;
                           Resolved.mapper := None;
                           Resolved.order := None |})
          else if bool_decide (name = "ecdf-value") then
            match field with
            | Some field =>
                let qs := quantilesExpr in
                let expr := SQL.Cast (BuildContext.fieldExpr ctx field) "DOUBLE" in
                quiet (Some {| Resolved.select := Some (SQL.UnnestQuantileDisc expr qs);
                               Resolved.scale :=
                                 Some (quantitativeHints (Some (fieldTitle field))
                                         (Some (quantitativePredicate expr)) None None);
                               Resolved.normalize := normalize;
                               Resolved.grouping := None;
                               Resolved.mapper := None;
                               Resolved.order := None |})
            | None => requireField
            end
          else if bool_decide (name = "ecdf-rank") then
            let qs := quantilesExpr in
            quiet (Some {| Resolved.select := Some (SQL.Unnest qs);
                           Resolved.scale :=
                             Some (quantitativeHints (Some "Quantile") None
                                     (Some [VNum 0%float; VNum 1%float]) None);
                           Resolved.normalize := normalize;
                           Resolved.grouping := None;
                           Resolved.mapper := None;
                           Resolved.order := None |})
          else
            match numericalAggregates name with
            | Some fn =>
                match field with
                | Some field =>
                    let expr := BuildContext.fieldExpr ctx field in
                    quiet (Some {| Resolved.select :=
                                     Some (SQL.Where (fn expr quantile) (SQL.IsFinite expr));
                                   Resolved.scale :=
                                     Some (quantitativeHints
                                             (Some (toUpperCase name +:+ "("
                                                    +:+ fieldTitle field +:+ ")"))
                                             (Some (quantitativePredicate expr)) None None);
                                   Resolved.normalize := normalize;
                                   Resolved.grouping := None;
                                   Resolved.mapper := None;
                                   Resolved.order := None |})
                | None => requireField
                end
            | None => other
            end
      | AggSql _ => other
      end
  | EncField field bin =>
      let bin :=
        match bin with
        | None => if fieldsInGroupBy && bool_decide (is_Some channel)
                  then Some None else None
        | Some b => Some b
        end in
      match BuildContext.stats ctx from field with
      | None => quiet None
      | Some stats =>
          match bin with
          | Some desiredCount =>
              let scaleType :=
                match channel with
                | Some c =>
                    match assoc_get c (ChartSpec.scale (BuildContext.spec ctx)) with
                    | Some sc => Scale.type sc
                    | None => None
                    end
                | None => None
                end in
              let binCount :=
                default (if bool_decide (channel = Some ChX)
                            || bool_decide (channel = Some ChY) then 20 else 5)
                        desiredCount in
              match inferAggregate stats scaleType (Some binCount) with
              | None => warn "Invalid spec: unsupported data type" None
              | Some aggregate =>
                  let scale := AggregateInfo.scale aggregate in
                  quiet (Some
                    {| Resolved.select := Some (AggregateInfo.select aggregate);
                       Resolved.grouping := Some [AggregateInfo.select aggregate];
                       Resolved.scale :=
                         if bool_decide (is_Some channel) then
                           Some {| ScaleHints.kind :=
                                     if bool_decide (ScaleConfig.type scale = Band)
                                     then Nominal else Quantitative;
                                   ScaleHints.type := Some (ScaleConfig.type scale);
                                   ScaleHints.domain := Some (ScaleConfig.domain scale);
                                   ScaleHints.specialValues :=
                                     ScaleConfig.specialValues scale;
                                   ScaleHints.includeZero := None;
                                   ScaleHints.title := Some (fieldTitle field);
                                   ScaleHints.predicate :=
                                     Some (fun v => AggregateInfo.predicate aggregate
                                                      (DataValue_to_PredicateArg v)) |}
                         else None;
                       Resolved.normalize := None;
                       Resolved.mapper := Some (AggregateInfo.field aggregate);
                       Resolved.order :=
                         Some (order_on_values (AggregateInfo.order aggregate)) |})
              end
          | None =>
              let select := BuildContext.fieldExpr ctx field in
              quiet (Some
                {| Resolved.select := Some select;
                   Resolved.grouping := Some (if fieldsInGroupBy then [select] else []);
                   Resolved.scale :=
                     Some (ScaleHints.mk
                             (if bool_decide (is_Some (FieldStats.quantitative stats))
                              then Quantitative else Nominal)
                             None None None None None None);
                   Resolved.normalize := None;
                   Resolved.mapper := None;
                   Resolved.order := None |})
          end
      end
  | EncValue value =>
      quiet (Some
        {| Resolved.select := None;
           Resolved.grouping := None;
           Resolved.normalize := None;
           Resolved.order := None;
           Resolved.mapper := Some (fun _ => value);
           Resolved.scale :=
             match value with
             | VStr _ => Some (ScaleHints.mk Nominal None (Some [value]) None None None None)
             | VNum _ =>
                 Some (ScaleHints.mk Quantitative None (Some [value]) None None None None)
             | _ => None
             end |})
  end.

(** The body of the loop over [Object.entries(layer.encoding)]: an
    encoding that resolves to [undefined] is skipped. *)
Definition resolveEntry (ctx : BuildContext.t) (from : FromExpr) (fieldsInGroupBy : bool)
    (acc : Logged LayerParts.t) (entry : string * Encoding) : Logged LayerParts.t :=
  let '(attribute, encoding) := entry in
  let channel := channelForAttribute attribute in
  let '(warnings, r) := buildEncoding ctx from channel encoding fieldsInGroupBy in
  let log := acc.1 ++ warnings in
  let parts := acc.2 in
  match r with
  | None => (log, parts)
  | Some r =>
      (log,
       {| LayerParts.selectEntries :=
            match Resolved.select r with
            | Some e => assoc_set attribute e (LayerParts.selectEntries parts)
            | None => LayerParts.selectEntries parts
            end;
          LayerParts.normalizeEntries :=
            match Resolved.normalize r with
            | Some a => assoc_set attribute a (LayerParts.normalizeEntries parts)
            | None => LayerParts.normalizeEntries parts
            end;
          LayerParts.groupBys :=
            match Resolved.grouping r with
            | Some g => LayerParts.groupBys parts ++ g
            | None => LayerParts.groupBys parts
            end;
          LayerParts.fieldMappers :=
            match Resolved.mapper r with
            | Some m => assoc_set attribute m (LayerParts.fieldMappers parts)
            | None => LayerParts.fieldMappers parts
            end;
          LayerParts.orders :=
            match Resolved.order r with
            | Some o => assoc_set attribute o (LayerParts.orders parts)
            | None => LayerParts.orders parts
            end;
          LayerParts.scaleHints :=
            match channel, Resolved.scale r with
            | Some channel, Some scale =>
                match assoc_get channel (LayerParts.scaleHints parts) with
                | None => assoc_set channel scale (LayerParts.scaleHints parts)
                | Some current =>
                    assoc_set channel (mergeScaleHints current scale)
                      (LayerParts.scaleHints parts)
                end
            | _, _ => LayerParts.scaleHints parts
            end |})
  end.

Definition resolveEntries (ctx : BuildContext.t) (from : FromExpr) (fieldsInGroupBy : bool)
    (encodings : list (string * Encoding)) (acc : Logged LayerParts.t)
  : Logged LayerParts.t :=
  foldl (resolveEntry ctx from fieldsInGroupBy) acc encodings.

(** [buildLayer(ctx, layer, layerIndex)] up to the point where it has
    resolved every encoding. *)
Definition buildLayer_parts (ctx : BuildContext.t) (layer : Layer.t) : Logged LayerParts.t :=
  let from :=
    BuildContext.fromExpr ctx
      (default (TableName (BuildContext.table ctx)) (Layer.from layer)) None in
  resolveEntries ctx from (hasAggregateOrBin (Layer.encoding layer))
    (Layer.encoding layer) (quiet LayerParts.empty).

End BuildEncoding.



(** ** Scale inference ([runtime.ts]) *)

(** One step of the loop of [d3.extent(values, valueof)] on the value the
    accessor returned, [None] being [undefined]. *)
Definition extent_step (acc : option float * option float) (value : option float)
  : option float * option float :=
  match value with
  | None => acc
  | Some value =>
      match acc.1 with
      | None => if Js.leb value value then (Some value, Some value) else acc
      | Some min =>
          (Some (if Js.gtb min value then value else min),
           match acc.2 with
           | Some max => Some (if Js.ltb max value then value else max)
           | None => None
           end)
      end
  end.

Definition d3_extent (values : list (option float)) : option float * option float :=
  foldl extent_step (None, None) values.

(** The accessor of [finiteExtent]:
    [(x) => (typeof x == "number" && isFinite(x) ? x : undefined)] *)
Definition finiteNumber (x : DataValue) : option float :=
  match x with
  | VNum x => if Js.isFinite x then Some x else None
  | _ => None
  end.

(** [function finiteExtent(values)] *)
Definition finiteExtent (values : list DataValue) : option float * option float :=
  d3_extent (map finiteNumber values).

(** [vals.flat()] on data values: an interval contributes its two ends. *)
Definition flat (vals : list DataValue) : list DataValue :=
  vals ≫= (fun v => match v with VPair a b => [VNum a; VNum b] | _ => [v] end).

Definition number_or_undefined (x : option float) : DataValue :=
  match x with Some x => VNum x | None => VUndef end.

(** [[hints.domain ?? [], ...data].map((vals) => finiteExtent(vals.flat())).flat()] *)
Definition extentParts (hints : ScaleHints.t) (data : list (list DataValue))
  : list DataValue :=
  (hint_domain hints :: data) ≫= (fun vals =>
    let e := finiteExtent (flat vals) in
    [number_or_undefined e.1; number_or_undefined e.2]).

(** [let includeZero = channel == "size" || hints.includeZero === true] *)
Definition includesZero (hints : ScaleHints.t) (channel : Channel) : bool :=
  bool_decide (channel = ChSize)
  || bool_decide (ScaleHints.includeZero hints = Some true).

(** The quantitative domain of [inferScale] before the specification's
    own domain is considered: the locals [min] and [max] at the [return]. *)
Definition inferredDomain (hints : ScaleHints.t) (data : list (list DataValue))
    (channel : Channel) : float * float :=
  let '(min, max) := finiteExtent (extentParts hints data) in
  (* Placeholder for no data *)
  let '(min, max) :=
    match min, max with
    | Some min, Some max =>
        if Js.isFinite min && Js.isFinite max then (min, max) else (0, 1)%float
    | _, _ => (0, 1)%float
    end in
  (* Single point, we extend to zero *)
  let '(min, max) :=
    if Js.eqb min max then
      if Js.gtb min 0 then (0%float, max)
      else if Js.ltb min 0 then (min, 0%float)
      else (min, 1%float)
    else (min, max) in
  (* Include zero logic *)
  if includesZero hints channel then
    if Js.gtb min 0 then (0%float, max)
    else if Js.ltb max 0 then (min, 0%float)
    else (min, max)
  else (min, max).

(** The strings of a list of values, [x.flat().filter((v) => typeof v == "string")]. *)
Definition strings_of (vals : list DataValue) : list string :=
  flat vals ≫= (fun v => match v with VStr s => [s] | _ => [] end).

(** [function inferScale(spec, hints, data, channel)] *)
Definition inferScale (spec : Scale.t) (hints : ScaleHints.t)
    (data : list (list DataValue)) (channel : Channel) : ScaleConfig.t :=
  match ScaleHints.kind hints with
  | Quantitative =>
      let '(min, max) := inferredDomain hints data channel in
      {| ScaleConfig.type :=
           default (default Linear (ScaleHints.type hints)) (Scale.type spec);
         ScaleConfig.domain := default [VNum min; VNum max] (Scale.domain spec);
         ScaleConfig.specialValues := ScaleHints.specialValues hints;
         ScaleConfig.constant := Scale.constant spec;
         ScaleConfig.range := Scale.range spec |}
  | Nominal =>
      let parts :=
        (hint_domain hints :: data) ≫= (fun x => Title.dedup [] (strings_of x)) in
      let specialValuesSet := default [] (ScaleHints.specialValues hints) in
      let stringValues :=
        filter (fun x => x ∉ specialValuesSet) (Title.dedup [] parts) in
      {| ScaleConfig.type :=
           default (default Band (ScaleHints.type hints)) (Scale.type spec);
         ScaleConfig.domain := default (VStr <$> stringValues) (Scale.domain spec);
         ScaleConfig.specialValues := ScaleHints.specialValues hints;
         ScaleConfig.constant := None;
         ScaleConfig.range := Scale.range spec |}
  end.


(** [lo] and [hi] are the least and the greatest of the numbers [values]. *)
Definition is_extent (values : list float) (lo hi : float) : Prop :=
  lo ∈ values /\ hi ∈ values
  /\ forall v, v ∈ values -> Js.leb lo v = true /\ Js.leb v hi = true.

(** The state of [d3.extent]'s loop after it has seen the numbers
    [values]: nothing yet, or their least and greatest. *)
Definition extent_of (values : list float) (acc : option float * option float) : Prop :=
  match acc with
  | (None, None) => values = []
  | (Some lo, Some hi) => is_extent values lo hi
  | _ => False
  end.

Definition allFinite (values : list float) : Prop :=
  Forall (fun v => Js.isFinite v = true) values.

(** ** Mark shaping: [stack] ([runtime.ts]) *)

Module DataTable.

(** [type DataTable = { length: number; columns: Record<string, DataValue[]> }] *)
Record t : Type := mk {
  length : nat;
  columns : gmap string (list DataValue);
}.

End DataTable.

(** [column[i]]: [undefined] past the end of the array. *)
Definition read (column : list DataValue) (i : nat) : DataValue :=
  default VUndef (column !! i).

Definition axisName (a : Axis) : string :=
  match a with AxisX => "x" | AxisY => "y" end.

(** [let field = by == "x" ? "y" : "x"] *)
Definition stackedField (by_ : Axis) : string :=
  match by_ with AxisX => "y" | AxisY => "x" end.

(** The keys of the [Map] of [stack]: the JSON text of the row's value
    on the [by] axis, [undefined] for an [undefined] value, and the empty
    string when the table has no such column. *)
Inductive GroupKey : Type :=
| KeyEmpty
| KeyJson (text : option JsonText).

#[global] Instance GroupKey_eq_dec : EqDecision GroupKey.
Proof. solve_decision. Defined.

(** [data.columns[by] != undefined ? JSON.stringify(data.columns[by][i]) : ""] *)
Definition groupKey (data : DataTable.t) (by_ : Axis) (i : nat) : GroupKey :=
  match DataTable.columns data !! axisName by_ with
  | Some column => KeyJson (JSON_stringify (read column i))
  | None => KeyEmpty
  end.

(** [entry = map.get(key); if (entry == undefined) map.set(key, [i]); else
    entry.push(i)] on a [Map], whose entries keep their insertion order. *)
Fixpoint map_push (key : GroupKey) (i : nat) (map : list (GroupKey * list nat))
  : list (GroupKey * list nat) :=
  match map with
  | [] => [(key, [i])]
  | (k, entry) :: rest =>
      if decide (key = k) then (k, entry ++ [i]) :: rest
      else (k, entry) :: map_push key i rest
  end.

(** The [Map] after the first loop over [rows]. *)
Definition groupRows (key : nat -> GroupKey) (rows : list nat) : list (GroupKey * list nat) :=
  foldl (fun map i => map_push (key i) i map) [] rows.

(** The comparator handed to [entry.sort]: the first of [orders] whose
    column exists and whose result is not zero decides, and the row index
    breaks the tie. *)
Fixpoint compareRows (columns : gmap string (list DataValue))
    (orders : list (string * (DataValue -> DataValue -> float))) (i1 i2 : nat)
  : comparison :=
  match orders with
  | [] => Nat.compare i1 i2
  | (key, order) :: orders =>
      match columns !! key with
      | None => compareRows columns orders i1 i2
      | Some colump =>
          let r := order (read colump i1) (read colump i2) in
          if negb (Js.eqb r 0) then Js.sign r else compareRows columns orders i1 i2
      end
  end.

(** The body of the inner loop: one row of a sorted entry. *)
Definition stackRow (state : float * list DataValue) (i : nat) : float * list DataValue :=
  let '(csum, newFieldColumn) := state in
  match read newFieldColumn i with
  | VNum value =>
      if Js.isFinite value then
        let ncsum := (csum + value)%float in
        (ncsum, Js.array_set VUndef i (VPair csum ncsum) newFieldColumn)
      else (csum, Js.array_set VUndef i VNull newFieldColumn)
  | _ => (csum, Js.array_set VUndef i VNull newFieldColumn)
  end.

(** The body of the loop over [map.values()]: sort the entry and stack it. *)
Definition stackEntry (compare : nat -> nat -> comparison)
    (newFieldColumn : list DataValue) (entry : list nat) : list DataValue :=
  (foldl stackRow (0%float, newFieldColumn) (Js.sort compare entry)).2.

(** [function stack(data, by, orders)]; [None] when it throws, which it
    does on [data.columns[field].slice()] in a table without that column. *)
Definition stack (data : DataTable.t) (by_ : Axis)
    (orders : list (string * (DataValue -> DataValue -> float))) : option DataTable.t :=
  let field := stackedField by_ in
  let map := groupRows (groupKey data by_) (seq 0 (DataTable.length data)) in
  match DataTable.columns data !! field with
  | None => None
  | Some column =>
      let newFieldColumn :=
        foldl (stackEntry (compareRows (DataTable.columns data) orders)) column (map.*2) in
      Some {| DataTable.length := DataTable.length data;
              DataTable.columns := <[field := newFieldColumn]> (DataTable.columns data) |}
  end.

(** *** The same, row by row

    What [stack] is specified to put in row [i] of the stacked column:
    the rows that share [i]'s value on the [by] axis, in the order of the
    comparator; the sum of the finite values of those before [i]; and the
    interval from that sum, or [null]. *)
Section StackSpec.
Variable data : DataTable.t.
Variable by_ : Axis.
Variable orders : list (string * (DataValue -> DataValue -> float)).
Variable column : list DataValue.

Definition groupOf (i : nat) : list nat :=
  filter (fun j => groupKey data by_ j = groupKey data by_ i)
         (seq 0 (DataTable.length data)).

Definition orderedGroupOf (i : nat) : list nat :=
  Js.sort (compareRows (DataTable.columns data) orders) (groupOf i).

(** The rows of a sorted entry that come before row [i]. *)
Fixpoint rowsBefore (i : nat) (entry : list nat) : list nat :=
  match entry with
  | [] => []
  | j :: rest => if decide (j = i) then [] else j :: rowsBefore i rest
  end.

(** The running sum over rows: a value that is not a finite number is
    skipped. *)
Definition addFinite (csum : float) (j : nat) : float :=
  match read column j with
  | VNum value => if Js.isFinite value then (csum + value)%float else csum
  | _ => csum
  end.

Definition sumBefore (i : nat) (entry : list nat) : float :=
  foldl addFinite 0%float (rowsBefore i entry).

Definition stackedValue (csum : float) (x : DataValue) : DataValue :=
  match x with
  | VNum value =>
      if Js.isFinite value then VPair csum (csum + value)%float else VNull
  | _ => VNull
  end.

Definition stackedRow (i : nat) : DataValue :=
  stackedValue (sumBefore i (orderedGroupOf i)) (read column i).

End StackSpec.

(** ** The chart runtime ([runtime.ts], [class ChartRuntime])

    The runtime is a state machine.  Its state holds the private fields
    of the object, the three stores, the subscribers of the derived store
    that each completed [setSpec] leaves behind, the [setSpec] calls
    suspended at their [await], and what the runtime shares with its
    environment: the cross-filter, the query clients and a log of the
    effects in the order they happen.

    An object is identified by a number: a specification object by [ref],
    a query client by the build that made it and its layer's index, a
    selection object by its build and its index. *)

Module Runtime.

Definition Source : Type := nat.
Definition Client : Type := nat * nat.
Definition SelectionId : Type := nat * nat.

(** The value a chart's state holds for a selection: [null], or the
    brushed [{ x?, y? }]. *)
Inductive StateValue : Type :=
| SNull
| SBrush (x y : option DataValue).

#[global] Instance StateValue_eq_dec : EqDecision StateValue.
Proof. solve_decision. Defined.

(** [interface ChartState]; [None] at a key is [undefined]. *)
Definition ChartState : Type := gmap string StateValue.

Definition FilterClause : Type := Clause.t Source Client StateValue.

(** Modelled from the spec: the shared cross-filter of
    [@uwdata/mosaic-core], which is not part of this repository's source.
    "A new write replaces, never duplicates, the prior clause for that
    source", and a clearing clause (predicate [null]) leaves the source
    without a clause. *)
Definition filter_update (clause : FilterClause) (filter : list FilterClause)
  : list FilterClause :=
  let others := base.filter (fun c => Clause.source c <> Clause.source clause) filter in
  match Clause.predicate clause with
  | Some _ => others ++ [clause]
  | None => others
  end.

(** [interface SelectionOutputs], with the two predicate functions its
    [clause] closure captures. *)
Record SelectionOutputs : Type := mkSelection {
  ident : SelectionId;
  key : string;
  type : SelectionEncoding;
  xPredicate : option (DataValue -> option SQL.ExprNode);
  yPredicate : option (DataValue -> option SQL.ExprNode);
}.

(** [clause: (value) => { if (value == undefined) return; ... }] *)
Definition clause (selection : SelectionOutputs) (value : option StateValue)
  : option (StateValue * SQL.ExprNode) :=
  match value with
  | None | Some SNull => None
  | Some (SBrush x y) =>
      let apply p v :=
        match p with Some p => p (default VUndef v) | None => None end in
      Some (SBrush x y,
            SQL.And (omap id [apply (xPredicate selection) x;
                              apply (yPredicate selection) y]))
  end.

(** A specification object: its identity and its content. *)
Record SpecObject : Type := mkSpec {
  ref : nat;
  content : ChartSpec.t;
}.

(** Modelled from the spec: [deepEquals] of [@embedding-atlas/utils],
    which is not under the source tree; "deep-equal" is structural
    equality of the JSON content. *)
Definition deepEquals {A} `{EqDecision A} (a b : A) : bool := bool_decide (a = b).

(** The closure of one completed [setSpec]: the clients [buildChart]
    returned (the layers that have one) and the variable [currentClause]. *)
Record Subscription : Type := mkSubscription {
  build : nat;
  layers : list nat;
  currentClause : option (SelectionId * option StateValue);
}.

Definition clients_of (build : nat) (layers : list nat) : list Client :=
  (fun i => (build, i)) <$> layers.

Definition clients (sub : Subscription) : list Client :=
  clients_of (build sub) (layers sub).

Inductive Event : Type :=
| FilterUpdate (clause : FilterClause)
| ClientCreate (client : Client) (hasFilter : bool)
| ClientDestroy (client : Client)
| SourceReset
| StatsRequested (spec : nat)
| OutputsSet (spec : option nat)
| SelectionsSet (spec : option nat).

Record t : Type := mk {
  source : Source;
  table : string;
  spec : option SpecObject;
  cleanupFn : option (nat * list nat);
  state : option ChartState;
  selections : option (list SelectionOutputs);
  outputs : option nat;
  subscriptions : list Subscription;
  pending : list SpecObject;
  filter : list FilterClause;
  destroyed : list Client;
  log : list Event;
  next : nat;
}.

(** [new ChartRuntime(context, onReset)] on a filter other charts may
    already have written to. *)
Definition create (source : Source) (table : string) (filter : list FilterClause) : t :=
  {| source := source; table := table; spec := None; cleanupFn := None;
     state := None; selections := None; outputs := None; subscriptions := [];
     pending := []; filter := filter; destroyed := []; log := []; next := 0 |}.

(** One selection in the subscriber's loop. *)
Definition syncSelection (source : Source) (clients : list Client)
    (state : option ChartState)
    (acc : option (SelectionId * option StateValue) * list FilterClause * list Event)
    (selection : SelectionOutputs)
  : option (SelectionId * option StateValue) * list FilterClause * list Event :=
  let '(currentClause, filter, events) := acc in
  let value := state ≫= (fun state => state !! key selection) in
  if deepEquals currentClause (Some (ident selection, value)) then acc
  else
    let written :=
      match clause selection value with
      | Some (value, predicate) => Clause.mk source clients (Some value) (Some predicate)
      | None => Clause.mk source clients None None
      end in
    (Some (ident selection, value), filter_update written filter,
     events ++ [FilterUpdate written]).

(** The subscriber of [derived([this.selections, this.state])] run once
    for one subscription. *)
Definition syncFilter (source : Source) (selections : option (list SelectionOutputs))
    (state : option ChartState) (acc : list Subscription * list FilterClause * list Event)
    (sub : Subscription) : list Subscription * list FilterClause * list Event :=
  let '(done, filter, events) := acc in
  let '(currentClause, filter, events) :=
    foldl (syncSelection source (clients sub) state)
      (currentClause sub, filter, events) (default [] selections) in
  (done ++ [mkSubscription (build sub) (layers sub) currentClause], filter, events).

(** A change of [selections] or [state] reaches every subscriber, in the
    order they subscribed. *)
Definition notify (w : t) : t :=
  let '(subs, filter, events) :=
    foldl (syncFilter (source w) (selections w) (state w)) ([], filter w, [])
      (subscriptions w) in
  mk (source w) (table w) (spec w) (cleanupFn w) (state w) (selections w) (outputs w)
     subs (pending w) filter (destroyed w) (log w ++ events) (next w).

(** [this.state.set(value)]: a store that holds [undefined] and is set to
    [undefined] notifies nobody; an object always does. *)
Definition state_set (value : option ChartState) (w : t) : t :=
  match state w, value with
  | None, None => w
  | _, _ =>
      notify (mk (source w) (table w) (spec w) (cleanupFn w) value (selections w)
                 (outputs w) (subscriptions w) (pending w) (filter w) (destroyed w)
                 (log w) (next w))
  end.

(** [this.selections.set(value)] *)
Definition selections_set (from : option nat) (value : option (list SelectionOutputs))
    (w : t) : t :=
  match selections w, value with
  | None, None => w
  | _, _ =>
      notify (mk (source w) (table w) (spec w) (cleanupFn w) (state w) value
                 (outputs w) (subscriptions w) (pending w) (filter w) (destroyed w)
                 (log w ++ [SelectionsSet from]) (next w))
  end.

(** [this.outputs.set(value)] *)
Definition outputs_set (value : option nat) (w : t) : t :=
  match outputs w, value with
  | None, None => w
  | _, _ =>
      mk (source w) (table w) (spec w) (cleanupFn w) (state w) (selections w) value
         (subscriptions w) (pending w) (filter w) (destroyed w)
         (log w ++ [OutputsSet value]) (next w)
  end.

(** The closure [this.cleanupFn] of the build [build] with clients
    [layers]: reset the source, empty the state (which lets the subscriber
    clear the selections), unsubscribe, destroy the clients. *)
Definition run_cleanupFn (build : nat) (layers : list nat) (w : t) : t :=
  let w := mk (source w) (table w) (spec w) (cleanupFn w) (state w) (selections w)
              (outputs w) (subscriptions w) (pending w) (filter w) (destroyed w)
              (log w ++ [SourceReset]) (next w) in
  let w := state_set None w in
  let subs := base.filter (fun sub => Runtime.build sub <> build) (subscriptions w) in
  let destroyed_now := clients_of build layers in
  mk (source w) (table w) (spec w) (cleanupFn w) (state w) (selections w) (outputs w)
     subs (pending w) (filter w) (destroyed w ++ destroyed_now)
     (log w ++ (ClientDestroy <$> destroyed_now)) (next w).

(** [private cleanup()] *)
Definition cleanup (w : t) : t :=
  let w :=
    match cleanupFn w with
    | Some (build, layers) => run_cleanupFn build layers w
    | None => w
    end in
  mk (source w) (table w) None None (state w) (selections w) (outputs w)
     (subscriptions w) (pending w) (filter w) (destroyed w) (log w) (next w).

(** [destroy()] *)
Definition destroy (w : t) : t :=
  selections_set None None (state_set None (outputs_set None (cleanup w))).

(** [async setSpec(spec)] up to its [await]: the call is left suspended
    in [pending] with the statistics requested. *)
Definition setSpec (s : SpecObject) (w : t) : t :=
  if deepEquals (Some (content s)) (content <$> spec w) then w
  else
    let w := cleanup w in
    mk (source w) (table w) (Some s) (cleanupFn w) (state w) (selections w) (outputs w)
       (subscriptions w) (pending w ++ [s]) (filter w) (destroyed w)
       (log w ++ [StatsRequested (ref s)]) (next w).

(** *** What the properties of the runtime speak of *)

(** The clauses of a filter that [source] owns. *)
Definition owned (source : Source) (filter : list FilterClause) : list FilterClause :=
  base.filter (fun c => Clause.source c = source) filter.

(** A clearing clause of [source]: [{ source, clients, value: null, predicate: null }]. *)
Definition clearing (source : Source) (c : FilterClause) : Prop :=
  Clause.source c = source /\ Clause.value c = None /\ Clause.predicate c = None.

(** The filter after the writes [written], in order. *)
Definition writes (written : list FilterClause) (filter : list FilterClause)
  : list FilterClause :=
  foldl (fun f c => filter_update c f) filter written.

(** A subscriber that has nothing to write when the state is emptied:
    its [currentClause] is already the empty value of the selection. *)
Definition settled (currentClause : option (SelectionId * option StateValue))
    (selections : list SelectionOutputs) : Prop :=
  forall sel, sel ∈ selections -> currentClause = Some (ident sel, None).

(** What a subscription's closure captured and never changes. *)
Definition captured (sub : Subscription) : nat * list nat := (build sub, layers sub).

(** Some clause of [source] in the filter names a client of the build [b]. *)
Definition references (source : Source) (filter : list FilterClause) (b : nat) : Prop :=
  exists c x, c ∈ owned source filter /\ x ∈ Clause.clients c /\ x.1 = b.

(** The builds that still have a subscriber. *)
Definition builds (subs : list Subscription) : list nat := build <$> subs.

(** The clients and the filter agree: builds are numbered below [next],
    a destroyed client belongs to a build without subscriber, and a clause
    of this chart names clients of builds that still have one. *)
Definition sound (w : t) : Prop :=
  Forall (fun b => (b < next w)%nat) (builds (subscriptions w))
  /\ NoDup (builds (subscriptions w))
  /\ (forall x, x ∈ destroyed w ->
        (x.1 < next w)%nat /\ x.1 ∉ builds (subscriptions w))
  /\ (forall b, references (source w) (filter w) b -> b ∈ builds (subscriptions w)).

(** What [cleanupFn] relies on: its subscriber is still subscribed, and
    once that subscriber has nothing left to clear the filter names none of
    its clients. *)
Definition armed (w : t) : Prop :=
  forall b ls, cleanupFn w = Some (b, ls) ->
    (b, ls) ∈ captured <$> subscriptions w
    /\ forall q, q ∈ subscriptions w -> build q = b ->
         state w = None \/ settled (currentClause q) (default [] (selections w)) ->
         ~ references (source w) (filter w) b.

Definition consistent (w : t) : Prop := sound w /\ armed w.

(** One round of notifications of the subscribers [subs]: the clauses
    written and the subscribers afterwards. *)
Definition round (source : Source) (sels : option (list SelectionOutputs))
    (st : option ChartState) (subs : list Subscription)
    (written : list FilterClause) (subs' : list Subscription) : Prop :=
  captured <$> subs' = captured <$> subs
  /\ Forall (fun c => Clause.source c = source
                      /\ (exists q, q ∈ subs /\ Clause.clients c = clients q)
                      /\ (st = None -> clearing source c)) written
  /\ (written = [] -> subs' = subs)
  /\ (forall c, last written = Some c -> Clause.predicate c <> None ->
        st <> None
        /\ exists q', q' ∈ subs' /\ Clause.clients c = clients q'
                      /\ exists sid v, currentClause q' = Some (sid, v) /\ v <> None)
  /\ (st = None -> written = [] ->
        forall q, q ∈ subs -> settled (currentClause q) (default [] sels))
  /\ (default [] sels = [] -> written = []).

(** The clients [cleanupFn] would destroy. *)
Definition cleanup_clients (w : t) : list Client :=
  match cleanupFn w with
  | Some (b, ls) => clients_of b ls
  | None => []
  end.

(** No clause of this chart in the shared filter names a destroyed client. *)
Definition unreferenced (w : t) : Prop :=
  forall c x, c ∈ owned (source w) (filter w) -> x ∈ Clause.clients c -> x ∉ destroyed w.

(** The clauses of a filter that other sources own. *)
Definition foreign (source : Source) (filter : list FilterClause) : list FilterClause :=
  base.filter (fun c => Clause.source c <> source) filter.

(** The runtime [w] with other suspended calls. *)
Definition with_pending (pending : list SpecObject) (w : t) : t :=
  mk (source w) (table w) (spec w) (cleanupFn w) (state w) (selections w) (outputs w)
     (subscriptions w) pending (filter w) (destroyed w) (log w) (next w).

(** The runtime [w] with another value in its state store. *)
Definition with_state (state : option ChartState) (w : t) : t :=
  mk (source w) (table w) (spec w) (cleanupFn w) state (selections w) (outputs w)
     (subscriptions w) (pending w) (filter w) (destroyed w) (log w) (next w).

(** The value the state holds for a selection, [state?.[selection.key]]. *)
Definition selected (state : option ChartState) (selection : SelectionOutputs)
  : option StateValue :=
  state ≫= (fun state => state !! key selection).

(** Every subscriber's [currentClause] is the last selection with the
    value the state holds for it. *)
Definition synced (w : t) : Prop :=
  forall q sel, q ∈ subscriptions w -> last (default [] (selections w)) = Some sel ->
    currentClause q = Some (ident sel, selected (state w) sel).

(** Nothing is destroyed twice, and no build holds a client twice. *)
Definition tidy (w : t) : Prop :=
  NoDup (destroyed w) /\ Forall (fun c => NoDup c.2) (captured <$> subscriptions w).

End Runtime.

Section RuntimeBuild.
Context `{Locale} `{BinningPolicy}.

(** [buildChart]: the layers that get a query client are those with a
    select entry; a client is bound to the shared filter when the layer
    consumes it. *)
Definition layerHasClient (ctx : BuildContext.t) (layer : Layer.t) : bool :=
  bool_decide (LayerParts.selectEntries (buildLayer_parts ctx layer).2 <> []).

Definition layerHasFilter (layer : Layer.t) : bool :=
  Layer.filter layer
  || match Layer.from layer with
     | Some (TableSql sql) => bool_decide (exists n, index 0 "$filter" sql = Some n)
     | _ => false
     end.

Definition clientLayers (ctx : BuildContext.t) : list nat :=
  (imap (fun i layer => if layerHasClient ctx layer then [i] else [])
        (ChartSpec.layers (BuildContext.spec ctx))) ≫= id.

(** The scale hints of the chart: the layers', merged channel by channel. *)
Definition chartScaleHints (ctx : BuildContext.t) : list (Channel * ScaleHints.t) :=
  foldl (fun scaleHints layer =>
           foldl (fun scaleHints ch =>
                    match assoc_get ch.1 scaleHints with
                    | Some current => assoc_set ch.1 (mergeScaleHints current ch.2) scaleHints
                    | None => assoc_set ch.1 ch.2 scaleHints
                    end)
                 scaleHints (LayerParts.scaleHints (buildLayer_parts ctx layer).2))
        [] (ChartSpec.layers (BuildContext.spec ctx)).

(** [function selectionOutputs(spec, scaleHints)], the objects made by
    the build [build]. *)
Definition selectionOutputs (build : nat) (spec : ChartSpec.t)
    (scaleHints : list (Channel * ScaleHints.t)) : list Runtime.SelectionOutputs :=
  imap (fun i sel =>
          let predicateOf ch := assoc_get ch scaleHints ≫= ScaleHints.predicate in
          Runtime.mkSelection (build, i) sel.1 sel.2
            (match sel.2 with SelX | SelXY => predicateOf ChX | SelY => None end)
            (match sel.2 with SelY | SelXY => predicateOf ChY | SelX => None end))
       (ChartSpec.selection spec).

(** The rest of [setSpec] once the statistics [stats] of its [k]-th
    suspended call have arrived. *)
Definition resume (k : nat) (stats : FromExpr -> SQLField -> option FieldStats.t)
    (w : Runtime.t) : Runtime.t :=
  match Runtime.pending w !! k with
  | None => w
  | Some s =>
      let w :=
        Runtime.mk (Runtime.source w) (Runtime.table w) (Runtime.spec w)
          (Runtime.cleanupFn w) (Runtime.state w) (Runtime.selections w)
          (Runtime.outputs w) (Runtime.subscriptions w) (delete k (Runtime.pending w))
          (Runtime.filter w) (Runtime.destroyed w) (Runtime.log w) (Runtime.next w) in
      (* if (this.spec !== spec) return; *)
      if negb (bool_decide (Runtime.ref <$> Runtime.spec w = Some (Runtime.ref s))) then w
      else
        let ctx := BuildContext.mk (Runtime.table w) (Runtime.content s) stats in
        let build := Runtime.next w in
        let layers := clientLayers ctx in
        let created :=
          (fun i => Runtime.ClientCreate (build, i)
                      (default false (layerHasFilter
                                        <$> ChartSpec.layers (Runtime.content s) !! i)))
          <$> layers in
        let w :=
          Runtime.mk (Runtime.source w) (Runtime.table w) (Runtime.spec w)
            (Runtime.cleanupFn w) (Runtime.state w) (Runtime.selections w)
            (Runtime.outputs w) (Runtime.subscriptions w) (Runtime.pending w)
            (Runtime.filter w) (Runtime.destroyed w) (Runtime.log w ++ created)
            (S (Runtime.next w)) in
        let w := Runtime.outputs_set (Some (Runtime.ref s)) w in
        let w :=
          Runtime.selections_set (Some (Runtime.ref s))
            (Some (selectionOutputs build (Runtime.content s) (chartScaleHints ctx))) w in
        (* derived([this.selections, this.state]).subscribe(...) runs the
           subscriber at once *)
        let '(subs, filter, events) :=
          Runtime.syncFilter (Runtime.source w) (Runtime.selections w) (Runtime.state w)
            (Runtime.subscriptions w, Runtime.filter w, [])
            (Runtime.mkSubscription build layers None) in
        Runtime.mk (Runtime.source w) (Runtime.table w) (Runtime.spec w)
          (Some (build, layers)) (Runtime.state w) (Runtime.selections w)
          (Runtime.outputs w) subs (Runtime.pending w) filter (Runtime.destroyed w)
          (Runtime.log w ++ events) (Runtime.next w)
  end.

(** What can happen to a runtime: its methods are called, a suspended
    [setSpec] resumes, the host sets the state store, and another chart
    writes its own clause to the shared filter. *)
Inductive Action : Type :=
| SetSpec (s : Runtime.SpecObject)
| Resume (k : nat) (stats : FromExpr -> SQLField -> option FieldStats.t)
| StateSet (value : option Runtime.ChartState)
| Destroy
| OtherUpdate (clause : Runtime.FilterClause).

Definition step (w : Runtime.t) (a : Action) : Runtime.t :=
  match a with
  | SetSpec s => Runtime.setSpec s w
  | Resume k stats => resume k stats w
  | StateSet value => Runtime.state_set value w
  | Destroy => Runtime.destroy w
  | OtherUpdate clause =>
      if bool_decide (Clause.source clause = Runtime.source w) then w
      else
        Runtime.mk (Runtime.source w) (Runtime.table w) (Runtime.spec w)
          (Runtime.cleanupFn w) (Runtime.state w) (Runtime.selections w)
          (Runtime.outputs w) (Runtime.subscriptions w) (Runtime.pending w)
          (Runtime.filter_update clause (Runtime.filter w)) (Runtime.destroyed w)
          (Runtime.log w) (Runtime.next w)
  end.

Definition run (w : Runtime.t) (actions : list Action) : Runtime.t :=
  foldl step w actions.

End RuntimeBuild.

(** ** Merging the layers' scale hints ([runtime.ts], [buildChart], [buildLayer]) *)

(** [if (scaleHints[channel] == undefined) scaleHints[channel] = hints;
     else scaleHints[channel] = mergeScaleHints(scaleHints[channel], hints)],
    the block [buildLayer] and [buildChart] share. *)
Definition mergeInto (scaleHints : list (Channel * ScaleHints.t))
    (entry : Channel * ScaleHints.t) : list (Channel * ScaleHints.t) :=
  match assoc_get entry.1 scaleHints with
  | Some current => assoc_set entry.1 (mergeScaleHints current entry.2) scaleHints
  | None => assoc_set entry.1 entry.2 scaleHints
  end.

(** The values hinted for a channel, [scaleHints[channel]?.domain ?? []]. *)
Definition domainAt (channel : Channel) (scaleHints : list (Channel * ScaleHints.t))
  : list DataValue :=
  from_option hint_domain [] (assoc_get channel scaleHints).

Section EntryHints.
Context `{Locale} `{BinningPolicy}.

(** The hints an entry of [layer.encoding] contributes. *)
Definition entryHints (ctx : BuildContext.t) (from : FromExpr) (g : bool)
    (entry : string * Encoding) : option (Channel * ScaleHints.t) :=
  match channelForAttribute entry.1,
        (buildEncoding ctx from (channelForAttribute entry.1) entry.2 g).2 with
  | Some channel, Some r => (fun h => (channel, h)) <$> Resolved.scale r
  | _, _ => None
  end.

End EntryHints.

(** ** The occupancy map of the dashboard layout ([occupancy_map.ts])

    A grid of bits, one [Uint32] per row.  Coordinates and sizes are
    integers, as the dashboard's grid hands them; the 32-bit operators
    of JavaScript are written out on [Z]. *)

Module OccupancyMap.

(** [ToInt32] and [ToUint32] of an integer. *)
Definition toInt32 (z : Z) : Z := (z + 2 ^ 31) mod 2 ^ 32 - 2 ^ 31.
Definition toUint32 (z : Z) : Z := z mod 2 ^ 32.

(** [a << b], [a & b], [a | b] and [~a]: the operands are taken as 32-bit
    integers, the shift count modulo 32, and the result is a 32-bit
    integer. *)
Definition shl (a b : Z) : Z := toInt32 (Z.shiftl (toInt32 a) (b mod 32)).
Definition and (a b : Z) : Z := Z.land (toInt32 a) (toInt32 b).
Definition or (a b : Z) : Z := Z.lor (toInt32 a) (toInt32 b).
Definition not (a : Z) : Z := Z.lnot (toInt32 a).

(** [class OccupancyMap]; [rows] is the [Uint32Array]. *)
Record t : Type := mk {
  numColumns : Z;
  rows : list Z;
}.

(** [new OccupancyMap(numColumns)]; [None] is the exception. *)
Definition create (numColumns : Z) : option t :=
  if 32 <? numColumns then None else Some (mk numColumns (replicate 128 0)).

(** [Math.ceil(n * 1.5)] on a length. *)
Definition grow (n : Z) : Z := (3 * n + 1) / 2.

(** [while (newLength < count) newLength = Math.ceil(newLength * 1.5)];
    [None] when the loop has not ended after [fuel] rounds. *)
Fixpoint grown (fuel : nat) (count newLength : Z) : option Z :=
  if newLength <? count then
    match fuel with
    | O => None
    | S fuel => grown fuel count (grow newLength)
    end
  else Some newLength.

(** [private ensureSize(count)]: the loop runs at most [count] times on a
    map that has a row. *)
Definition ensureSize (count : Z) (m : t) : option t :=
  let len := Z.of_nat (length (rows m)) in
  if len <? count then
    newLength ← grown (Z.to_nat count) count (grow len);
    Some (mk (numColumns m) (rows m ++ replicate (Z.to_nat (newLength - len)) 0))
  else Some m.

(** [this.rows[y]] for an index within the array. *)
Definition row (m : t) (y : Z) : Z := default 0 (rows m !! Z.to_nat y).

(** [get(x, y)] *)
Definition get (x y : Z) (m : t) : bool :=
  if (x <? 0) || (numColumns m <=? x) || (y <? 0) || (Z.of_nat (length (rows m)) <=? y)
  then false
  else negb (and (row m y) (shl 1 x) =? 0).

(** [this.rows[y] = v] on the typed array: the value is stored modulo
    [2^32]. *)
Definition store (y : Z) (v : Z) (m : t) : t :=
  mk (numColumns m) (<[Z.to_nat y := toUint32 v]> (rows m)).

(** [set(x, y, value)] *)
Definition set (x y value : Z) (m : t) : option t :=
  if (x <? 0) || (numColumns m <=? x) || (y <? 0) then Some m
  else
    m ← ensureSize (y + 1) m;
    if value =? 0 then Some (store y (and (row m y) (not (shl 1 x))) m)
    else if value =? 1 then Some (store y (or (row m y) (shl 1 x)) m)
    else Some m.

(** The rectangle [check] and [fill] work on, after their three
    adjustments: [(x, y, width, height)]. *)
Definition clip (x y width height : Z) (m : t) : Z * Z * Z * Z :=
  let '(x, width) := if x <? 0 then (0, width + x) else (x, width) in
  let '(y, height) := if y <? 0 then (0, height + y) else (y, height) in
  let width := if numColumns m <? x + width then numColumns m - x else width in
  (x, y, width, height).

(** [((1 << width) - 1) << x] *)
Definition mask (x width : Z) : Z := shl (shl 1 width - 1) x.

(** The rows [y], ..., [y + height - 1]. *)
Definition span (y height : Z) : list Z :=
  (fun dy => y + Z.of_nat dy) <$> seq 0 (Z.to_nat height).

(** [check(x, y, width, height)]: [true] when the rectangle is free. *)
Definition check (x y width height : Z) (m : t) : bool :=
  let '(x, y, width, height) := clip x y width height m in
  if (width <=? 0) || (height <=? 0) then true
  else
    forallb (fun r =>
               negb ((r <? Z.of_nat (length (rows m)))
                     && negb (and (row m r) (mask x width) =? 0)))
            (span y height).

(** [fill(x, y, width, height)] *)
Definition fill (x y width height : Z) (m : t) : option t :=
  let '(x, y, width, height) := clip x y width height m in
  if (width <=? 0) || (height <=? 0) then Some m
  else
    m ← ensureSize (y + height) m;
    Some (foldl (fun m r => store r (or (row m r) (mask x width)) m) m (span y height)).

(** [find(width, height)]; [None] is the exception. *)
Definition find (width height : Z) (m : t) : option (Z * Z) :=
  if (width <=? 0) || (height <=? 0) || (numColumns m <? width) then None
  else
    let maxY := Z.of_nat (length (rows m)) in
    let candidates :=
      y ← span 0 maxY; x ← span 0 (numColumns m - width + 1); [(x, y)] in
    Some (default (0, maxY)
            (List.find (fun p => check p.1 p.2 width height m) candidates)).

(** [maxOccupiedY()] *)
Definition maxOccupiedY (m : t) : Z :=
  default (-1)
    (List.find (fun i => negb (row m i =? 0))
       (reverse (span 0 (Z.of_nat (length (rows m)))))).

(** What the map holds: an array of at least one [Uint32]. *)
Definition wf (m : t) : Prop :=
  rows m <> [] /\ Forall (fun r => 0 <= r < 2 ^ 32) (rows m).

(** No row holds a bit at or beyond [numColumns]. *)
Definition clean (m : t) : Prop := Forall (fun r => 0 <= r < 2 ^ numColumns m) (rows m).

End OccupancyMap.

(** *** The map of the dashboard ([DashboardLayout.svelte]) *)

Module Placement.
Record t : Type := mk { x : Z; y : Z; width : Z; height : Z }.
End Placement.



(** ** Axis labels that do not overlap ([charts/common/infer.ts]) *)

Module LabelSpan.
(** [{ center: number; length: number; priority: number }] *)
Record t : Type := mk { center : float; length : float; priority : float }.
End LabelSpan.

Section ResolveLabelOverlap.
Context {T : Type}.

(** [Math.abs(a.center - b.center) < gap + a.length / 2 + b.length / 2] *)
Definition overlaps (gap : float) (a b : LabelSpan.t) : bool :=
  Js.ltb (PrimFloat.abs (LabelSpan.center a - LabelSpan.center b))
         (gap + LabelSpan.length a / 2 + LabelSpan.length b / 2)%float.

(** [labels.map((d, i) => ({ ...span(d), index: i }))
       .sort((a, b) => a.priority - b.priority)];
    a span and its [index] are a pair. *)
Definition spans (labels : list T) (span : T -> LabelSpan.t) : list (LabelSpan.t * nat) :=
  Js.sort (fun a b => Js.sign (LabelSpan.priority a.1 - LabelSpan.priority b.1)%float)
          (imap (fun i d => (span d, i)) labels).

(** The body of the loop over [i]: the inner loop looks for a span before
    position [i] that is placed and overlaps, and
    [placed[spans[i].index] = !hasOverlap]. *)
Definition placeStep (gap : float) (spans : list (LabelSpan.t * nat))
    (placed : list bool) (i : nat) : list bool :=
  match spans !! i with
  | Some si =>
      let hasOverlap :=
        existsb (fun sj => default false (placed !! sj.2) && overlaps gap si.1 sj.1)
                (take i spans) in
      Js.array_set false si.2 (negb hasOverlap) placed
  | None => placed
  end.

(** The array [placed] when the loop ends; it starts as
    [labels.map((_) => false)]. *)
Definition placed (gap : float) (labels : list T) (span : T -> LabelSpan.t) : list bool :=
  foldl (placeStep gap (spans labels span)) ((fun _ => false) <$> labels)
        (seq 0 (List.length (spans labels span))).


End ResolveLabelOverlap.

(** ** Sample parameters

    A locale and a binning policy to run the model on concrete inputs. *)

Module Sample.

Fixpoint group3 (digits : list ascii) : list ascii :=
  match digits with
  | a :: b :: c :: rest =>
      match rest with
      | [] => digits
      | _ => a :: b :: c :: ","%char :: group3 rest
      end
  | _ => digits
  end.

(** [toLocaleString] in the [en-US] locale: groups of three digits. *)
Definition en_US : Locale := fun z =>
  let digits := list_ascii_of_string (pretty (Z.abs z)) in
  (if z <? 0 then "-" else "")
  +:+ string_of_list_ascii (reverse (group3 (reverse digits))).

(** Equal-width bins on the requested scale, without nice boundaries. *)
Definition equalWidth : BinningPolicy := fun q scale desiredCount =>
  {| Binning.scale :=
       Binning.mkScale (default Linear scale) None (fun e _ => e) (fun x _ => x)
         (fun y _ => y);
     Binning.binStart := QStats.min q;
     Binning.binSize := ((QStats.max q - QStats.min q) / Js.of_Z desiredCount)%float |}.

(** A chart on table [t] with no statistics computed yet. *)
Definition context : BuildContext.t :=
  {| BuildContext.table := "t";
     BuildContext.spec := ChartSpec.mk [] [] [];
     BuildContext.stats := fun _ _ => None |}.

(** A bar layer counting the rows of each level of column [a]. *)
Definition countLayer (filter : bool) : Layer.t :=
  Layer.mk None filter "bar" None
    [("x", EncField (FieldName "a") None);
     ("y", EncAggregate (AggName "count") None None None)].

(** Two layers counting by the same field, one of them consuming the
    shared filter, and a brush along x. *)
Definition specA : Runtime.SpecObject :=
  Runtime.mkSpec 1%nat (ChartSpec.mk [countLayer true; countLayer false] [] [("brush", SelX)]).

Definition specB : Runtime.SpecObject :=
  Runtime.mkSpec 2%nat (ChartSpec.mk [countLayer true] [] [("brush", SelX)]).

Definition statsA : FromExpr -> SQLField -> option FieldStats.t := fun _ _ =>
  Some (FieldStats.mk (SQL.Column "a") None
          (Some (NStats.mk [Level.mk "u" 3; Level.mk "v" 2] 0 0 0))).

Definition brush : Runtime.ChartState :=
  {[ "brush" := Runtime.SBrush (Some (VStr "u")) None ]}.

(** A runtime on an empty filter after the calls [actions]. *)
Definition after (actions : list Action) : Runtime.t :=
  @run en_US equalWidth (Runtime.create 0%nat "t" []) actions.

(** The chart [specA] built, nothing selected. *)
Definition built : Runtime.t := after [SetSpec specA; Resume 0%nat statsA].

(** The chart [specA] built and brushed. *)
Definition brushed : list Action :=
  [SetSpec specA; Resume 0%nat statsA; StateSet (Some ∅); StateSet (Some brush)].

(** [setSpec(A); setSpec(B); setSpec(A)] with the same object [A], all
    three suspended. *)
Definition superseded : Runtime.t := after [SetSpec specA; SetSpec specB; SetSpec specA].

(** The statistics of the oldest suspended call arrive. *)
Definition completion (w : Runtime.t) : Runtime.t := @resume en_US equalWidth 0 statsA w.

(** Hints of a nominal channel with one special value. *)
Definition nominalHints : ScaleHints.t :=
  ScaleHints.mk Nominal None (Some [VStr "a"; VStr "(null)"]) (Some ["(null)"])
    None None None.

End Sample.

(** * Part II: properties *)

(** ** The order of JavaScript numbers *)

Module FloatOrderFacts.
Import FloatOrder.

Lemma SFcompare_lex (x y : spec_float) :
  is_nan x = false -> is_nan y = false -> SFcompare x y = Some (lex (key x) (key y)).
Proof.
  destruct x as [[]|[]| |[] m1 e1], y as [[]|[]| |[] m2 e2]; simpl; try done; intros _ _;
    unfold lex; simpl; f_equal.
  rewrite Z.compare_opp, (Z.compare_antisym e1 e2).
  by destruct (e1 ?= e2).
Qed.

Lemma lex_refl (a : Z * Z * Z) : lex a a = Eq.
Proof. unfold lex. by rewrite !Z.compare_refl. Qed.

Lemma lex_antisym (a b : Z * Z * Z) : lex b a = CompOpp (lex a b).
Proof.
  unfold lex.
  rewrite (Z.compare_antisym a.1.1), (Z.compare_antisym a.1.2), (Z.compare_antisym a.2).
  by destruct (a.1.1 ?= b.1.1), (a.1.2 ?= b.1.2), (a.2 ?= b.2).
Qed.

Lemma le_trans (a b c : Z * Z * Z) : le a b -> le b c -> le a c.
Proof.
  unfold le, lex.
  destruct (Z.compare_spec a.1.1 b.1.1), (Z.compare_spec b.1.1 c.1.1),
    (Z.compare_spec a.1.1 c.1.1); try lia; try done;
  destruct (Z.compare_spec a.1.2 b.1.2), (Z.compare_spec b.1.2 c.1.2),
    (Z.compare_spec a.1.2 c.1.2); try lia; try done;
  destruct (Z.compare_spec a.2 b.2), (Z.compare_spec b.2 c.2),
    (Z.compare_spec a.2 c.2); try lia; try done.
Qed.

Lemma notNaN_spec (x : float) : notNaN x <-> is_nan (Prim2SF x) = false.
Proof.
  unfold notNaN, PrimFloat.is_nan. rewrite FloatAxioms.eqb_spec. unfold SFeqb.
  destruct (Prim2SF x) as [[]|[]| |[] m e]; simpl; try done.
  all: rewrite ?Z.compare_refl, ?Pos.compare_cont_refl; simpl; done.
Qed.

Section Comparisons.
Implicit Types x y z : float.

Lemma ltb_lex x y :
  notNaN x -> notNaN y ->
  Js.ltb x y = match lex (fkey x) (fkey y) with Lt => true | _ => false end.
Proof.
  intros Hx%notNaN_spec Hy%notNaN_spec. unfold Js.ltb.
  by rewrite FloatAxioms.ltb_spec; unfold SFltb; rewrite SFcompare_lex.
Qed.

Lemma leb_lex x y :
  notNaN x -> notNaN y ->
  Js.leb x y = match lex (fkey x) (fkey y) with Gt => false | _ => true end.
Proof.
  intros Hx%notNaN_spec Hy%notNaN_spec. unfold Js.leb.
  rewrite FloatAxioms.leb_spec; unfold SFleb; rewrite SFcompare_lex by done.
  by destruct lex.
Qed.

Lemma eqb_lex x y :
  notNaN x -> notNaN y ->
  Js.eqb x y = match lex (fkey x) (fkey y) with Eq => true | _ => false end.
Proof.
  intros Hx%notNaN_spec Hy%notNaN_spec. unfold Js.eqb.
  by rewrite FloatAxioms.eqb_spec; unfold SFeqb; rewrite SFcompare_lex.
Qed.

Lemma leb_refl x : notNaN x -> Js.leb x x = true.
Proof. intros Hx. by rewrite leb_lex, lex_refl. Qed.

Lemma leb_trans x y z :
  notNaN x -> notNaN y -> notNaN z ->
  Js.leb x y = true -> Js.leb y z = true -> Js.leb x z = true.
Proof.
  intros Hx Hy Hz. rewrite !leb_lex by done. intros Hxy Hyz.
  pose proof (le_trans (fkey x) (fkey y) (fkey z)) as T. unfold le in T.
  destruct (lex (fkey x) (fkey y)), (lex (fkey y) (fkey z)), (lex (fkey x) (fkey z));
    try done; exfalso; by apply T.
Qed.

Lemma ltb_leb x y : notNaN x -> notNaN y -> Js.ltb x y = true -> Js.leb x y = true.
Proof. intros Hx Hy. rewrite ltb_lex, leb_lex by done. by destruct lex. Qed.

Lemma not_ltb_leb x y : notNaN x -> notNaN y -> Js.ltb x y = false -> Js.leb y x = true.
Proof.
  intros Hx Hy. rewrite ltb_lex, leb_lex by done. rewrite (lex_antisym (fkey x)).
  by destruct lex.
Qed.

Lemma eqb_leb x y :
  notNaN x -> notNaN y ->
  Js.eqb x y = true <-> Js.leb x y = true /\ Js.leb y x = true.
Proof.
  intros Hx Hy. rewrite eqb_lex, !leb_lex by done. rewrite (lex_antisym (fkey x)).
  destruct lex; simpl; intuition congruence.
Qed.

Lemma finite_notNaN x : Js.isFinite x = true -> notNaN x.
Proof.
  unfold Js.isFinite, PrimFloat.is_finite, notNaN. by destruct (PrimFloat.is_nan x).
Qed.

End Comparisons.

End FloatOrderFacts.

(** ** [mergeScaleHints] *)

Lemma hint_domain_merge (a b : ScaleHints.t) :
  hint_domain (mergeScaleHints a b) = hint_domain a ++ hint_domain b.
Proof. reflexivity. Qed.

(** C8. Merging scale hints is commutative and associative as far as
    membership in the resulting domain goes: a value is in the domain of
    [merge a b] exactly when it is in that of [merge b a], and in the domain
    of [merge (merge a b) c] exactly when it is in that of
    [merge a (merge b c)]. *)
Theorem mergeScaleHints_domain_membership (a b c : ScaleHints.t) (v : DataValue) :
  (v ∈ hint_domain (mergeScaleHints a b) <-> v ∈ hint_domain (mergeScaleHints b a))
  /\ (v ∈ hint_domain (mergeScaleHints (mergeScaleHints a b) c)
      <-> v ∈ hint_domain (mergeScaleHints a (mergeScaleHints b c))).
Proof.
  rewrite !hint_domain_merge. split.
  - rewrite !elem_of_app. tauto.
  - by rewrite (assoc_L (++)).
Qed.

(** ** [inferScale] *)

Section InferScaleFacts.
Import FloatOrder FloatOrderFacts.

Lemma finiteNumber_finite (x : DataValue) (v : float) :
  finiteNumber x = Some v -> Js.isFinite v = true.
Proof. destruct x; simpl; try done. by case_match; intros [= <-]. Qed.

Lemma omap_finiteNumber_finite (values : list DataValue) :
  allFinite (omap finiteNumber values).
Proof.
  apply Forall_forall. intros v (x & _ & Hx)%list_elem_of_omap.
  by eapply finiteNumber_finite.
Qed.

Lemma extent_step_inv (seen : list float) (acc : option float * option float) (v : float) :
  extent_of seen acc -> allFinite seen -> Js.isFinite v = true ->
  extent_of (seen ++ [v]) (extent_step acc (Some v)).
Proof.
  intros Hacc Hseen Hv. pose proof (finite_notNaN _ Hv) as Nv.
  assert (Hn : forall u, u ∈ seen -> notNaN u).
  { intros u Hu. apply finite_notNaN. by eapply (proj1 (Forall_forall _ _)) in Hseen. }
  destruct acc as [[lo|] [hi|]]; simpl in *; try done.
  - destruct Hacc as (Hlo & Hhi & Hb).
    pose proof (Hn _ Hlo) as Nlo. pose proof (Hn _ Hhi) as Nhi.
    unfold Js.gtb. fold (Js.ltb v lo). fold (Js.ltb hi v).
    split; [|split].
    + rewrite elem_of_app, list_elem_of_singleton. case_match; auto.
    + rewrite elem_of_app, list_elem_of_singleton. case_match; auto.
    + intros u [Hu| ->%list_elem_of_singleton]%elem_of_app.
      * destruct (Hb u Hu) as [B1 B2]. pose proof (Hn _ Hu) as Nu. split.
        -- destruct (Js.ltb v lo) eqn:E; [|done].
           eapply (leb_trans v lo u); eauto using ltb_leb.
        -- destruct (Js.ltb hi v) eqn:E; [|done].
           eapply (leb_trans u hi v); eauto using ltb_leb.
      * split.
        -- destruct (Js.ltb v lo) eqn:E; [by apply leb_refl|by apply not_ltb_leb].
        -- destruct (Js.ltb hi v) eqn:E; [by apply leb_refl|by apply not_ltb_leb].
  - subst seen. rewrite (leb_refl v Nv). simpl.
    split; [by apply list_elem_of_singleton|].
    split; [by apply list_elem_of_singleton|].
    intros u ->%list_elem_of_singleton. split; by apply leb_refl.
Qed.

Lemma foldl_extent_step (values : list (option float)) :
  forall (seen : list float) (acc : option float * option float),
  extent_of seen acc -> allFinite seen -> allFinite (omap id values) ->
  extent_of (seen ++ omap id values) (foldl extent_step acc values).
Proof.
  induction values as [|[v|] values IH]; intros seen acc Hacc Hseen Hvalues; simpl.
  - by rewrite app_nil_r.
  - apply Forall_cons in Hvalues as [Hv Hvalues].
    rewrite (cons_middle v), (assoc_L (++)).
    apply IH; [by apply extent_step_inv| |done].
    apply Forall_app; split; [done|by constructor].
  - by apply IH.
Qed.

Lemma finiteExtent_extent (values : list DataValue) :
  extent_of (omap finiteNumber values) (finiteExtent values).
Proof.
  unfold finiteExtent, d3_extent.
  assert (E : omap finiteNumber values = omap id (map finiteNumber values)).
  { induction values as [|x values IH]; csimpl; [done|].
    destruct (finiteNumber x); csimpl; by rewrite IH. }
  rewrite E. apply (foldl_extent_step _ [] (None, None)); [done|constructor|].
  rewrite <- E. apply omap_finiteNumber_finite.
Qed.







End InferScaleFacts.


(** ** [stack] *)

Section StackFacts.

Lemma read_array_set (column : list DataValue) (i j : nat) (v : DataValue) :
  read (Js.array_set VUndef i v column) j = if decide (i = j) then v else read column j.
Proof.
  unfold read, Js.array_set. destruct (decide (i < length column)%nat) as [Hi|Hi].
  - destruct (decide (i = j)) as [<-|Hij].
    + by rewrite list_lookup_insert_eq.
    + by rewrite list_lookup_insert_ne.
  - destruct (decide (i = j)) as [<-|Hij].
    + rewrite lookup_app_r by lia. rewrite lookup_app_r by (rewrite length_replicate; lia).
      rewrite length_replicate. by replace (i - length column - (i - length column))%nat with 0%nat by lia.
    + destruct (decide (j < length column)%nat) as [Hj|Hj].
      * by rewrite lookup_app_l.
      * rewrite (lookup_ge_None_2 column j) by lia. simpl.
        rewrite lookup_app_r by lia.
        destruct (decide (j - length column < i - length column)%nat) as [Hlt|Hge].
        -- rewrite lookup_app_l by (by rewrite length_replicate).
           by rewrite lookup_replicate_2.
        -- rewrite lookup_app_r by (rewrite length_replicate; lia).
           rewrite length_replicate.
           destruct (j - length column - (i - length column))%nat as [|k] eqn:E; [lia|done].
Qed.

Lemma sort_insert_perm {A} (compare : A -> A -> comparison) (x : A) (l : list A) :
  Js.sort_insert compare x l ≡ₚ x :: l.
Proof.
  induction l as [|y l IH]; simpl; [done|].
  destruct (compare x y); try done. by rewrite IH, Permutation_swap.
Qed.

Lemma sort_perm {A} (compare : A -> A -> comparison) (l : list A) :
  Js.sort compare l ≡ₚ l.
Proof.
  induction l as [|x l IH]; simpl; [done|]. by rewrite sort_insert_perm, IH.
Qed.

Lemma stackRow_eq (csum : float) (column : list DataValue) (j : nat) :
  stackRow (csum, column) j
  = (addFinite column csum j,
     Js.array_set VUndef j (stackedValue csum (read column j)) column).
Proof.
  unfold stackRow, addFinite, stackedValue.
  destruct (read column j) as [| x | | |]; try done. by destruct (Js.isFinite x).
Qed.

Lemma rowsBefore_subseteq (i : nat) (entry : list nat) :
  rowsBefore i entry ⊆ entry.
Proof.
  induction entry as [|j entry IH]; simpl; [done|].
  destruct (decide (j = i)); [apply list_subseteq_nil|].
  intros k [->|Hk]%elem_of_cons; [by left|right; by apply IH].
Qed.

Lemma foldl_addFinite_ext (column column' : list DataValue) (rows : list nat) (csum : float) :
  (forall k, k ∈ rows -> read column' k = read column k) ->
  foldl (addFinite column') csum rows = foldl (addFinite column) csum rows.
Proof.
  revert csum. induction rows as [|j rows IH]; intros csum Hext; simpl; [done|].
  unfold addFinite at 2 4. rewrite (Hext j) by by left.
  apply IH. intros k Hk. apply Hext. by right.
Qed.

(** Stacking one sorted entry: the rows of the entry get their
    intervals, every other row is read as before. *)
Lemma foldl_stackRow (entry : list nat) :
  forall (csum : float) (column : list DataValue),
  NoDup entry ->
  let column' := (foldl stackRow (csum, column) entry).2 in
  (forall i, i ∉ entry -> read column' i = read column i)
  /\ (forall i, i ∈ entry ->
        read column' i
        = stackedValue (foldl (addFinite column) csum (rowsBefore i entry))
            (read column i)).
Proof.
  induction entry as [|j entry IH]; intros csum column Hnd; cbv zeta.
  { split; [done|]. by intros i ?%elem_of_nil. }
  apply NoDup_cons in Hnd as [Hj Hnd].
  change (foldl stackRow (csum, column) (j :: entry))
    with (foldl stackRow (stackRow (csum, column) j) entry).
  rewrite stackRow_eq.
  set (column1 := Js.array_set VUndef j (stackedValue csum (read column j)) column).
  destruct (IH (addFinite column csum j) column1 Hnd) as [IH1 IH2].
  assert (Hread : forall k, k <> j -> read column1 k = read column k).
  { intros k Hk. unfold column1. rewrite read_array_set. by destruct (decide (j = k)). }
  split.
  - intros i Hi. apply not_elem_of_cons in Hi as [Hij Hi].
    rewrite IH1 by done. by apply Hread.
  - intros i [->|Hi]%elem_of_cons.
    + cbn [rowsBefore]. rewrite decide_True by done. cbn [foldl].
      rewrite IH1 by done. unfold column1. rewrite read_array_set. by rewrite decide_True.
    + assert (i <> j) as Hij by (intros ->; done).
      cbn [rowsBefore]. rewrite decide_False by done. cbn [foldl].
      rewrite IH2 by done. rewrite Hread by done. f_equal.
      apply foldl_addFinite_ext. intros k Hk. apply Hread.
      intros ->. apply Hj. by apply (rowsBefore_subseteq i entry).
Qed.

(** Stacking the entries one after the other, when no row is in two of
    them. *)
Lemma foldl_stackEntry (compare : nat -> nat -> comparison) (entries : list (list nat)) :
  forall column : list DataValue,
  NoDup (mjoin entries) ->
  let column' := foldl (stackEntry compare) column entries in
  (forall i, i ∉ mjoin entries -> read column' i = read column i)
  /\ (forall entry i, entry ∈ entries -> i ∈ entry ->
        read column' i
        = stackedValue (sumBefore column i (Js.sort compare entry)) (read column i)).
Proof.
  induction entries as [|e entries IH]; intros column Hnd; cbv zeta.
  { split; [done|]. by intros entry i ?%elem_of_nil. }
  change (mjoin (e :: entries)) with (e ++ mjoin entries) in *.
  change (foldl (stackEntry compare) column (e :: entries))
    with (foldl (stackEntry compare) (stackEntry compare column e) entries).
  apply NoDup_app in Hnd as (He & Hdisj & Hnd).
  assert (Hs : NoDup (Js.sort compare e)) by by rewrite sort_perm.
  destruct (foldl_stackRow (Js.sort compare e) 0%float column Hs) as [S1 S2].
  fold (stackEntry compare column e) in S1, S2.
  set (column1 := stackEntry compare column e) in *.
  destruct (IH column1 Hnd) as [IH1 IH2].
  split.
  - intros i Hi. apply not_elem_of_app in Hi as [Hie Hi].
    rewrite IH1 by done. apply S1. by rewrite sort_perm.
  - intros entry i [->|Hentry]%elem_of_cons Hi.
    + rewrite IH1 by (by apply Hdisj). apply S2. by rewrite sort_perm.
    + assert (Hout : forall k, k ∈ entry -> read column1 k = read column k).
      { intros k Hk. apply S1. rewrite sort_perm. intros Hke.
        apply (Hdisj k Hke). apply list_elem_of_join. eauto. }
      rewrite (IH2 entry i Hentry Hi). rewrite Hout by done. f_equal.
      apply foldl_addFinite_ext. intros k Hk. apply Hout.
      apply rowsBefore_subseteq in Hk. by rewrite sort_perm in Hk.
Qed.

Lemma filter_none {A} (P : A -> Prop) `{forall x, Decision (P x)} (l : list A) :
  (forall x, x ∈ l -> ~ P x) -> filter P l = [].
Proof.
  induction l as [|x l IH]; intros Hl; [done|].
  rewrite filter_cons_False by (apply Hl; by left). apply IH. intros y Hy. apply Hl. by right.
Qed.

Lemma map_push_fresh (key : GroupKey) (i : nat) (map : list (GroupKey * list nat)) :
  key ∉ map.*1 -> map_push key i map = map ++ [(key, [i])].
Proof.
  induction map as [|[k e] map IH]; simpl; [done|].
  intros [Hk Hmap]%not_elem_of_cons. rewrite decide_False by done. by rewrite IH.
Qed.

Lemma map_push_found (key : GroupKey) (i : nat) (map : list (GroupKey * list nat)) :
  NoDup map.*1 -> key ∈ map.*1 ->
  map_push key i map
  = (fun ke => if decide (key = ke.1) then (ke.1, ke.2 ++ [i]) else ke) <$> map.
Proof.
  induction map as [|[k e] map IH]; simpl; [by intros _ ?%elem_of_nil|].
  intros [Hk Hnd]%NoDup_cons Hin. destruct (decide (key = k)) as [->|Hne].
  - f_equal. rewrite <- (list_fmap_id map) at 1. apply Forall_fmap_ext_1, Forall_forall.
    intros [k' e'] Hke. simpl. rewrite decide_False; [done|].
    intros ->. apply Hk. apply list_elem_of_fmap. by exists (k', e').
  - f_equal. apply IH; [done|]. by apply elem_of_cons in Hin as [?|?].
Qed.

(** The [Map] of [stack] after the first loop: one entry for each key
    that occurs, holding the rows with that key in their order. *)
Lemma groupRows_spec (key : nat -> GroupKey) (rows : list nat) :
  let map := groupRows key rows in
  NoDup map.*1
  /\ map = (fun k => (k, filter (fun j => key j = k) rows)) <$> map.*1
  /\ (forall i, i ∈ rows -> key i ∈ map.*1).
Proof.
  induction rows as [|i rows IH] using rev_ind; cbv zeta.
  { split; [constructor|]. split; [done|]. by intros i ?%elem_of_nil. }
  unfold groupRows. rewrite foldl_app. cbn [foldl]. fold (groupRows key rows).
  destruct IH as (Hnd & Hmap & Hcov). set (map := groupRows key rows) in *.
  destruct (decide (key i ∈ map.*1)) as [Hin|Hout].
  - rewrite map_push_found by done.
    assert (Hfst : ((fun ke : GroupKey * list nat =>
                       if decide (key i = ke.1) then (ke.1, ke.2 ++ [i]) else ke) <$> map).*1
                   = map.*1).
    { rewrite <- list_fmap_compose. apply Forall_fmap_ext_1, Forall_forall.
      intros [k e] _. simpl. by destruct (decide (key i = k)). }
    rewrite Hfst. split; [done|]. split.
    + rewrite Hmap at 1. rewrite <- list_fmap_compose.
      apply Forall_fmap_ext_1, Forall_forall. intros k _. simpl.
      rewrite filter_app. destruct (decide (key i = k)) as [Hk|Hk]; simpl.
      * by rewrite filter_cons_True.
      * rewrite filter_cons_False by done. by rewrite app_nil_r.
    + intros j [Hj| ->%list_elem_of_singleton]%elem_of_app; auto.
  - rewrite map_push_fresh by done. rewrite !fmap_app. simpl. split.
    + apply NoDup_app. split; [done|]. split; [|apply NoDup_singleton].
      by intros k Hk ->%list_elem_of_singleton.
    + split.
      * f_equal.
        -- rewrite Hmap at 1. apply Forall_fmap_ext_1, Forall_forall. intros k Hk. simpl.
           rewrite filter_app, filter_cons_False; [by rewrite app_nil_r|].
           by intros <-.
        -- f_equal. f_equal. rewrite filter_app, filter_cons_True by done.
           rewrite filter_none; [done|].
           intros j Hj Hkey. apply Hout. rewrite <- Hkey. by apply Hcov.
      * intros j [Hj| ->%list_elem_of_singleton]%elem_of_app; rewrite elem_of_app.
        -- left. by apply Hcov.
        -- right. by apply list_elem_of_singleton.
Qed.

Lemma NoDup_join_filter (key : nat -> GroupKey) (rows : list nat) (keys : list GroupKey) :
  NoDup keys -> NoDup rows ->
  NoDup (mjoin ((fun k => filter (fun j => key j = k) rows) <$> keys)).
Proof.
  intros Hkeys Hrows. induction Hkeys as [|k keys Hk Hkeys IH]; simpl; [constructor|].
  apply NoDup_app. split; [by apply NoDup_filter|]. split; [|done].
  intros j [Hj _]%list_elem_of_filter (e & Hje & He)%list_elem_of_join.
  apply list_elem_of_fmap in He as (k' & -> & Hk').
  apply list_elem_of_filter in Hje as [Hj' _]. congruence.
Qed.

(** Every row of the table is in exactly one entry of the map, the one
    of the rows that share its key. *)
Lemma groupRows_entries (key : nat -> GroupKey) (rows : list nat) :
  NoDup rows ->
  let entries := (groupRows key rows).*2 in
  NoDup (mjoin entries)
  /\ (forall i, i ∈ mjoin entries -> i ∈ rows)
  /\ (forall i, i ∈ rows -> filter (fun j => key j = key i) rows ∈ entries).
Proof.
  intros Hrows entries. destruct (groupRows_spec key rows) as (Hnd & Hmap & Hcov).
  assert (Hent : entries
                 = (fun k => filter (fun j => key j = k) rows) <$> (groupRows key rows).*1).
  { unfold entries. rewrite Hmap at 1. rewrite <- list_fmap_compose. done. }
  rewrite Hent. split; [by apply NoDup_join_filter|]. split.
  - intros i (e & Hi & He)%list_elem_of_join.
    apply list_elem_of_fmap in He as (k & -> & _). by apply list_elem_of_filter in Hi as [_ ?].
  - intros i Hi. apply list_elem_of_fmap. exists (key i). split; [done|]. by apply Hcov.
Qed.



Lemma stack_column (data : DataTable.t) (by_ : Axis)
    (orders : list (string * (DataValue -> DataValue -> float))) (column : list DataValue) :
  DataTable.columns data !! stackedField by_ = Some column ->
  exists newFieldColumn,
    stack data by_ orders
    = Some {| DataTable.length := DataTable.length data;
              DataTable.columns :=
                <[stackedField by_ := newFieldColumn]> (DataTable.columns data) |}
    /\ (forall i, (i < DataTable.length data)%nat ->
          read newFieldColumn i = stackedRow data by_ orders column i)
    /\ (forall i, (DataTable.length data <= i)%nat ->
          read newFieldColumn i = read column i).
Proof.
  intros Hcol. unfold stack. rewrite Hcol. eexists. split; [reflexivity|].
  set (rows := seq 0 (DataTable.length data)).
  set (compare := compareRows (DataTable.columns data) orders).
  destruct (groupRows_entries (groupKey data by_) rows (NoDup_seq _ _))
    as (Hnd & Hin & Hgroup).
  destruct (foldl_stackEntry compare ((groupRows (groupKey data by_) rows).*2) column Hnd)
    as [S1 S2].
  split.
  - intros i Hi. assert (Hrow : i ∈ rows) by (apply elem_of_seq; lia).
    rewrite (S2 _ i (Hgroup i Hrow)); [done|].
    apply list_elem_of_filter. done.
  - intros i Hi. apply S1. intros Hrow%Hin. apply elem_of_seq in Hrow. lia.
Qed.



(** C10.  On a table that holds the stacked field's column, [stack]
    returns a table with the same [length] in which every other column,
    the grouping column among them, is the column of the input: only the
    stacked field's column is rewritten. *)
Theorem stack_frame (data : DataTable.t) (by_ : Axis)
    (orders : list (string * (DataValue -> DataValue -> float))) (column : list DataValue) :
  DataTable.columns data !! stackedField by_ = Some column ->
  exists t,
    stack data by_ orders = Some t
    /\ DataTable.length t = DataTable.length data
    /\ (forall name, name <> stackedField by_ ->
          DataTable.columns t !! name = DataTable.columns data !! name)
    /\ DataTable.columns t !! axisName by_ = DataTable.columns data !! axisName by_.
Proof.
  intros Hcol. destruct (stack_column data by_ orders column Hcol) as (new & Hstack & _).
  eexists. split; [exact Hstack|]. split; [done|]. simpl. split.
  - intros name Hname. by rewrite lookup_insert_ne.
  - rewrite lookup_insert_ne; [done|]. by destruct by_.
Qed.

Lemma stack_frame_witness :
  let column := [VNum 3; VNum PrimFloat.nan; VNum 2]%float in
  let data :=
    {| DataTable.length := 3;
       DataTable.columns := {[ "x" := [VStr "a"; VStr "a"; VStr "a"]; "y" := column ]} |} in
  DataTable.columns data !! stackedField AxisX = Some column
  /\ exists t,
       stack data AxisX [] = Some t
       /\ DataTable.length t = 3%nat
       /\ DataTable.columns t !! "x" = Some [VStr "a"; VStr "a"; VStr "a"].
Proof.
  intros column data. assert (Hcol : DataTable.columns data !! stackedField AxisX = Some column).
  { by vm_compute. }
  split; [exact Hcol|].
  destruct (stack_frame data AxisX [] column Hcol) as (t & Hstack & Hlen & _ & Hby).
  exists t. split; [exact Hstack|]. split; [exact Hlen|].
  change (axisName AxisX) with "x" in Hby. rewrite Hby. by vm_compute.
Defined.

(** A table with no column for the stacked field, as a bar layer without
    a [y] encoding produces: [data.columns[field].slice()] throws and no
    table is returned. *)
Lemma stack_without_stacked_column :
  let data :=
    {| DataTable.length := 1; DataTable.columns := {[ "x" := [VStr "a"] ]} |} in
  stack data AxisX [] = None
  /\ ~ (exists t, stack data AxisX [] = Some t
                  /\ DataTable.length t = DataTable.length data).
Proof.
  intros data. assert (E : stack data AxisX [] = None) by by vm_compute.
  split; [exact E|]. intros (t & Ht & _). congruence.
Qed.

End StackFacts.

(** ** [inferAggregate] *)

Section InferAggregateFacts.
Context `{Locale} `{BinningPolicy}.

(** The sum of the counts of a list of levels. *)
Lemma clippedCount_sum (binCount : Z) (levels : list Level.t) :
  clippedCount binCount levels
  = foldr Z.add 0 (map Level.count (Js.slice_from binCount levels)).
Proof.
  unfold clippedCount. generalize (Js.slice_from binCount levels) as l.
  assert (G : forall (l : list Level.t) a,
             foldl (fun a b => a + Level.count b) a l
             = a + foldr Z.add 0 (map Level.count l)).
  { induction l as [|x l IH]; intros a; simpl; [lia|]. rewrite IH. lia. }
  intros l. rewrite G. lia.
Qed.

(** What the nominal branch computes when it clips: the band domain is
    the first [binCount] levels, [numOtherLevels] grows by the number of
    clipped levels, and [otherCount] is the sum over the clipped levels
    only: the statistics' own [otherCount] is overwritten. *)
Lemma inferAggregate_nominal_clip (field : SQL.ExprNode) (n : NStats.t) (binCount : Z) :
  0 <= binCount < Z.of_nat (length (NStats.levels n)) ->
  n_levels n binCount = take (Z.to_nat binCount) (NStats.levels n)
  /\ n_numOtherLevels n binCount
     = Z.of_nat (length (NStats.levels n)) + NStats.numOtherLevels n - binCount
  /\ n_otherCount n binCount
     = foldr Z.add 0 (map Level.count (drop (Z.to_nat binCount) (NStats.levels n))).
Proof.
  intros [Hlo Hhi].
  unfold n_levels, n_numOtherLevels, n_otherCount, n_clipped.
  assert ((binCount <? Z.of_nat (length (NStats.levels n))) = true) as -> by lia.
  rewrite clippedCount_sum. unfold Js.slice_to, Js.slice_from.
  assert ((binCount <? 0) = false) as -> by lia.
  repeat split; lia.
Qed.


(** ["n/a"] is listed exactly when [hasNA] holds, and [hasNA] tests
    [min < 0] on a log scale. *)
Lemma inferAggregate_quantitative_na (field : SQL.ExprNode) (q : QStats.t) (b : Binning.t) :
  "n/a" ∈ default [] (ScaleConfig.specialValues
                        (AggregateInfo.scale (inferAggregate_quantitative field q b)))
  <-> 0 < QStats.countNonFinite q
      \/ (Binning.type (Binning.scale b) = Log /\ Js.ltb (QStats.min q) 0%float = true).
Proof.
  simpl. unfold hasNA, q_is_log.
  destruct (bool_decide_reflect (Binning.type (Binning.scale b) = Log)) as [E|E];
    destruct (Js.ltb (QStats.min q) 0) eqn:L; simpl;
    destruct (Z.ltb_spec 0 (QStats.countNonFinite q));
    rewrite ?list_elem_of_singleton, ?elem_of_nil; intuition (congruence || lia).
Qed.

(** C4.  A column whose least finite value is 0, with no non-finite
    value, binned on a log scale: the query sends the zero rows to the
    ["n/a"] bucket (the bin expression requires [x > 0]), a value less than
    or equal to zero exists, and yet the scale's special values are empty. *)
Theorem inferAggregate_log_zero_min_no_na (field : SQL.ExprNode) (constant : option float)
    (expr : SQL.ExprNode -> float -> SQL.ExprNode) (forward reverse : float -> float -> float)
    (binStart binSize : float) :
  let q := {| QStats.count := 3; QStats.min := 0; QStats.max := 100;
              QStats.mean := 37; QStats.median := 10; QStats.minPositive := 10;
              QStats.countNonFinite := 0 |}%float in
  let b := {| Binning.scale := Binning.mkScale Log constant expr forward reverse;
              Binning.binStart := binStart; Binning.binSize := binSize |} in
  let info := inferAggregate_quantitative field q b in
  Js.leb (QStats.min q) 0%float = true
  /\ ScaleConfig.specialValues (AggregateInfo.scale info) = Some []
  /\ AggregateInfo.select info
     = SQL.Cond (SQL.And [SQL.IsFinite (SQL.Cast field "DOUBLE");
                  SQL.Gt (SQL.Cast field "DOUBLE") (SQL.LiteralNum 0%float)])
            (q_binExpr field b) SQL.LiteralNull.
Proof. done. Qed.

End InferAggregateFacts.

(** ** The count plot *)

Section CountPlotFacts.
Context `{Locale} `{BinningPolicy}.

(** C6.  Shift-clicking the only selected value ["x"] leaves the empty
    array as the selection, and the clause then written for it, on a
    nominal field, carries the empty array as its value and the empty
    disjunction [SQL.or()] as its predicate: the predicate is not [null]. *)
Theorem shift_click_last_value_predicate {Source Client : Type} (field : SQL.ExprNode)
    (n : NStats.t) (binCount : Z) (source : Source) (clientSelection : Client) :
  let selection := CountPlot.toggleSelection (Some [AStr "x"]) (AStr "x") true in
  let clause :=
    CountPlot.selectionClause (inferAggregate_nominal field n binCount)
      source clientSelection selection in
  selection = Some []
  /\ Clause.value clause = Some []
  /\ Clause.predicate clause = Some (SQL.Or [])
  /\ Clause.predicate clause <> None.
Proof. done. Qed.

(** Without shift the same click clears the selection to [undefined],
    whose clause has the [null] predicate. *)
Lemma plain_click_selected_value_predicate {Source Client : Type}
    (info : AggregateInfo.t) (source : Source) (clientSelection : Client) :
  let selection := CountPlot.toggleSelection (Some [AStr "x"]) (AStr "x") false in
  selection = None
  /\ Clause.predicate (CountPlot.selectionClause info source clientSelection selection)
     = None.
Proof. done. Qed.

End CountPlotFacts.

(** ** [buildEncoding] *)

Section BuildEncodingFacts.
Context `{Locale} `{BinningPolicy}.







End BuildEncodingFacts.


(** ** The chart runtime *)

Section RuntimeFacts.
Import Runtime.

Lemma clause_None (sel : SelectionOutputs) : clause sel None = None.
Proof. done. Qed.

Lemma clause_Some_value (sel : SelectionOutputs) (value : option StateValue) r :
  clause sel value = Some r -> value <> None.
Proof. by destruct value. Qed.

Lemma owned_others_same (source : Source) (c : FilterClause) (f : list FilterClause) :
  Clause.source c = source ->
  owned source (base.filter (fun c0 => Clause.source c0 <> Clause.source c) f) = [].
Proof.
  intros Hc. unfold owned. apply filter_none.
  intros x [Hx _]%list_elem_of_filter. congruence.
Qed.

Lemma owned_others_other (source : Source) (c : FilterClause) (f : list FilterClause) :
  Clause.source c <> source ->
  owned source (base.filter (fun c0 => Clause.source c0 <> Clause.source c) f)
  = owned source f.
Proof.
  intros Hc. unfold owned. induction f as [|x f IH]; [done|].
  destruct (decide (Clause.source x = source)) as [Hx|Hx].
  - rewrite (filter_cons_True _ x f) by congruence.
    rewrite !(filter_cons_True _ x) by done. f_equal. exact IH.
  - rewrite (filter_cons_False (fun c0 => Clause.source c0 = source) x f) by done.
    destruct (decide (Clause.source x = Clause.source c)) as [Hxc|Hxc].
    + rewrite filter_cons_False by (intros ?; done). exact IH.
    + rewrite filter_cons_True by done. rewrite filter_cons_False by done. exact IH.
Qed.

Lemma owned_app (source : Source) (f g : list FilterClause) :
  owned source (f ++ g) = owned source f ++ owned source g.
Proof. apply filter_app. Qed.

Lemma owned_filter_update_same (source : Source) (c : FilterClause) (f : list FilterClause) :
  Clause.source c = source ->
  owned source (filter_update c f) = if Clause.predicate c is Some _ then [c] else [].
Proof.
  intros Hc. unfold filter_update.
  destruct (Clause.predicate c); [|by apply owned_others_same].
  rewrite owned_app, owned_others_same by done. unfold owned. by rewrite filter_cons_True.
Qed.

Lemma owned_filter_update_other (source : Source) (c : FilterClause) (f : list FilterClause) :
  Clause.source c <> source ->
  owned source (filter_update c f) = owned source f.
Proof.
  intros Hc. unfold filter_update.
  destruct (Clause.predicate c); [|by apply owned_others_other].
  rewrite owned_app, owned_others_other by done. unfold owned.
  rewrite filter_cons_False by done. by rewrite app_nil_r.
Qed.

Lemma owned_writes (source : Source) (written : list FilterClause) (f : list FilterClause) :
  Forall (fun c => Clause.source c = source) written ->
  owned source (writes written f)
  = match last written with
    | Some c => if Clause.predicate c is Some _ then [c] else []
    | None => owned source f
    end.
Proof.
  revert f. induction written as [|c written IH] using rev_ind; intros f Hall; [done|].
  apply Forall_app in Hall as [Hall Hc]. rewrite Forall_singleton in Hc.
  unfold writes. rewrite foldl_app. cbn [foldl]. rewrite last_snoc.
  by apply owned_filter_update_same.
Qed.

(** The subscriber's loop over the selections: what it writes. *)
Lemma foldl_syncSelection (source : Source) (cls : list Client) (st : option ChartState)
    (sels : list SelectionOutputs) :
  forall (current : option (SelectionId * option StateValue)) (f : list FilterClause)
         (events : list Event),
  exists (written : list FilterClause) (current' : option (SelectionId * option StateValue)),
    foldl (syncSelection source cls st) (current, f, events) sels
    = (current', writes written f, events ++ (FilterUpdate <$> written))
    /\ Forall (fun c => Clause.source c = source /\ Clause.clients c = cls
                        /\ (st = None -> clearing source c)) written
    /\ (written = [] -> current' = current)
    /\ (forall c, last written = Some c ->
          exists sid v, current' = Some (sid, v)
                        /\ (Clause.predicate c <> None -> v <> None /\ st <> None))
    /\ (st = None -> (written = [] <-> settled current sels))
    /\ (sels = [] -> written = []).
Proof.
  induction sels as [|sel sels IH]; intros current f events.
  { exists [], current. simpl. rewrite app_nil_r. repeat split; try done.
    intros _ sel []%elem_of_nil. }
  cbn [foldl]. unfold syncSelection at 2.
  set (value := st ≫= (fun state => state !! key sel)).
  unfold deepEquals. destruct (bool_decide_reflect (current = Some (ident sel, value))) as [Hskip|Hwrite].
  - destruct (IH current f events)
      as (written & current' & E & Hall & Hnil & Hlast & Hquiet & _).
    exists written, current'. split; [exact E|]. split; [done|]. split; [done|].
    split; [done|]. split; [|done]. intros Hst. rewrite (Hquiet Hst). unfold settled. split.
    + intros Hs sel' [->|Hin]%elem_of_cons; [|by apply Hs].
      rewrite Hskip. unfold value. by rewrite Hst.
    + intros Hs sel' Hin. apply Hs. by right.
  - set (c := match clause sel value with
              | Some (v, predicate) => Clause.mk source cls (Some v) (Some predicate)
              | None => Clause.mk source cls None None
              end).
    destruct (IH (Some (ident sel, value)) (filter_update c f) (events ++ [FilterUpdate c]))
      as (written & current' & E & Hall & Hnil & Hlast & Hquiet & _).
    exists (c :: written), current'. split.
    { rewrite E. by rewrite <- (assoc_L (++)). }
    assert (Hc : Clause.source c = source /\ Clause.clients c = cls
                 /\ (st = None -> clearing source c)).
    { unfold c. destruct (clause sel value) as [[v p]|] eqn:Ecl; simpl.
      - split; [done|]. split; [done|]. intros Hst. unfold value in Ecl. by rewrite Hst in Ecl.
      - repeat split; done. }
    split; [by constructor|]. split; [done|]. split.
    + intros c'. destruct written as [|c0 written'].
      * simpl. intros [= <-]. rewrite (Hnil eq_refl). exists (ident sel), value.
        split; [done|]. unfold c. destruct (clause sel value) as [[v p]|] eqn:Ecl; simpl; [|done].
        intros _. pose proof (clause_Some_value _ _ _ Ecl) as Hv. split; [done|].
        intros Hst. apply Hv. unfold value. by rewrite Hst.
      * intros Hl. apply Hlast. exact Hl.
    + split; [|done]. intros Hst. split; [done|]. intros Hs. exfalso. apply Hwrite.
      rewrite (Hs sel) by by left. unfold value. by rewrite Hst.
Qed.

(** One round of notifications: every subscriber runs once. *)
Lemma foldl_syncFilter (source : Source) (sels : option (list SelectionOutputs))
    (st : option ChartState) (subs : list Subscription) :
  forall (done : list Subscription) (f : list FilterClause) (events : list Event),
  exists (written : list FilterClause) (subs' : list Subscription),
    foldl (syncFilter source sels st) (done, f, events) subs
    = (done ++ subs', writes written f, events ++ (FilterUpdate <$> written))
    /\ round source sels st subs written subs'.
Proof.
  unfold round. induction subs as [|q subs IH]; intros done f events.
  { exists [], []. simpl. rewrite !app_nil_r. repeat split; try done.
    intros _ _ q []%elem_of_nil. }
  cbn [foldl]. unfold syncFilter at 2.
  destruct (foldl_syncSelection source (clients q) st (default [] sels)
              (currentClause q) f events)
    as (wq & cur' & E & Hall & Hnil & Hlast & Hquiet & Hempty).
  rewrite E.
  set (q' := mkSubscription (build q) (layers q) cur').
  destruct (IH (done ++ [q']) (writes wq f) (events ++ (FilterUpdate <$> wq)))
    as (wr & subs' & E' & Hcap & Hall' & Hnil' & Hlast' & Hquiet' & Hempty').
  exists (wq ++ wr), (q' :: subs'). split.
  { rewrite E'. unfold writes. rewrite foldl_app, fmap_app.
    by rewrite <- !(assoc_L (++)). }
  split; [by rewrite !fmap_cons, Hcap|]. split.
  { apply Forall_app. split.
    - eapply Forall_impl; [exact Hall|]. intros c (? & ? & ?). split; [done|].
      split; [|done]. exists q. split; [by left|done].
    - eapply Forall_impl; [exact Hall'|]. intros c (? & (q0 & ? & ?) & ?). split; [done|].
      split; [|done]. exists q0. split; [by right|done]. }
  split.
  { intros [-> ->]%app_eq_nil. rewrite (Hnil' eq_refl). f_equal.
    unfold q'. rewrite (Hnil eq_refl). by destruct q. }
  split.
  { intros c Hl Hp. rewrite last_app in Hl. destruct (last wr) as [c'|] eqn:Ewr.
    - injection Hl as ->. destruct (Hlast' c eq_refl Hp) as (Hst & q0 & Hq0 & ?).
      split; [done|]. exists q0. split; [by right|done].
    - destruct (Hlast c Hl) as (sid & v & Hcur & Hv). destruct (Hv Hp) as [Hvn Hst].
      split; [done|]. exists q'. split; [by left|].
      split.
      + apply (proj1 (Forall_forall _ _) Hall).
        apply last_Some in Hl as (l' & ->). apply elem_of_app. right. by left.
      + by exists sid, v. }
  split.
  { intros Hst [-> ->]%app_eq_nil q0 [->|Hq0]%elem_of_cons.
    - by apply (Hquiet Hst).
    - by apply (Hquiet' Hst eq_refl). }
  intros Hs. by rewrite (Hempty Hs), (Hempty' Hs).
Qed.

Lemma notify_spec (w : t) :
  exists (written : list FilterClause) (subs' : list Subscription),
    notify w
    = mk (source w) (table w) (spec w) (cleanupFn w) (state w) (selections w) (outputs w)
         subs' (pending w) (writes written (filter w)) (destroyed w)
         (log w ++ (FilterUpdate <$> written)) (next w)
    /\ round (source w) (selections w) (state w) (subscriptions w) written subs'.
Proof.
  unfold notify.
  destruct (foldl_syncFilter (source w) (selections w) (state w) (subscriptions w)
              [] (filter w) []) as (written & subs' & E & Hround).
  rewrite E. by exists written, subs'.
Qed.

Lemma builds_captured (subs subs' : list Subscription) :
  captured <$> subs' = captured <$> subs -> builds subs' = builds subs.
Proof.
  intros E. unfold builds.
  change build with (fst ∘ captured). by rewrite !list_fmap_compose, E.
Qed.

Lemma clients_build (q : Subscription) (x : Client) : x ∈ clients q -> x.1 = build q.
Proof.
  unfold clients, clients_of. intros (i & -> & _)%list_elem_of_fmap. done.
Qed.

Lemma references_writes (source : Source) (written : list FilterClause)
    (f : list FilterClause) (b : nat) :
  Forall (fun c => Clause.source c = source) written ->
  references source (writes written f) b ->
  match last written with
  | Some c => Clause.predicate c <> None /\ exists x, x ∈ Clause.clients c /\ x.1 = b
  | None => references source f b
  end.
Proof.
  intros Hall (c & x & Hc & Hx & Hb). rewrite owned_writes in Hc by done.
  destruct (last written) as [c'|]; [|by exists c, x].
  destruct (Clause.predicate c'); [|by apply elem_of_nil in Hc].
  apply list_elem_of_singleton in Hc as ->. split; [done|]. by exists x.
Qed.

Lemma round_sources source sels st subs written subs' :
  round source sels st subs written subs' ->
  Forall (fun c => Clause.source c = source) written.
Proof.
  intros (_ & Hall & _). eapply Forall_impl; [exact Hall|]. by intros c (? & _).
Qed.

(** A round of notifications keeps the clients and the filter in agreement. *)
Lemma sound_round (w w' : t) written :
  sound w ->
  source w' = source w -> (next w <= next w')%nat -> destroyed w' = destroyed w ->
  round (source w) (selections w') (state w') (subscriptions w) written (subscriptions w') ->
  filter w' = writes written (filter w) ->
  sound w'.
Proof.
  intros (Hlt & Hnd & Hdes & Href) Es En Ed Hround Ef.
  pose proof (round_sources _ _ _ _ _ _ Hround) as Hsrc.
  destruct Hround as (Hcap & Hall & _).
  apply builds_captured in Hcap. unfold sound. rewrite Hcap, Es, Ed, Ef.
  split; [|split; [done|split]].
  - eapply Forall_impl; [exact Hlt|]. intros b Hb. simpl in Hb. lia.
  - intros x Hx. destruct (Hdes x Hx) as [Hx1 Hx2]. split; [lia|done].
  - intros b Hb. apply references_writes in Hb; [|done].
    destruct (last written) as [c|] eqn:El; [|by apply Href].
    destruct Hb as (_ & x & Hx & <-).
    apply last_Some in El as (l' & ->). apply Forall_app in Hall as [_ Hc].
    rewrite Forall_singleton in Hc. destruct Hc as (_ & (q & Hq & Hcl) & _).
    rewrite Hcl in Hx. rewrite (clients_build _ _ Hx).
    unfold builds. apply list_elem_of_fmap. by exists q.
Qed.

Lemma builds_unique (subs : list Subscription) (q q' : Subscription) :
  NoDup (builds subs) -> q ∈ subs -> q' ∈ subs -> build q = build q' -> q = q'.
Proof.
  unfold builds. induction subs as [|a subs IH]; [by intros _ ?%elem_of_nil|].
  rewrite fmap_cons. intros [Ha Hnd]%NoDup_cons [->|Hq]%elem_of_cons [->|Hq']%elem_of_cons E.
  - done.
  - exfalso. apply Ha. rewrite E. apply list_elem_of_fmap. by exists q'.
  - exfalso. apply Ha. rewrite <- E. apply list_elem_of_fmap. by exists q.
  - by apply IH.
Qed.

Lemma settled_active (sid : SelectionId) (v : option StateValue)
    (sels : list SelectionOutputs) :
  v <> None -> settled (Some (sid, v)) sels -> sels = [].
Proof.
  intros Hv Hs. destruct sels as [|sel sels]; [done|].
  exfalso. apply Hv. specialize (Hs sel (list_elem_of_here _ _)). congruence.
Qed.

(** The state store changes and its subscribers run: the runtime stays
    consistent. *)
Lemma consistent_round_state (w w' : t) written :
  consistent w ->
  source w' = source w -> next w' = next w -> destroyed w' = destroyed w ->
  cleanupFn w' = cleanupFn w -> selections w' = selections w ->
  round (source w) (selections w) (state w') (subscriptions w) written (subscriptions w') ->
  filter w' = writes written (filter w) ->
  consistent w'.
Proof.
  intros [Hsound Harmed] Es En Ed Ec Esel Hround Ef.
  assert (Hsound' : sound w').
  { apply (sound_round w w' written); try done; [lia|by rewrite Esel]. }
  split; [done|].
  pose proof (round_sources _ _ _ _ _ _ Hround) as Hsrc.
  destruct Hround as (Hcap & Hall & Hnil & Hlast & Hquiet & Hempty).
  intros b ls Hfn. rewrite Ec in Hfn. destruct (Harmed b ls Hfn) as [Hin Hclear].
  split; [by rewrite Hcap|].
  intros q' Hq' Hb Hpre. rewrite Es, Ef, Esel in *. intros Href.
  apply references_writes in Href; [|done].
  destruct (last written) as [c|] eqn:El.
  - destruct Href as (Hp & x & Hx & Hxb).
    destruct (Hlast c eq_refl Hp) as (Hst & q0 & Hq0 & Hcl & sid & v & Hcur & Hv).
    rewrite Hcl in Hx. apply clients_build in Hx.
    assert (q0 = q') as ->.
    { apply (builds_unique (subscriptions w')); try done; [apply Hsound'|congruence]. }
    destruct Hpre as [Hpre|Hpre]; [done|].
    rewrite Hcur in Hpre. apply settled_active in Hpre; [|done].
    specialize (Hempty Hpre). by rewrite Hempty in El.
  - apply last_None in El. subst written. rewrite (Hnil eq_refl) in Hq'.
    apply (Hclear q' Hq' Hb); [|done].
    destruct Hpre as [Hpre|Hpre]; [|by right].
    right. by apply (Hquiet Hpre eq_refl).
Qed.

Lemma consistent_log (w : t) (events : list Event) :
  consistent w ->
  consistent (mk (source w) (table w) (spec w) (cleanupFn w) (state w) (selections w)
                 (outputs w) (subscriptions w) (pending w) (filter w) (destroyed w)
                 events (next w)).
Proof. done. Qed.

Lemma state_set_cases (value : option ChartState) (w : t) :
  (state w = None /\ value = None /\ state_set value w = w)
  \/ exists (written : list FilterClause) (subs' : list Subscription),
       state_set value w
       = mk (source w) (table w) (spec w) (cleanupFn w) value (selections w) (outputs w)
            subs' (pending w) (writes written (filter w)) (destroyed w)
            (log w ++ (FilterUpdate <$> written)) (next w)
       /\ round (source w) (selections w) value (subscriptions w) written subs'.
Proof.
  unfold state_set.
  destruct (state w) as [st|] eqn:Est, value as [v|];
    try (right;
         match goal with |- context [notify ?w1] =>
           destruct (notify_spec w1) as (written & subs' & E & Hround) end;
         by exists written, subs').
  by left.
Qed.

Lemma consistent_state_set (value : option ChartState) (w : t) :
  consistent w -> consistent (state_set value w).
Proof.
  intros Hw. destruct (state_set_cases value w) as [(_ & _ & ->)|(written & subs' & -> & Hround)];
    [done|].
  by apply (consistent_round_state w _ written).
Qed.

Lemma selections_set_cases (from : option nat) (value : option (list SelectionOutputs))
    (w : t) :
  (selections w = None /\ value = None /\ selections_set from value w = w)
  \/ exists (written : list FilterClause) (subs' : list Subscription),
       selections_set from value w
       = mk (source w) (table w) (spec w) (cleanupFn w) (state w) value (outputs w)
            subs' (pending w) (writes written (filter w)) (destroyed w)
            ((log w ++ [SelectionsSet from]) ++ (FilterUpdate <$> written)) (next w)
       /\ round (source w) value (state w) (subscriptions w) written subs'.
Proof.
  unfold selections_set.
  destruct (selections w) as [sels|] eqn:Est, value as [v|];
    try (right;
         match goal with |- context [notify ?w1] =>
           destruct (notify_spec w1) as (written & subs' & E & Hround) end;
         by exists written, subs').
  by left.
Qed.

Lemma sound_selections_set (from : option nat) (value : option (list SelectionOutputs))
    (w : t) :
  sound w -> sound (selections_set from value w).
Proof.
  intros Hw.
  destruct (selections_set_cases from value w)
    as [(_ & _ & ->)|(written & subs' & -> & Hround)]; [done|].
  by apply (sound_round w _ written).
Qed.

Lemma selections_set_cleanupFn from value (w : t) :
  cleanupFn (selections_set from value w) = cleanupFn w.
Proof.
  destruct (selections_set_cases from value w)
    as [(_ & _ & ->)|(written & subs' & -> & Hround)]; done.
Qed.

Lemma outputs_set_consistent (value : option nat) (w : t) :
  consistent w -> consistent (outputs_set value w).
Proof. unfold outputs_set. by destruct (outputs w), value. Qed.

Lemma builds_filter (subs : list Subscription) (b b' : nat) :
  b' ∈ builds subs -> b' <> b ->
  b' ∈ builds (base.filter (fun sub => build sub <> b) subs).
Proof.
  unfold builds. intros (q & -> & Hq)%list_elem_of_fmap Hne.
  apply list_elem_of_fmap. exists q. split; [done|]. by apply list_elem_of_filter.
Qed.

Lemma builds_filter_sub (subs : list Subscription) (b b' : nat) :
  b' ∈ builds (base.filter (fun sub => build sub <> b) subs) ->
  b' ∈ builds subs /\ b' <> b.
Proof.
  unfold builds. intros (q & -> & [Hne Hq]%list_elem_of_filter)%list_elem_of_fmap.
  split; [|done]. apply list_elem_of_fmap. by exists q.
Qed.

Lemma armed_subscribed (w : t) b ls :
  armed w -> cleanupFn w = Some (b, ls) ->
  exists q, q ∈ subscriptions w /\ build q = b /\ layers q = ls.
Proof.
  intros Harmed Hfn. destruct (Harmed b ls Hfn) as [Hin _].
  apply list_elem_of_fmap in Hin as (q & [= -> ->] & Hq). by exists q.
Qed.

(** The closure [cleanupFn] leaves no clause naming the clients it destroys. *)
Lemma sound_run_cleanupFn (w : t) b ls :
  consistent w -> cleanupFn w = Some (b, ls) -> sound (run_cleanupFn b ls w).
Proof.
  intros Hw Hfn. unfold run_cleanupFn.
  match goal with |- context [state_set None ?w0] => set (w1 := w0) end.
  assert (Hw2 : consistent (state_set None w1)) by by apply consistent_state_set.
  assert (Hst : state (state_set None w1) = None).
  { destruct (state_set_cases None w1) as [(? & _ & ->)|(written & subs' & -> & _)]; done. }
  assert (Hfn2 : cleanupFn (state_set None w1) = Some (b, ls)).
  { destruct (state_set_cases None w1) as [(? & _ & ->)|(written & subs' & -> & _)]; done. }
  revert Hw2 Hst Hfn2. generalize (state_set None w1). clear w w1 Hw Hfn.
  intros w [(Hlt & Hnd & Hdes & Href) Harmed] Hst Hfn.
  destruct (armed_subscribed w b ls Harmed Hfn) as (q & Hq & Hb & Hls).
  destruct (Harmed b ls Hfn) as [_ Hclear].
  specialize (Hclear q Hq Hb (or_introl Hst)).
  assert (Hbin : b ∈ builds (subscriptions w)).
  { unfold builds. apply list_elem_of_fmap. by exists q. }
  unfold sound. cbn [next subscriptions destroyed source filter].
  split; [|split; [|split; [intros x Hx; split; revert Hx|]]].
  - apply Forall_forall. intros b' [Hb' _]%builds_filter_sub.
    by apply (proj1 (Forall_forall _ _) Hlt).
  - unfold builds. apply NoDup_fmap_2_strong.
    + intros x y [_ Hx]%list_elem_of_filter [_ Hy]%list_elem_of_filter.
      by apply (builds_unique (subscriptions w)).
    + apply NoDup_filter. by apply NoDup_fmap_1 in Hnd.
  - intros [Hx|Hx]%elem_of_app; [by apply Hdes|].
    apply list_elem_of_fmap in Hx as (i & -> & _). simpl.
    by apply (proj1 (Forall_forall _ _) Hlt).
  - intros [Hx|Hx]%elem_of_app.
    + intros [Hin _]%builds_filter_sub. by apply (Hdes x Hx).
    + apply list_elem_of_fmap in Hx as (i & -> & _). simpl.
      by intros [_ Hne]%builds_filter_sub.
  - intros b' Hb'. apply builds_filter; [by apply Href|]. by intros ->.
Qed.

Lemma consistent_cleanup (w : t) : consistent w -> consistent (cleanup w).
Proof.
  intros Hw. unfold cleanup. destruct (cleanupFn w) as [[b ls]|] eqn:Hfn.
  - split; [|by intros ? ? [=]]. by apply (sound_run_cleanupFn w b ls).
  - split; [apply Hw|by intros ? ? [=]].
Qed.

Lemma consistent_setSpec (s : SpecObject) (w : t) :
  consistent w -> consistent (setSpec s w).
Proof.
  intros Hw. unfold setSpec. destruct (deepEquals _ _); [done|].
  by apply consistent_cleanup in Hw.
Qed.

Lemma cleanup_cleanupFn (w : t) : cleanupFn (cleanup w) = None.
Proof. done. Qed.

Lemma consistent_destroy (w : t) : consistent w -> consistent (destroy w).
Proof.
  intros Hw. unfold destroy.
  assert (H1 : consistent (state_set None (outputs_set None (cleanup w)))).
  { by apply consistent_state_set, outputs_set_consistent, consistent_cleanup. }
  assert (Hfn : cleanupFn (state_set None (outputs_set None (cleanup w))) = None).
  { destruct (state_set_cases None (outputs_set None (cleanup w)))
      as [(? & _ & ->)|(written & subs' & -> & _)];
      unfold outputs_set; by destruct (outputs (cleanup w)). }
  split; [apply sound_selections_set, H1|].
  intros b ls. by rewrite selections_set_cleanupFn, Hfn.
Qed.

Section RuntimeRun.
Context `{Locale} `{BinningPolicy}.

Lemma consistent_resume (k : nat) (stats : FromExpr -> SQLField -> option FieldStats.t)
    (w : t) :
  consistent w -> consistent (resume k stats w).
Proof.
  intros Hw. unfold resume. destruct (pending w !! k) as [s|]; [|done].
  cbv zeta. cbn [spec table source next]. destruct (negb _); [done|].
  set (ctx := BuildContext.mk _ _ _). set (n := next w).
  set (created := _ <$> clientLayers ctx).
  match goal with |- context [outputs_set (Some (ref s)) ?w2] =>
    assert (Hw3 :
      exists events, outputs_set (Some (ref s)) w2
      = mk (source w) (table w) (spec w) (cleanupFn w) (state w) (selections w)
           (Some (ref s)) (subscriptions w) (delete k (pending w)) (filter w) (destroyed w)
           events (S n));
    [unfold outputs_set; destruct (outputs w2); by eexists|] end.
  destruct Hw3 as (events3 & ->).
  set (sels := selectionOutputs n (content s) (chartScaleHints ctx)).
  match goal with |- context [selections_set ?from ?v ?w3] =>
    destruct (selections_set_cases from v w3)
      as [(_ & [=] & _)|(written4 & subs4 & -> & Hround4)] end.
  cbn [source selections state subscriptions filter log next table spec outputs pending
       destroyed] in *.
  set (qnew := mkSubscription n (clientLayers ctx) None).
  destruct (foldl_syncFilter (source w) (Some sels) (state w) [qnew] subs4
              (writes written4 (filter w)) [])
    as (written5 & subs5 & E & Hround5).
  cbn [foldl] in E. rewrite E. clear E.
  destruct Hw as [Hsound Harmed].
  set (w4 := mk (source w) (table w) (spec w) (cleanupFn w) (state w) (Some sels)
                (Some (ref s)) subs4 (delete k (pending w)) (writes written4 (filter w))
                (destroyed w) [] (S n)).
  assert (Hsound4 : sound w4).
  { apply (sound_round w w4 written4); try done. simpl. lia. }
  pose proof Hsound as (Hlt & Hnd & Hdes & _).
  assert (Hb4 : builds subs4 = builds (subscriptions w)).
  { apply builds_captured, Hround4. }
  assert (Hq5 : exists cur, subs5 = [mkSubscription n (clientLayers ctx) cur]).
  { destruct Hround5 as (Hcap & _). destruct subs5 as [|[b ls cur] [|]]; try done.
    injection Hcap as -> ->. by exists cur. }
  destruct Hq5 as (cur & ->).
  assert (Hfresh : n ∉ builds subs4).
  { rewrite Hb4. intros Hn. apply (proj1 (Forall_forall _ _) Hlt) in Hn. unfold n in Hn. lia. }
  pose proof (round_sources _ _ _ _ _ _ Hround5) as Hsrc5.
  destruct Hround5 as (_ & Hall5 & _ & Hlast5 & _ & Hempty5).
  assert (Href5 : forall b, references (source w) (writes written5 (writes written4 (filter w))) b ->
            match last written5 with
            | Some c => Clause.predicate c <> None /\ b = n
            | None => b ∈ builds subs4
            end).
  { intros b Hb. apply references_writes in Hb; [|done].
    destruct (last written5) as [c|] eqn:El.
    - destruct Hb as (Hp & x & Hx & <-). split; [done|].
      apply last_Some in El as (l' & ->). apply Forall_app in Hall5 as [_ Hc].
      rewrite Forall_singleton in Hc. destruct Hc as (_ & (q & Hq & Hcl) & _).
      apply list_elem_of_singleton in Hq as ->. rewrite Hcl in Hx.
      by apply clients_build in Hx.
    - destruct Hsound4 as (_ & _ & _ & Href4). by apply Href4. }
  split.
  - unfold sound. cbn [next subscriptions destroyed source filter].
    unfold builds. rewrite fmap_app. fold (builds subs4). simpl.
    split; [|split; [|split]].
    + apply Forall_app. split; [|by apply Forall_singleton; lia].
      rewrite Hb4. eapply Forall_impl; [exact Hlt|]. intros b Hb. simpl in Hb. fold n in Hb. lia.
    + apply NoDup_app. split; [by rewrite Hb4|]. split; [|apply NoDup_singleton].
      intros b Hb ->%list_elem_of_singleton. done.
    + intros x Hx. destruct (Hdes x Hx) as [Hx1 Hx2]. fold n in Hx1. split; [lia|].
      rewrite Hb4. intros [Hin|Hin%list_elem_of_singleton]%elem_of_app; [done|lia].
    + intros b Hb. apply Href5 in Hb. apply elem_of_app.
      destruct (last written5); [right|by left].
      destruct Hb as [_ ->]. by apply list_elem_of_singleton.
  - intros b ls [= <- <-]. cbn [next subscriptions destroyed source filter state selections].
    split.
    { rewrite fmap_app. apply elem_of_app. right. by apply list_elem_of_singleton. }
    intros q Hq Hb Hpre Href. apply Href5 in Href.
    apply elem_of_app in Hq as [Hq|Hq].
    { apply Hfresh. rewrite <- Hb. unfold builds. apply list_elem_of_fmap. by exists q. }
    apply list_elem_of_singleton in Hq as ->.
    destruct (last written5) as [c|] eqn:El; [|done].
    destruct Href as [Hp _].
    destruct (Hlast5 c eq_refl Hp) as (Hst & q0 & Hq0 & _ & sid & v & Hcur & Hv).
    apply list_elem_of_singleton in Hq0 as ->. simpl in Hcur. subst cur.
    destruct Hpre as [Hpre|Hpre]; [done|].
    simpl in Hpre. apply settled_active in Hpre; [|done].
    specialize (Hempty5 Hpre). by rewrite Hempty5 in El.
Qed.

Lemma consistent_step (w : t) (a : Action) : consistent w -> consistent (step w a).
Proof.
  intros Hw. destruct a as [s|k stats|value| |c]; simpl.
  - by apply consistent_setSpec.
  - by apply consistent_resume.
  - by apply consistent_state_set.
  - by apply consistent_destroy.
  - destruct (bool_decide_reflect (Clause.source c = source w)) as [|Hne]; [done|].
    destruct Hw as [(Hlt & Hnd & Hdes & Href) Harmed].
    unfold consistent, sound, armed, references.
    cbn [next subscriptions destroyed source filter state selections cleanupFn].
    by rewrite owned_filter_update_other.
Qed.

Lemma consistent_run (actions : list Action) (w : t) :
  consistent w -> consistent (run w actions).
Proof.
  revert w. induction actions as [|a actions IH]; intros w Hw; [done|].
  apply IH. by apply consistent_step.
Qed.

Lemma consistent_create (src : Source) (tbl : string) (f : list FilterClause) :
  owned src f = [] -> consistent (create src tbl f).
Proof.
  intros Hf. split; [|by intros ? ? [=]].
  unfold sound, references. simpl. rewrite Hf.
  split; [constructor|]. split; [constructor|]. split.
  - by intros x ?%elem_of_nil.
  - by intros b (c & x & ?%elem_of_nil & _).
Qed.

Lemma source_notify (w : t) : source (notify w) = source w.
Proof. by destruct (notify_spec w) as (written & subs' & -> & _). Qed.

Lemma source_state_set value (w : t) : source (state_set value w) = source w.
Proof.
  by destruct (state_set_cases value w) as [(_ & _ & ->)|(written & subs' & -> & _)].
Qed.

Lemma source_selections_set from value (w : t) :
  source (selections_set from value w) = source w.
Proof.
  by destruct (selections_set_cases from value w)
    as [(_ & _ & ->)|(written & subs' & -> & _)].
Qed.

Lemma source_outputs_set value (w : t) : source (outputs_set value w) = source w.
Proof. unfold outputs_set. by destruct (outputs w), value. Qed.

Lemma source_cleanup (w : t) : source (cleanup w) = source w.
Proof.
  unfold cleanup. destruct (cleanupFn w) as [[b ls]|]; [|done].
  unfold run_cleanupFn. cbn [source]. by rewrite source_state_set.
Qed.

Lemma source_step (w : t) (a : Action) : source (step w a) = source w.
Proof.
  destruct a as [s|k stats|value| |c]; simpl.
  - unfold setSpec. destruct (deepEquals _ _); [done|]. cbn [source]. apply source_cleanup.
  - unfold resume. destruct (pending w !! k) as [s|]; [|done].
    cbv zeta. cbn [spec table source next]. destruct (negb _); [done|].
    match goal with |- context [syncFilter ?a ?b ?c ?d ?q] =>
      destruct (syncFilter a b c d q) as [[subs f] events] end.
    cbn [source]. by rewrite source_selections_set, source_outputs_set.
  - apply source_state_set.
  - unfold destroy.
    by rewrite source_selections_set, source_state_set, source_outputs_set, source_cleanup.
  - by destruct (bool_decide _).
Qed.

Lemma source_run (actions : list Action) (w : t) : source (run w actions) = source w.
Proof.
  revert w. induction actions as [|a actions IH]; intros w; [done|].
  unfold run. cbn [foldl]. fold (run (step w a) actions). by rewrite IH, source_step.
Qed.

Lemma consistent_unreferenced (w : t) : consistent w -> unreferenced w.
Proof.
  intros [(_ & _ & Hdes & Href) _] c x Hc Hx Hd.
  apply (Hdes x Hd). apply Href. by exists c, x.
Qed.

(** What [cleanup] appends to the log: the reset of the source, then the
    clauses its subscribers write, all clearing, then the clients. *)
Lemma cleanup_log (w : t) :
  consistent w ->
  exists updates : list FilterClause,
    log (cleanup w)
    = log w ++ match cleanupFn w with Some _ => [SourceReset] | None => [] end
        ++ (FilterUpdate <$> updates) ++ (ClientDestroy <$> cleanup_clients w)
    /\ destroyed (cleanup w) = destroyed w ++ cleanup_clients w
    /\ Forall (clearing (source w)) updates
    /\ ((exists c x, c ∈ owned (source w) (filter w) /\ x ∈ Clause.clients c
                     /\ x ∈ cleanup_clients w) -> updates <> []).
Proof.
  intros [Hsound Harmed]. unfold cleanup, cleanup_clients.
  destruct (cleanupFn w) as [[b ls]|] eqn:Hfn.
  2:{ exists []. simpl. rewrite !app_nil_r. repeat split; try done.
      by intros (c & x & _ & _ & ?%elem_of_nil). }
  destruct (armed_subscribed w b ls Harmed Hfn) as (q & Hq & Hb & Hls).
  destruct (Harmed b ls Hfn) as [_ Hclear]. specialize (Hclear q Hq Hb).
  assert (Href : (exists c x, c ∈ owned (source w) (filter w) /\ x ∈ Clause.clients c
                              /\ x ∈ clients_of b ls) -> references (source w) (filter w) b).
  { intros (c & x & Hc & Hx & Hin). exists c, x. split; [done|]. split; [done|].
    unfold clients_of in Hin. by apply list_elem_of_fmap in Hin as (i & -> & _). }
  unfold run_cleanupFn.
  match goal with |- context [state_set None ?w0] =>
    destruct (state_set_cases None w0) as [(Hst & _ & ->)|(written & subs' & -> & Hround)] end;
    cbn [log destroyed source selections state subscriptions] in *.
  - exists []. simpl. rewrite <- !(assoc_L (++)). repeat split; try done.
    intros Hex _. apply Hclear; [by left|by apply Href].
  - exists written. rewrite <- !(assoc_L (++)). repeat split; try done.
    + destruct Hround as (_ & Hall & _). eapply Forall_impl; [exact Hall|].
      intros c (_ & _ & Hc). by apply Hc.
    + intros Hex ->. destruct Hround as (_ & _ & _ & _ & Hquiet & _).
      apply Hclear; [|by apply Href]. right. by apply Hquiet.
Qed.

(** C1, amended: when the spec is replaced by [setSpec] or the runtime is
    destroyed, the cleanup they start with first resets the source, then
    lets the subscribers write, then destroys the clients of the current
    build. Every clause written is a clearing clause of this chart's source
    (value and predicate [null]); one is written whenever the filter holds
    a clause of this chart that names one of those clients; and after the
    cleanup, after [destroy] and after [setSpec] no clause of this chart
    in the shared filter names a destroyed client. *)
Theorem cleanup_clears_before_destroying (src : Source) (tbl : string)
    (f0 : list FilterClause) (actions : list Action) :
  owned src f0 = [] ->
  let w := run (create src tbl f0) actions in
  (exists updates : list FilterClause,
     log (cleanup w)
     = log w ++ match cleanupFn w with Some _ => [SourceReset] | None => [] end
         ++ (FilterUpdate <$> updates) ++ (ClientDestroy <$> cleanup_clients w)
     /\ destroyed (cleanup w) = destroyed w ++ cleanup_clients w
     /\ Forall (clearing src) updates
     /\ ((exists c x, c ∈ owned src (filter w) /\ x ∈ Clause.clients c
                      /\ x ∈ cleanup_clients w) -> updates <> []))
  /\ unreferenced (cleanup w)
  /\ unreferenced (destroy w)
  /\ (forall s, unreferenced (setSpec s w)).
Proof.
  intros Hf0 w.
  assert (Hw : consistent w) by by apply consistent_run, consistent_create.
  assert (Hsrc : source w = src) by apply source_run.
  split; [rewrite <- Hsrc; by apply cleanup_log|].
  split; [by apply consistent_unreferenced, consistent_cleanup|].
  split; [by apply consistent_unreferenced, consistent_destroy|].
  intros s. by apply consistent_unreferenced, consistent_setSpec.
Qed.

End RuntimeRun.

Lemma cleanup_clears_before_destroying_witness :
  owned 0%nat [] = []
  /\ ((exists updates : list FilterClause,
         log (cleanup (Sample.after Sample.brushed))
         = log (Sample.after Sample.brushed)
             ++ match cleanupFn (Sample.after Sample.brushed) with
                | Some _ => [SourceReset] | None => [] end
             ++ (FilterUpdate <$> updates)
             ++ (ClientDestroy <$> cleanup_clients (Sample.after Sample.brushed))
         /\ destroyed (cleanup (Sample.after Sample.brushed))
            = destroyed (Sample.after Sample.brushed)
                ++ cleanup_clients (Sample.after Sample.brushed)
         /\ Forall (clearing 0%nat) updates
         /\ ((exists c x, c ∈ owned 0%nat (filter (Sample.after Sample.brushed))
                          /\ x ∈ Clause.clients c
                          /\ x ∈ cleanup_clients (Sample.after Sample.brushed))
             -> updates <> []))
      /\ unreferenced (cleanup (Sample.after Sample.brushed))
      /\ unreferenced (destroy (Sample.after Sample.brushed))
      /\ (forall s, unreferenced (setSpec s (Sample.after Sample.brushed)))).
Proof.
  split; [reflexivity|].
  exact (@cleanup_clears_before_destroying Sample.en_US Sample.equalWidth 0%nat "t" []
           Sample.brushed eq_refl).
Defined.

(** A chart that is built and never brushed: its cleanup destroys the two
    clients and writes no clause at all. *)
Lemma cleanup_without_clearing_clause :
  cleanup_clients Sample.built = [(0, 0); (0, 1)]%nat
  /\ log (cleanup Sample.built)
     = log Sample.built ++ [SourceReset; ClientDestroy (0, 0)%nat; ClientDestroy (0, 1)%nat].
Proof. split; vm_compute; reflexivity. Qed.

(** A completion that finds another object in [this.spec] is dropped: it
    leaves the suspended calls and nothing else changes. *)
Lemma resume_discards_stale `{Locale} `{BinningPolicy} (k : nat)
    (stats : FromExpr -> SQLField -> option FieldStats.t) (s : SpecObject) (w : t) :
  pending w !! k = Some s ->
  ref <$> spec w <> Some (ref s) ->
  resume k stats w
  = mk (source w) (table w) (spec w) (cleanupFn w) (state w) (selections w) (outputs w)
       (subscriptions w) (delete k (pending w)) (filter w) (destroyed w) (log w) (next w).
Proof.
  intros Hk Hne. unfold resume. rewrite Hk. cbv zeta. cbn [spec].
  by rewrite bool_decide_eq_false_2.
Qed.

(** C2, on the calls [setSpec(A); setSpec(B); setSpec(A)] made with the
    same object [A] before any statistics arrive: the completion of the
    first, superseded call finds [A] in [this.spec] again and is applied.
    It creates clients, publishes outputs and selections and writes to
    the filter; the completion of the third call then builds the chart a
    second time and replaces [cleanupFn], so that [destroy] destroys the
    clients of the second build only and the subscriber of the first
    stays subscribed. *)
Theorem setSpec_superseded_completion_applied :
  ref <$> pending Sample.superseded = [1; 2; 1]%nat
  /\ (let w := Sample.completion Sample.superseded in
      outputs w = Some 1%nat
      /\ ident <$> default [] (selections w) = [(0, 0)%nat]
      /\ log w
         = log Sample.superseded
             ++ [ClientCreate (0, 0)%nat true; ClientCreate (0, 1)%nat false;
                 OutputsSet (Some 1%nat); SelectionsSet (Some 1%nat);
                 FilterUpdate (Clause.mk 0%nat [(0, 0); (0, 1)]%nat None None)])
  /\ (let w := Sample.completion (Sample.completion (Sample.completion Sample.superseded)) in
      pending w = []
      /\ captured <$> subscriptions w = [(0, [0; 1]); (1, [0; 1])]%nat
      /\ cleanupFn w = Some (1, [0; 1])%nat
      /\ captured <$> subscriptions (destroy w) = [(0, [0; 1])]%nat
      /\ destroyed (destroy w) = [(1, 0); (1, 1)]%nat).
Proof. repeat split; vm_compute; reflexivity. Qed.

End RuntimeFacts.

(** * Part III: further properties of the code *)

(** ** The count plot: [toggleSelection] *)

Section ToggleFacts.
Import CountPlot.

Lemma isSame_text (a b : AggregateValue) : isSame a b = true <-> text a = text b.
Proof. unfold isSame, text. by rewrite bool_decide_eq_true. Qed.

Lemma existsb_isSame (sel : list AggregateValue) (v : AggregateValue) :
  existsb (fun x => isSame x v) sel = true <-> text v ∈ text <$> sel.
Proof.
  rewrite existsb_exists, list_elem_of_fmap. split.
  - intros (x & Hx%list_elem_of_In & E%isSame_text). by exists x.
  - intros (x & E & Hx). exists x. split; [by apply list_elem_of_In|]. by apply isSame_text.
Qed.

Lemma filter_absent (sel : list AggregateValue) (v : AggregateValue) :
  text v ∉ text <$> sel ->
  base.filter (fun x => negb (isSame x v)) sel = sel.
Proof.
  induction sel as [|x sel IH]; [done|]. rewrite fmap_cons, not_elem_of_cons.
  intros [Hx Hsel]. rewrite filter_cons_True.
  - f_equal. by apply IH.
  - apply negb_prop_intro. intros E%Is_true_true%isSame_text. congruence.
Qed.

(** X1.  [toggleSelection], with values compared by their JSON text as
    [isSame] does.  A plain click clears a selection that holds the value
    and otherwise selects the value alone.  A shift-click always leaves an
    array: the selection without the value if it held it, with the value
    added if it did not.  Shift-clicking a value that is not selected,
    twice, restores the selection.  A selection without repeated values
    stays without them. *)
Theorem toggleSelection_laws (selection : Selection) (value : AggregateValue) :
  (* a plain click selects the value alone, or clears a selection that holds it *)
  (toggleSelection selection value false
   = if bool_decide (text value ∈ text <$> default [] selection) then None
     else Some [value])
  (* a shift-click removes a value that is selected and adds one that is not *)
  /\ (forall sel x,
        toggleSelection selection value true = Some sel ->
        text x ∈ text <$> sel
        <-> if bool_decide (text value ∈ text <$> default [] selection)
            then text x ∈ text <$> default [] selection /\ text x <> text value
            else text x ∈ text <$> default [] selection \/ text x = text value)
  /\ (exists sel, toggleSelection selection value true = Some sel)
  (* shift-clicking a value that is not selected, twice, restores the selection *)
  /\ (forall sel, selection = Some sel -> text value ∉ text <$> sel ->
        toggleSelection (toggleSelection selection value true) value true = selection)
  (* no value is ever selected twice *)
  /\ (forall shift sel,
        NoDup (text <$> default [] selection) ->
        toggleSelection selection value shift = Some sel ->
        NoDup (text <$> sel)).
Proof.
  assert (Hfilter : forall (sel : list AggregateValue) x,
            text x ∈ text <$> base.filter (fun y => negb (isSame y value)) sel
            <-> text x ∈ text <$> sel /\ text x <> text value).
  { intros sel x. rewrite !list_elem_of_fmap. split.
    - intros (y & E & [Hy Hin]%list_elem_of_filter). split; [by exists y|].
      rewrite E. intros E'%isSame_text. by rewrite E' in Hy.
    - intros [(y & E & Hin) Hne]. exists y. split; [done|]. apply list_elem_of_filter.
      split; [|done]. apply negb_prop_intro. intros E'%Is_true_true%isSame_text. congruence. }
  assert (Hshape : forall shift,
            toggleSelection selection value shift
            = if bool_decide (text value ∈ text <$> default [] selection)
              then if shift
                   then Some (base.filter (fun x => negb (isSame x value)) (default [] selection))
                   else None
              else if shift then Some (default [] selection ++ [value]) else Some [value]).
  { intros shift. unfold toggleSelection.
    destruct selection as [[|y sel]|]; cbn [default from_option fmap list_fmap].
    - rewrite bool_decide_eq_false_2 by apply not_elem_of_nil. by destruct shift.
    - change (text y :: (text <$> sel)) with (text <$> (y :: sel)).
      destruct (existsb (fun x => isSame x value) (y :: sel)) eqn:E.
      + apply existsb_isSame in E. by rewrite bool_decide_eq_true_2.
      + rewrite bool_decide_eq_false_2; [done|].
        intros Hin. apply existsb_isSame in Hin. unfold id in Hin. congruence.
    - rewrite bool_decide_eq_false_2 by apply not_elem_of_nil. by destruct shift. }
  split; [apply Hshape|]. split.
  { intros sel x. rewrite Hshape. case_bool_decide as Hin; intros [= <-].
    - apply Hfilter.
    - rewrite fmap_app, elem_of_app. simpl. rewrite list_elem_of_singleton. done. }
  split.
  { rewrite Hshape. case_bool_decide; by eexists. }
  split.
  { intros sel -> Hout. rewrite Hshape. cbn [default from_option]. unfold id. rewrite bool_decide_eq_false_2 by done.
    unfold toggleSelection. destruct sel as [|y sel]; simpl.
    - assert (isSame value value = true) as -> by by apply isSame_text. simpl.
      rewrite filter_cons_False, filter_nil; [done|].
      assert (isSame value value = true) as -> by by apply isSame_text. by intros [].
    - set (l := y :: sel) in *.
      assert (existsb (fun x => isSame x value) (l ++ [value]) = true) as E.
      { apply existsb_isSame. rewrite fmap_app, elem_of_app. right. by left. }
      change (isSame y value || existsb (fun x => isSame x value) (sel ++ [value]))
        with (existsb (fun x => isSame x value) (l ++ [value])).
      rewrite E. change (y :: sel ++ [value]) with (l ++ [value]).
      rewrite filter_app, filter_absent by done.
      rewrite filter_cons_False, filter_nil; [by rewrite app_nil_r|].
      assert (isSame value value = true) as -> by by apply isSame_text. by intros []. }
  intros shift sel Hnd. rewrite Hshape. case_bool_decide as Hin; destruct shift; intros [= <-].
  - eapply sublist_NoDup; [exact Hnd|]. apply fmap_sublist, sublist_filter.
  - rewrite fmap_app. apply NoDup_app. split; [done|]. split; [|apply NoDup_singleton].
    by intros x Hx ->%list_elem_of_singleton.
  - apply NoDup_singleton.
Qed.
End ToggleFacts.

(** ** [inferScale] on a nominal channel *)

Section ScaleFacts.

Lemma dedup_spec (xs seen : list string) :
  NoDup (Title.dedup seen xs)
  /\ forall x, x ∈ Title.dedup seen xs <-> x ∈ xs /\ x ∉ seen.
Proof.
  revert seen. induction xs as [|y xs IH]; intros seen; simpl.
  { split; [constructor|]. intros x. rewrite elem_of_nil. tauto. }
  case_bool_decide as Hy.
  - destruct (IH seen) as [Hnd Hin]. split; [done|]. intros x.
    rewrite Hin, elem_of_cons. split; [tauto|]. intros [[->|Hx] Hs]; tauto.
  - destruct (IH (y :: seen)) as [Hnd Hin]. split.
    + constructor; [|done]. rewrite Hin. rewrite elem_of_cons. tauto.
    + intros x. rewrite !elem_of_cons, Hin, elem_of_cons.
      destruct (decide (x = y)) as [->|Hne]; [tauto|]. tauto.
Qed.

Lemma strings_of_spec (vals : list DataValue) (s : string) :
  s ∈ strings_of vals <-> VStr s ∈ vals.
Proof.
  unfold strings_of, flat. rewrite list_elem_of_bind. split.
  - intros (v & Hs & Hv). apply list_elem_of_bind in Hv as (u & Hv & Hu).
    destruct u.
    5:{ apply list_elem_of_singleton in Hv as ->. by apply elem_of_nil in Hs. }
    4:{ apply list_elem_of_singleton in Hv as ->. by apply elem_of_nil in Hs. }
    3:{ apply elem_of_cons in Hv as [->|Hv%list_elem_of_singleton];
          [|subst v]; by apply elem_of_nil in Hs. }
    2:{ apply list_elem_of_singleton in Hv as ->. by apply elem_of_nil in Hs. }
    apply list_elem_of_singleton in Hv as ->. by apply list_elem_of_singleton in Hs as ->.
  - intros Hin. exists (VStr s). split; [by apply list_elem_of_singleton|].
    apply list_elem_of_bind. exists (VStr s). split; [by apply list_elem_of_singleton|done].
Qed.

(** X2.  On a nominal channel [inferScale] passes the hints' special
    values on, takes its type from the specification, else the hints,
    else [band], and returns an explicit domain of the specification
    unchanged.  Otherwise the domain lists, each once, exactly the strings
    of the hinted domain and of the layers' data that are not special
    values. *)
Theorem inferScale_nominal_domain (spec : Scale.t) (hints : ScaleHints.t)
    (data : list (list DataValue)) (channel : Channel) :
  ScaleHints.kind hints = Nominal ->
  let config := inferScale spec hints data channel in
  ScaleConfig.specialValues config = ScaleHints.specialValues hints
  /\ ScaleConfig.type config
     = default (default Band (ScaleHints.type hints)) (Scale.type spec)
  /\ match Scale.domain spec with
     | Some explicit => ScaleConfig.domain config = explicit
     | None =>
         exists strings : list string,
           ScaleConfig.domain config = VStr <$> strings
           /\ NoDup strings
           /\ forall s, s ∈ strings
                <-> (s ∉ default [] (ScaleHints.specialValues hints))
                    /\ exists vals, vals ∈ hint_domain hints :: data /\ VStr s ∈ vals
     end.
Proof.
  intros Hkind config. unfold config, inferScale. rewrite Hkind. cbn [ScaleConfig.specialValues ScaleConfig.type ScaleConfig.domain].
  split; [done|]. split; [done|].
  destruct (Scale.domain spec) as [explicit|]; [done|]. cbn [default from_option].
  eexists. split; [reflexivity|].
  match goal with |- context [Title.dedup [] ?parts] =>
    destruct (dedup_spec parts []) as [Hnd Hin] end.
  split; [by apply NoDup_filter|].
  intros s. rewrite list_elem_of_filter, Hin, list_elem_of_bind.
  split.
  - intros (Hs & (vals & Hv & Hvals) & _). split; [done|]. exists vals. split; [done|].
    apply strings_of_spec. by apply (dedup_spec (strings_of vals) []) in Hv as [Hv _].
  - intros (Hs & vals & Hvals & Hv). split; [done|]. split; [|apply not_elem_of_nil].
    exists vals. split; [|done]. apply (dedup_spec (strings_of vals) []).
    split; [by apply strings_of_spec|apply not_elem_of_nil].
Qed.

Lemma inferScale_nominal_domain_witness :
  ScaleHints.kind Sample.nominalHints = Nominal
  /\ (let config := inferScale Scale.empty Sample.nominalHints [[VStr "b"; VStr "a"; VNull]] ChColor in
      ScaleConfig.specialValues config = ScaleHints.specialValues Sample.nominalHints
      /\ ScaleConfig.type config
         = default (default Band (ScaleHints.type Sample.nominalHints)) (Scale.type Scale.empty)
      /\ exists strings : list string,
           ScaleConfig.domain config = VStr <$> strings
           /\ NoDup strings
           /\ forall s, s ∈ strings
                <-> (s ∉ default [] (ScaleHints.specialValues Sample.nominalHints))
                    /\ exists vals, vals ∈ hint_domain Sample.nominalHints :: [[VStr "b"; VStr "a"; VNull]]
                                    /\ VStr s ∈ vals).
Proof.
  split; [reflexivity|].
  exact (inferScale_nominal_domain Scale.empty Sample.nominalHints
           [[VStr "b"; VStr "a"; VNull]] ChColor eq_refl).
Defined.

End ScaleFacts.

(** ** [mergeScaleHints] and [finiteExtent] *)

Section MergeFacts.

(** X3.  [mergeScaleHints] is associative in every property but the
    title: merging three hints in either grouping gives the kind of the
    last, and the same type, domain, special values, [includeZero] and
    predicate; [includeZero] is [true] exactly when one of the three asks
    for it. *)
Theorem mergeScaleHints_assoc_fields (a b c : ScaleHints.t) :
  let l := mergeScaleHints (mergeScaleHints a b) c in
  let r := mergeScaleHints a (mergeScaleHints b c) in
  ScaleHints.kind l = ScaleHints.kind c
  /\ ScaleHints.kind r = ScaleHints.kind c
  /\ ScaleHints.type l = ScaleHints.type r
  /\ ScaleHints.domain l = ScaleHints.domain r
  /\ ScaleHints.specialValues l = ScaleHints.specialValues r
  /\ ScaleHints.includeZero l = ScaleHints.includeZero r
  /\ ScaleHints.predicate l = ScaleHints.predicate r
  /\ (ScaleHints.includeZero l = Some true
      <-> ScaleHints.includeZero a = Some true \/ ScaleHints.includeZero b = Some true
          \/ ScaleHints.includeZero c = Some true).
Proof.
  intros l r. unfold l, r, mergeScaleHints. simpl.
  split; [done|]. split; [done|].
  split; [by destruct (ScaleHints.type a)|].
  split; [by rewrite (assoc_L (++))|]. split; [by rewrite (assoc_L (++))|].
  split.
  { by destruct (ScaleHints.includeZero a) as [[]|], (ScaleHints.includeZero b) as [[]|],
      (ScaleHints.includeZero c) as [[]|]. }
  split; [by destruct (ScaleHints.predicate a)|].
  destruct (ScaleHints.includeZero a) as [[]|], (ScaleHints.includeZero b) as [[]|],
    (ScaleHints.includeZero c) as [[]|]; vm_compute; intuition congruence.
Qed.

(** X4.  [finiteExtent] looks at the finite numbers of its argument only:
    strings, [null], [undefined], [NaN] and the infinities are skipped.
    With no finite number it returns [[undefined, undefined]]; otherwise
    it returns the least and the greatest of them. *)
Theorem finiteExtent_spec (values : list DataValue) :
  let finite := omap finiteNumber values in
  (forall x, x ∈ finite <-> VNum x ∈ values /\ Js.isFinite x = true)
  /\ (finite = [] -> finiteExtent values = (None, None))
  /\ (finite <> [] ->
      exists lo hi, finiteExtent values = (Some lo, Some hi) /\ is_extent finite lo hi).
Proof.
  intros finite. split.
  { intros x. unfold finite. rewrite list_elem_of_omap. split.
    - intros (v & Hv & E). destruct v; try done. simpl in E.
      destruct (Js.isFinite x0) eqn:Ef; [|done]. by injection E as ->.
    - intros [Hv Ef]. exists (VNum x). split; [done|]. simpl. by rewrite Ef. }
  pose proof (finiteExtent_extent values) as Hext. fold finite in Hext.
  destruct (finiteExtent values) as [[lo|] [hi|]]; simpl in Hext; try done.
  split; [|intros _; by exists lo, hi].
  intros E. rewrite E in Hext. by destruct Hext as [?%elem_of_nil _].
Qed.

End MergeFacts.

(** ** [replaceVars] *)

Section ReplaceVarsFacts.
Import ReplaceVars.










End ReplaceVarsFacts.

(** ** [buildLayer]: the GROUP BY of a layer's query *)

Section GroupByFacts.
Context `{Locale} `{BinningPolicy}.

(** What an encoding contributes to GROUP BY. *)
Lemma buildEncoding_grouping (ctx : BuildContext.t) (from : FromExpr)
    (channel : option Channel) (encoding : Encoding) (fieldsInGroupBy : bool)
    (warnings : list string) (r : Resolved.t) :
  buildEncoding ctx from channel encoding fieldsInGroupBy = (warnings, Some r) ->
  default [] (Resolved.grouping r)
  = match encoding with
    | EncField _ bin =>
        if fieldsInGroupBy || bool_decide (is_Some bin)
        then option_list (Resolved.select r) else []
    | _ => []
    end.
Proof.
  destruct encoding as [field bin|aggregate field quantile normalize|value]; simpl.
  2:{ destruct aggregate as [name|sql]; [|by intros [= _ <-]].
      repeat (case_bool_decide; [by (intros [= _ <-]) || (destruct field; by intros [= _ <-])|]).
      destruct (numericalAggregates name); [|done].
      destruct field; by intros [= _ <-]. }
  - destruct (BuildContext.stats ctx from field) as [stats|]; [|done].
    destruct bin as [b|].
    + destruct (inferAggregate _ _ _); [|done]. intros [= _ <-]. simpl.
      by rewrite orb_true_r.
    + destruct fieldsInGroupBy; simpl.
      * case_bool_decide.
        -- destruct (inferAggregate _ _ _); [|done]. by intros [= _ <-].
        -- by intros [= _ <-].
      * by intros [= _ <-].
  - by intros [= _ <-].
Qed.

Lemma resolveEntries_groupBys (ctx : BuildContext.t) (from : FromExpr) (g : bool)
    (encodings : list (string * Encoding)) :
  forall acc : Logged LayerParts.t,
  LayerParts.groupBys (resolveEntries ctx from g encodings acc).2
  = LayerParts.groupBys acc.2
    ++ encodings ≫= (fun entry =>
         match (buildEncoding ctx from (channelForAttribute entry.1) entry.2 g).2 with
         | Some r => default [] (Resolved.grouping r)
         | None => []
         end).
Proof.
  unfold resolveEntries. induction encodings as [|[attribute encoding] encodings IH];
    intros acc; [by rewrite app_nil_r|].
  cbn [foldl]. rewrite IH. clear IH. csimpl. rewrite (assoc_L (++)). f_equal.
  unfold resolveEntry.
  destruct (buildEncoding ctx from (channelForAttribute attribute) encoding g)
    as [warnings [r|]]; simpl; [|by rewrite app_nil_r].
  destruct (Resolved.grouping r); simpl; [done|by rewrite app_nil_r].
Qed.

(** X6.  The GROUP BY list [buildLayer] collects.  A layer with no
    aggregate and no binned field groups by nothing.  Every expression in
    the list is the select expression of a field encoding of the layer
    that resolved; and when the layer has an aggregate or a binned field,
    the select expression of every field encoding that resolved is in the
    list, so that only aggregates stay outside GROUP BY. *)
Theorem buildLayer_groupBys (ctx : BuildContext.t) (layer : Layer.t) :
  let from :=
    BuildContext.fromExpr ctx
      (default (TableName (BuildContext.table ctx)) (Layer.from layer)) None in
  let grouped := hasAggregateOrBin (Layer.encoding layer) in
  let groupBys := LayerParts.groupBys (buildLayer_parts ctx layer).2 in
  let resolves attribute encoding r :=
    (attribute, encoding) ∈ Layer.encoding layer
    /\ (buildEncoding ctx from (channelForAttribute attribute) encoding grouped).2 = Some r in
  (grouped = false -> groupBys = [])
  /\ (forall e, e ∈ groupBys ->
        exists attribute field bin r,
          resolves attribute (EncField field bin) r /\ Resolved.select r = Some e)
  /\ (grouped = true ->
      forall attribute field bin r e,
        resolves attribute (EncField field bin) r -> Resolved.select r = Some e ->
        e ∈ groupBys).
Proof.
  intros from grouped groupBys resolves.
  assert (E : groupBys
              = Layer.encoding layer ≫= (fun entry =>
                  match (buildEncoding ctx from (channelForAttribute entry.1) entry.2
                           grouped).2 with
                  | Some r => default [] (Resolved.grouping r)
                  | None => []
                  end)).
  { unfold groupBys, buildLayer_parts. by rewrite resolveEntries_groupBys. }
  assert (Hin : forall e, e ∈ groupBys <->
            exists attribute encoding r,
              resolves attribute encoding r /\ e ∈ default [] (Resolved.grouping r)).
  { intros e. rewrite E, list_elem_of_bind. split.
    - intros ([attribute encoding] & He & Hentry). simpl in He.
      destruct (buildEncoding _ _ _ encoding _) as [w [r|]] eqn:Er;
        [|by apply elem_of_nil in He].
      exists attribute, encoding, r. split; [|done]. split; [done|]. by rewrite Er.
    - intros (attribute & encoding & r & [Hentry Er] & He).
      exists (attribute, encoding). split; [|done]. simpl. by rewrite Er. }
  assert (Hg : forall attribute encoding r,
            resolves attribute encoding r ->
            default [] (Resolved.grouping r)
            = match encoding with
              | EncField _ bin =>
                  if grouped || bool_decide (is_Some bin)
                  then option_list (Resolved.select r) else []
              | _ => []
              end).
  { intros attribute encoding r [_ Er].
    destruct (buildEncoding ctx from (channelForAttribute attribute) encoding grouped)
      as [w r'] eqn:Eb. simpl in Er. subst r'. by eapply buildEncoding_grouping. }
  split; [|split].
  - intros Hgrouped. apply elem_of_nil_inv. intros e He.
    apply Hin in He as (attribute & encoding & r & Hr & He).
    rewrite (Hg _ _ _ Hr) in He. destruct encoding as [field bin| |];
      try by apply elem_of_nil in He.
    rewrite Hgrouped in He. simpl in He. case_bool_decide as Hbin; [|by apply elem_of_nil in He].
    destruct Hr as [Hentry _].
    assert (grouped = true); [|congruence].
    unfold grouped, hasAggregateOrBin. apply existsb_exists.
    exists (attribute, EncField field bin). split; [by apply list_elem_of_In|].
    simpl. by apply bool_decide_eq_true.
  - intros e (attribute & encoding & r & Hr & He)%Hin.
    rewrite (Hg _ _ _ Hr) in He. destruct encoding as [field bin| |];
      try by apply elem_of_nil in He.
    exists attribute, field, bin, r. split; [done|].
    destruct (grouped || _); [|by apply elem_of_nil in He].
    destruct (Resolved.select r); [|by apply elem_of_nil in He].
    by apply list_elem_of_singleton in He as ->.
  - intros Hgrouped attribute field bin r e Hr He. apply Hin.
    exists attribute, (EncField field bin), r. split; [done|].
    rewrite (Hg _ _ _ Hr), Hgrouped, He. simpl. by left.
Qed.

End GroupByFacts.

(** ** [buildChart]: the chart's scale hints *)

Section ChartHintsFacts.
Context `{Locale} `{BinningPolicy}.

Lemma assoc_get_set {K V : Type} `{EqDecision K} (k k' : K) (v : V) (l : list (K * V)) :
  assoc_get k' (assoc_set k v l) = if decide (k' = k) then Some v else assoc_get k' l.
Proof.
  unfold assoc_get. induction l as [|[k0 v0] l IH]; simpl.
  - destruct (decide (k' = k)) as [->|Hne].
    + by rewrite bool_decide_eq_true_2.
    + by rewrite bool_decide_eq_false_2 by congruence.
  - destruct (decide (k = k0)) as [->|Hk]; simpl.
    + destruct (decide (k' = k0)) as [->|Hne].
      * by rewrite bool_decide_eq_true_2.
      * by rewrite !bool_decide_eq_false_2 by congruence.
    + destruct (decide (k0 = k')) as [->|Hne].
      * rewrite bool_decide_eq_true_2 by done. simpl.
        by rewrite decide_False by congruence.
      * rewrite bool_decide_eq_false_2 by done. exact IH.
Qed.

Lemma domainAt_mergeInto (channel : Channel) (acc : list (Channel * ScaleHints.t))
    (entry : Channel * ScaleHints.t) (v : DataValue) :
  v ∈ domainAt channel (mergeInto acc entry)
  <-> v ∈ domainAt channel acc \/ (entry.1 = channel /\ v ∈ hint_domain entry.2).
Proof.
  destruct entry as [c h]. unfold domainAt, mergeInto. simpl.
  destruct (assoc_get c acc) as [current|] eqn:Ec; rewrite assoc_get_set;
    destruct (decide (channel = c)) as [->|Hne]; simpl.
  - rewrite Ec. simpl. rewrite hint_domain_merge, elem_of_app. tauto.
  - intuition congruence.
  - rewrite Ec. simpl. rewrite elem_of_nil. tauto.
  - intuition congruence.
Qed.

Lemma domainAt_foldl (channel : Channel) (entries : list (Channel * ScaleHints.t))
    (v : DataValue) :
  forall acc,
  v ∈ domainAt channel (foldl mergeInto acc entries)
  <-> v ∈ domainAt channel acc
      \/ exists h, (channel, h) ∈ entries /\ v ∈ hint_domain h.
Proof.
  induction entries as [|[c h] entries IH]; intros acc; cbn [foldl].
  { split; [by left|]. intros [?|(h & ?%elem_of_nil & _)]; done. }
  rewrite IH, domainAt_mergeInto. simpl. split.
  - intros [[Hv|[-> Hv]]|(h' & Hin & Hv)].
    + by left.
    + right. exists h. split; [by left|done].
    + right. exists h'. split; [by right|done].
  - intros [Hv|(h' & [[= -> ->]|Hin]%elem_of_cons & Hv)].
    + left. by left.
    + left. by right.
    + right. by exists h'.
Qed.

Lemma resolveEntries_scaleHints (ctx : BuildContext.t) (from : FromExpr) (g : bool)
    (encodings : list (string * Encoding)) :
  forall acc : Logged LayerParts.t,
  LayerParts.scaleHints (resolveEntries ctx from g encodings acc).2
  = foldl mergeInto (LayerParts.scaleHints acc.2) (omap (entryHints ctx from g) encodings).
Proof.
  unfold resolveEntries. induction encodings as [|[attribute encoding] encodings IH];
    intros acc; [done|].
  cbn [foldl]. rewrite IH. clear IH. csimpl. unfold entryHints at 2. simpl.
  unfold resolveEntry.
  destruct (buildEncoding ctx from (channelForAttribute attribute) encoding g)
    as [warnings [r|]]; simpl; [|by destruct (channelForAttribute attribute)].
  destruct (channelForAttribute attribute) as [channel|]; [|done].
  destruct (Resolved.scale r) as [h|]; [|done]. simpl. unfold mergeInto. simpl.
  by destruct (assoc_get channel (LayerParts.scaleHints acc.2)).
Qed.

Lemma foldl_pointwise {A B} (f g : A -> B -> A) (l : list B) :
  (forall a x, f a x = g a x) -> forall a, foldl f a l = foldl g a l.
Proof.
  intros E. induction l as [|x l IH]; intros a; [done|]. cbn [foldl]. by rewrite E, IH.
Qed.

Lemma chartScaleHints_foldl (ctx : BuildContext.t) :
  chartScaleHints ctx
  = foldl (fun acc layer =>
             foldl mergeInto acc (LayerParts.scaleHints (buildLayer_parts ctx layer).2))
          [] (ChartSpec.layers (BuildContext.spec ctx)).
Proof.
  unfold chartScaleHints. apply foldl_pointwise. intros acc layer. apply foldl_pointwise.
  intros acc' [c h]. unfold mergeInto. simpl. by destruct (assoc_get c acc').
Qed.

Lemma assoc_set_keys {K V : Type} `{EqDecision K} (k : K) (v : V) (l : list (K * V)) :
  NoDup l.*1 -> NoDup (assoc_set k v l).*1
  /\ forall k', k' ∈ (assoc_set k v l).*1 <-> k' = k \/ k' ∈ l.*1.
Proof.
  induction l as [|[k0 v0] l IH]; simpl.
  { intros _. split; [apply NoDup_singleton|]. intros k'.
    rewrite list_elem_of_singleton, elem_of_nil. tauto. }
  intros [Hk0 Hnd]%NoDup_cons. destruct (decide (k = k0)) as [->|Hne]; simpl.
  - split; [by constructor|]. intros k'. rewrite elem_of_cons. tauto.
  - destruct (IH Hnd) as [Hnd' Hin]. split.
    + constructor; [|done]. rewrite Hin. intros [?|?]; [congruence|done].
    + intros k'. rewrite !elem_of_cons, Hin. tauto.
Qed.

Lemma mergeInto_keys (acc : list (Channel * ScaleHints.t)) (entry : Channel * ScaleHints.t) :
  NoDup acc.*1 -> NoDup (mergeInto acc entry).*1.
Proof.
  intros Hnd. unfold mergeInto. destruct (assoc_get entry.1 acc); by apply assoc_set_keys.
Qed.

Lemma foldl_mergeInto_keys (entries : list (Channel * ScaleHints.t)) :
  forall acc, NoDup acc.*1 -> NoDup (foldl mergeInto acc entries).*1.
Proof.
  induction entries as [|e entries IH]; intros acc Hnd; [done|].
  cbn [foldl]. by apply IH, mergeInto_keys.
Qed.

Lemma assoc_get_elem {K V : Type} `{EqDecision K} (k : K) (v : V) (l : list (K * V)) :
  NoDup l.*1 -> (k, v) ∈ l <-> assoc_get k l = Some v.
Proof.
  unfold assoc_get. induction l as [|[k0 v0] l IH]; simpl.
  { intros _. rewrite elem_of_nil. by split. }
  intros [Hk0 Hnd]%NoDup_cons. rewrite elem_of_cons. case_bool_decide as Hk; simpl.
  - subst k0. split; [|intros [= ->]; by left].
    intros [[= ->]|Hin]; [done|]. exfalso. apply Hk0.
    apply list_elem_of_fmap. by exists (k, v).
  - rewrite <- (IH Hnd). split; [|by right]. intros [[= -> ->]|Hin]; done.
Qed.

(** X7.  The hints [buildChart] merges for a channel lose no value: a
    value is in the hinted domain of the chart for a channel exactly when
    some encoding of some layer, on an attribute of that channel, resolves
    with scale hints whose domain holds the value. *)
Theorem chartScaleHints_domain (ctx : BuildContext.t) (channel : Channel) (v : DataValue) :
  v ∈ domainAt channel (chartScaleHints ctx)
  <-> exists layer attribute encoding r h,
        layer ∈ ChartSpec.layers (BuildContext.spec ctx)
        /\ (attribute, encoding) ∈ Layer.encoding layer
        /\ channelForAttribute attribute = Some channel
        /\ (buildEncoding ctx
              (BuildContext.fromExpr ctx
                 (default (TableName (BuildContext.table ctx)) (Layer.from layer)) None)
              (Some channel) encoding (hasAggregateOrBin (Layer.encoding layer))).2 = Some r
        /\ Resolved.scale r = Some h
        /\ v ∈ hint_domain h.
Proof.
  rewrite chartScaleHints_foldl.
  assert (Hlayer : forall layer,
            LayerParts.scaleHints (buildLayer_parts ctx layer).2
            = foldl mergeInto []
                (omap (entryHints ctx
                         (BuildContext.fromExpr ctx
                            (default (TableName (BuildContext.table ctx)) (Layer.from layer))
                            None)
                         (hasAggregateOrBin (Layer.encoding layer)))
                      (Layer.encoding layer))).
  { intros layer. unfold buildLayer_parts. by rewrite resolveEntries_scaleHints. }
  assert (G : forall layers acc,
            NoDup acc.*1 ->
            v ∈ domainAt channel
                  (foldl (fun acc layer =>
                            foldl mergeInto acc
                              (LayerParts.scaleHints (buildLayer_parts ctx layer).2))
                         acc layers)
            <-> v ∈ domainAt channel acc
                \/ exists layer, layer ∈ layers
                     /\ v ∈ domainAt channel
                              (LayerParts.scaleHints (buildLayer_parts ctx layer).2)).
  { induction layers as [|layer layers IH]; intros acc Hnd; cbn [foldl].
    { split; [by left|]. intros [?|(layer & ?%elem_of_nil & _)]; done. }
    rewrite IH by by apply foldl_mergeInto_keys. rewrite domainAt_foldl.
    assert (Hkeys : NoDup (LayerParts.scaleHints (buildLayer_parts ctx layer).2).*1).
    { rewrite Hlayer. apply foldl_mergeInto_keys. constructor. }
    assert (Hdom : v ∈ domainAt channel (LayerParts.scaleHints (buildLayer_parts ctx layer).2)
                   <-> exists h, (channel, h) ∈ LayerParts.scaleHints (buildLayer_parts ctx layer).2
                                 /\ v ∈ hint_domain h).
    { unfold domainAt. split.
      - destruct (assoc_get channel _) as [h|] eqn:E; [|by intros ?%elem_of_nil].
        intros Hv. exists h. split; [|done]. by apply assoc_get_elem.
      - intros (h & Hin & Hv). apply assoc_get_elem in Hin; [|done]. by rewrite Hin. }
    rewrite <- Hdom. split.
    - intros [[Hv|Hv]|(l' & Hl' & Hv)]; [by left| |].
      + right. exists layer. split; [by left|done].
      + right. exists l'. split; [by right|done].
    - intros [Hv|(l' & [->|Hl']%elem_of_cons & Hv)]; [left; by left| |].
      + left. by right.
      + right. by exists l'. }
  rewrite G by constructor. unfold domainAt at 1. simpl. rewrite elem_of_nil.
  split.
  - intros [[]|(layer & Hl & Hv)]. rewrite Hlayer, domainAt_foldl in Hv.
    destruct Hv as [[]%elem_of_nil|(h & Hin & Hv)].
    apply list_elem_of_omap in Hin as ([attribute encoding] & Hentry & Eh).
    unfold entryHints in Eh. simpl in Eh.
    destruct (channelForAttribute attribute) as [c|] eqn:Ec; [|done].
    destruct (buildEncoding _ _ _ encoding _) as [warnings [r|]] eqn:Er; [|done].
    simpl in Eh. destruct (Resolved.scale r) as [h'|] eqn:Es; [|done].
    simpl in Eh. injection Eh as -> ->.
    exists layer, attribute, encoding, r, h. by rewrite Er.
  - intros (layer & attribute & encoding & r & h & Hl & Hentry & Ec & Er & Es & Hv).
    right. exists layer. split; [done|]. rewrite Hlayer, domainAt_foldl. right.
    exists h. split; [|done]. apply list_elem_of_omap. exists (attribute, encoding).
    split; [done|]. unfold entryHints. simpl. rewrite Ec, Er. simpl. by rewrite Es.
Qed.

End ChartHintsFacts.

(** ** The chart runtime: isolation, completions, [destroy] *)

Section RuntimeFacts2.
Import Runtime.

Section RuntimeRun2.
Context `{Locale} `{BinningPolicy}.

Lemma foreign_filter_update (source : Source) (c : FilterClause) (f : list FilterClause) :
  Clause.source c = source ->
  foreign source (filter_update c f) = foreign source f.
Proof.
  intros <-. unfold foreign, filter_update.
  assert (E : base.filter (fun c0 : FilterClause => Clause.source c0 <> Clause.source c)
                (base.filter (fun c0 : FilterClause => Clause.source c0 <> Clause.source c) f)
              = base.filter (fun c0 : FilterClause => Clause.source c0 <> Clause.source c) f).
  { induction f as [|x f IH]; [done|].
    destruct (decide (Clause.source x = Clause.source c)) as [Hx|Hx].
    - rewrite (filter_cons_False _ x f) by (intros ?; done). exact IH.
    - rewrite (filter_cons_True _ x f) by done. rewrite filter_cons_True by done.
      f_equal. exact IH. }
  destruct (Clause.predicate c); [|exact E].
  rewrite filter_app. rewrite (filter_cons_False _ c []) by (intros ?; done).
  rewrite filter_nil, app_nil_r. exact E.
Qed.

Lemma foreign_writes (source : Source) (written : list FilterClause) (f : list FilterClause) :
  Forall (fun c => Clause.source c = source) written ->
  foreign source (writes written f) = foreign source f.
Proof.
  revert f. induction written as [|c written IH]; intros f Hall; [done|].
  apply Forall_cons in Hall as [Hc Hall]. unfold writes. cbn [foldl].
  fold (writes written (filter_update c f)). rewrite IH by done.
  by apply foreign_filter_update.
Qed.

Lemma foreign_state_set (value : option ChartState) (w : t) :
  foreign (source w) (filter (state_set value w)) = foreign (source w) (filter w).
Proof.
  destruct (state_set_cases value w) as [(_ & _ & ->)|(written & subs' & -> & Hround)];
    [done|].
  cbn [filter]. apply foreign_writes. by eapply round_sources.
Qed.

Lemma foreign_selections_set from (value : option (list SelectionOutputs)) (w : t) :
  foreign (source w) (filter (selections_set from value w)) = foreign (source w) (filter w).
Proof.
  destruct (selections_set_cases from value w)
    as [(_ & _ & ->)|(written & subs' & -> & Hround)]; [done|].
  cbn [filter]. apply foreign_writes. by eapply round_sources.
Qed.

Lemma filter_outputs_set (value : option nat) (w : t) :
  filter (outputs_set value w) = filter w.
Proof. unfold outputs_set. by destruct (outputs w), value. Qed.

Lemma foreign_cleanup (w : t) :
  foreign (source w) (filter (cleanup w)) = foreign (source w) (filter w).
Proof.
  unfold cleanup. destruct (cleanupFn w) as [[b ls]|]; [|done].
  unfold run_cleanupFn. cbn [filter].
  match goal with |- context [state_set None ?w1] =>
    exact (foreign_state_set None w1) end.
Qed.

Lemma foreign_setSpec (s : SpecObject) (w : t) :
  foreign (source w) (filter (setSpec s w)) = foreign (source w) (filter w).
Proof.
  unfold setSpec. destruct (deepEquals _ _); [done|]. cbn [filter]. apply foreign_cleanup.
Qed.

Lemma foreign_destroy (w : t) :
  foreign (source w) (filter (destroy w)) = foreign (source w) (filter w).
Proof.
  unfold destroy.
  rewrite <- (source_cleanup w) at 1. rewrite <- (source_outputs_set None (cleanup w)) at 1.
  rewrite <- (source_state_set None (outputs_set None (cleanup w))) at 1.
  rewrite foreign_selections_set.
  rewrite source_state_set, foreign_state_set.
  rewrite filter_outputs_set, source_outputs_set, source_cleanup. apply foreign_cleanup.
Qed.

Lemma foreign_resume (k : nat) (stats : FromExpr -> SQLField -> option FieldStats.t) (w : t) :
  foreign (source w) (filter (resume k stats w)) = foreign (source w) (filter w).
Proof.
  unfold resume. destruct (pending w !! k) as [s|]; [|done].
  cbv zeta. cbn [spec table source next]. destruct (negb _); [done|].
  match goal with |- context [outputs_set (Some (ref s)) ?w2] =>
    assert (Hw3 :
      exists events, outputs_set (Some (ref s)) w2
      = mk (source w) (table w) (spec w) (cleanupFn w) (state w) (selections w)
           (Some (ref s)) (subscriptions w) (delete k (pending w)) (filter w) (destroyed w)
           events (S (next w)));
    [unfold outputs_set; destruct (outputs w2); by eexists|] end.
  destruct Hw3 as (events3 & ->).
  match goal with |- context [selections_set ?from ?v ?w3] =>
    destruct (selections_set_cases from v w3)
      as [(_ & [=] & _)|(written4 & subs4 & -> & Hround4)] end.
  cbn [source selections state subscriptions filter log next table spec outputs pending
       destroyed] in *.
  match goal with |- context [syncFilter ?src ?sels ?st (?subs, ?f, ?ev) ?q] =>
    destruct (foldl_syncFilter src sels st [q] subs f ev)
      as (written5 & subs5 & E & Hround5) end.
  cbn [foldl] in E. rewrite E. cbn [filter].
  rewrite !foreign_writes; [done|by eapply round_sources|by eapply round_sources].
Qed.

(** X8.  The runtime and the other charts do not touch each other's
    clauses: [setSpec], a completion, a change of the state and [destroy]
    leave the clauses of every other source in the shared filter as they
    are, and another source's update leaves this chart's clause as it
    is. *)
Theorem runtime_isolation (w : t) (a : Action) :
  match a with
  | OtherUpdate clause =>
      owned (source w) (filter (step w a)) = owned (source w) (filter w)
  | _ => foreign (source w) (filter (step w a)) = foreign (source w) (filter w)
  end.
Proof.
  destruct a as [s|k stats|value| |c]; simpl.
  - apply foreign_setSpec.
  - apply foreign_resume.
  - apply foreign_state_set.
  - apply foreign_destroy.
  - case_bool_decide as Hc; [done|]. cbn [filter source].
    by apply owned_filter_update_other.
Qed.


Lemma pending_state_set (value : option ChartState) (w : t) :
  pending (state_set value w) = pending w /\ spec (state_set value w) = spec w
  /\ cleanupFn (state_set value w) = cleanupFn w
  /\ outputs (state_set value w) = outputs w
  /\ selections (state_set value w) = selections w.
Proof.
  by destruct (state_set_cases value w) as [(_ & _ & ->)|(written & subs' & -> & _)].
Qed.

Lemma state_state_set (w : t) : state (state_set None w) = None.
Proof.
  by destruct (state_set_cases None w) as [(? & _ & ->)|(written & subs' & -> & _)].
Qed.

Lemma pending_selections_set from (value : option (list SelectionOutputs)) (w : t) :
  pending (selections_set from value w) = pending w
  /\ spec (selections_set from value w) = spec w
  /\ outputs (selections_set from value w) = outputs w
  /\ state (selections_set from value w) = state w.
Proof.
  by destruct (selections_set_cases from value w)
    as [(_ & _ & ->)|(written & subs' & -> & _)].
Qed.

Lemma selections_selections_set from (w : t) :
  selections (selections_set from None w) = None.
Proof.
  by destruct (selections_set_cases from None w)
    as [(? & _ & ->)|(written & subs' & -> & _)].
Qed.

Lemma pending_cleanup (w : t) : pending (cleanup w) = pending w.
Proof.
  unfold cleanup. destruct (cleanupFn w) as [[b ls]|]; [|done].
  unfold run_cleanupFn. cbn [pending].
  match goal with |- context [state_set None ?w1] =>
    exact (proj1 (pending_state_set None w1)) end.
Qed.

Lemma destroy_fields (w : t) :
  spec (destroy w) = None /\ cleanupFn (destroy w) = None /\ outputs (destroy w) = None
  /\ selections (destroy w) = None /\ state (destroy w) = None.
Proof.
  unfold destroy.
  set (w1 := outputs_set None (cleanup w)).
  assert (H1 : spec w1 = None /\ cleanupFn w1 = None /\ outputs w1 = None).
  { unfold w1, outputs_set. by destruct (outputs (cleanup w)) eqn:E. }
  destruct H1 as (Hs & Hc & Ho).
  destruct (pending_state_set None w1) as (_ & Hs2 & Hc2 & Ho2 & _).
  pose proof (state_state_set w1) as Hst.
  destruct (pending_selections_set None None (state_set None w1)) as (_ & Hs3 & Ho3 & Hst3).
  rewrite Hs3, Ho3, Hst3, selections_set_cleanupFn, selections_selections_set.
  rewrite Hs2, Hc2, Ho2, Hs, Hc, Ho, Hst. done.
Qed.

(** X9.  A completion superseded by a [setSpec] with another object is
    discarded: if [setSpec(a)] is suspended, and [setSpec(b)] is then
    called with a different object whose content is not deep-equal to the
    current specification, then the completion of the call for [a]
    removes that call from the suspended ones and changes nothing else:
    no outputs, selections, clients, subscriptions or filter clauses. *)
Theorem superseded_completion_discarded (w : t) (k : nat) (a b : SpecObject)
    (stats : FromExpr -> SQLField -> option FieldStats.t) :
  pending w !! k = Some a ->
  ref b <> ref a ->
  Some (content b) <> content <$> spec w ->
  resume k stats (setSpec b w)
  = with_pending (delete k (pending (setSpec b w))) (setSpec b w).
Proof.
  intros Hk Hne Hb.
  assert (Hs : setSpec b w
               = mk (source (cleanup w)) (table (cleanup w)) (Some b) (cleanupFn (cleanup w))
                    (state (cleanup w)) (selections (cleanup w)) (outputs (cleanup w))
                    (subscriptions (cleanup w)) (pending w ++ [b]) (filter (cleanup w))
                    (destroyed (cleanup w)) (log (cleanup w) ++ [StatsRequested (ref b)])
                    (next (cleanup w))).
  { unfold setSpec, deepEquals. rewrite bool_decide_eq_false_2 by done.
    by rewrite pending_cleanup. }
  rewrite Hs. apply (resume_discards_stale k stats a).
  - cbn [pending]. by apply lookup_app_l_Some.
  - cbn [spec fmap option_fmap option_map]. congruence.
Qed.

(** X10.  After [destroy] the specification, [cleanupFn], and the three
    stores are [undefined]; destroying again changes nothing; a later
    change of the state writes nothing to the filter; and a completion
    that arrives late is dropped. *)
Theorem destroy_final (w : t) :
  let d := destroy w in
  (spec d = None /\ cleanupFn d = None /\ outputs d = None /\ selections d = None
   /\ state d = None)
  /\ destroy d = d
  /\ (forall value, filter (state_set value d) = filter d
                    /\ log (state_set value d) = log d)
  /\ (forall k stats, resume k stats d = with_pending (delete k (pending d)) d).
Proof.
  intros d. pose proof (destroy_fields w) as (Hs & Hc & Ho & Hsel & Hst). fold d in Hs, Hc, Ho, Hsel, Hst.
  split; [done|]. clearbody d. split; [|split].
  - destruct d. simpl in *. by subst.
  - intros value.
    destruct (state_set_cases value d) as [(_ & _ & ->)|(written & subs' & -> & Hround)];
      [done|].
    destruct Hround as (_ & _ & _ & _ & _ & Hempty).
    rewrite Hsel in Hempty. rewrite (Hempty eq_refl). cbn [filter log].
    by rewrite app_nil_r.
  - intros k stats. destruct (pending d !! k) as [s|] eqn:Hk.
    + apply (resume_discards_stale k stats s); [done|]. by rewrite Hs.
    + unfold resume. rewrite Hk. apply lookup_ge_None in Hk.
      unfold with_pending.
      rewrite delete_take_drop, take_ge, drop_ge, app_nil_r by lia. by destruct d.
Qed.

End RuntimeRun2.

Lemma superseded_completion_discarded_witness :
  pending (Sample.after [SetSpec Sample.specA]) !! 0%nat = Some Sample.specA
  /\ ref Sample.specB <> ref Sample.specA
  /\ Some (content Sample.specB) <> content <$> spec (Sample.after [SetSpec Sample.specA])
  /\ @resume Sample.en_US Sample.equalWidth 0 Sample.statsA
        (setSpec Sample.specB (Sample.after [SetSpec Sample.specA]))
      = with_pending
          (delete 0%nat (pending (setSpec Sample.specB (Sample.after [SetSpec Sample.specA]))))
          (setSpec Sample.specB (Sample.after [SetSpec Sample.specA])).
Proof.
  assert (H1 : pending (Sample.after [SetSpec Sample.specA]) !! 0%nat = Some Sample.specA)
    by reflexivity.
  assert (H2 : ref Sample.specB <> ref Sample.specA) by (vm_compute; lia).
  assert (H3 : Some (content Sample.specB)
               <> content <$> spec (Sample.after [SetSpec Sample.specA])).
  { vm_compute. intros [=]. }
  split; [exact H1|]. split; [exact H2|]. split; [exact H3|].
  exact (@superseded_completion_discarded Sample.en_US Sample.equalWidth
           (Sample.after [SetSpec Sample.specA]) 0%nat Sample.specA Sample.specB
           Sample.statsA H1 H2 H3).
Defined.

End RuntimeFacts2.

(** ** The chart runtime: the subscribers' current clause *)

Section RuntimeFacts3.
Import Runtime.

Lemma syncSelection_current (source : Source) (cls : list Client) (st : option ChartState)
    acc (sel : SelectionOutputs) :
  (syncSelection source cls st acc sel).1.1 = Some (ident sel, selected st sel).
Proof.
  destruct acc as [[cur f] ev]. unfold syncSelection, deepEquals.
  fold (selected st sel). case_bool_decide; simpl; congruence.
Qed.

Lemma foldl_syncSelection_current (source : Source) (cls : list Client)
    (st : option ChartState) (sels : list SelectionOutputs) acc (sel : SelectionOutputs) :
  last sels = Some sel ->
  (foldl (syncSelection source cls st) acc sels).1.1 = Some (ident sel, selected st sel).
Proof.
  intros (sels' & ->)%last_Some. rewrite foldl_app. cbn [foldl].
  apply syncSelection_current.
Qed.

Lemma foldl_syncFilter_synced (source : Source) (sels : option (list SelectionOutputs))
    (st : option ChartState) (subs : list Subscription) :
  forall done f ev q,
    q ∈ (foldl (syncFilter source sels st) (done, f, ev) subs).1.1 ->
    q ∈ done
    \/ forall sel, last (default [] sels) = Some sel ->
         currentClause q = Some (ident sel, selected st sel).
Proof.
  induction subs as [|p subs IH]; intros done f ev q; [by left|].
  cbn [foldl].
  destruct (syncFilter source sels st (done, f, ev) p) as [[done' f1] ev1] eqn:Ep.
  intros Hq. apply IH in Hq. destruct Hq as [Hq|Hq]; [|by right].
  unfold syncFilter in Ep.
  destruct (foldl (syncSelection source (clients p) st) (currentClause p, f, ev)
              (default [] sels)) as [[cur f'] ev'] eqn:E.
  injection Ep as <- _ _.
  apply elem_of_app in Hq as [Hq|Hq%list_elem_of_singleton]; [by left|]. right.
  intros sel Hsel. subst q. cbn [currentClause].
  change cur with (cur, f', ev').1.1. rewrite <- E.
  by apply foldl_syncSelection_current.
Qed.

Lemma synced_notify (w : t) : synced (notify w).
Proof.
  unfold notify.
  destruct (foldl (syncFilter (source w) (selections w) (state w)) ([], filter w, [])
              (subscriptions w)) as [[subs f] ev] eqn:E.
  intros q sel Hq Hsel. cbn [subscriptions selections state] in *.
  change subs with (subs, f, ev).1.1 in Hq. rewrite <- E in Hq.
  apply foldl_syncFilter_synced in Hq as [[]%elem_of_nil|Hq]. by apply Hq.
Qed.

Lemma synced_state_set (value : option ChartState) (w : t) :
  synced w -> synced (state_set value w).
Proof.
  intros Hw. unfold state_set. destruct (state w), value; try apply synced_notify. done.
Qed.

Lemma synced_selections_set from (value : option (list SelectionOutputs)) (w : t) :
  synced w -> synced (selections_set from value w).
Proof.
  intros Hw. unfold selections_set. destruct (selections w), value; try apply synced_notify.
  done.
Qed.

Lemma synced_outputs_set (value : option nat) (w : t) :
  synced w -> synced (outputs_set value w).
Proof. unfold outputs_set. by destruct (outputs w), value. Qed.

Lemma synced_cleanup (w : t) : synced w -> synced (cleanup w).
Proof.
  intros Hw. unfold cleanup. destruct (cleanupFn w) as [[b ls]|]; [|done].
  unfold run_cleanupFn.
  match goal with |- context [state_set None ?w1] =>
    assert (Hw1 : synced (state_set None w1)) by by apply synced_state_set end.
  intros q sel [_ Hq]%list_elem_of_filter Hsel. by apply Hw1.
Qed.

Section RuntimeRun3.
Context `{Locale} `{BinningPolicy}.

Lemma synced_resume (k : nat) (stats : FromExpr -> SQLField -> option FieldStats.t) (w : t) :
  synced w -> synced (resume k stats w).
Proof.
  intros Hw. unfold resume. destruct (pending w !! k) as [s|]; [|done].
  cbv zeta. cbn [spec table source next]. destruct (negb _); [done|].
  match goal with |- context [selections_set ?from ?v ?w3] =>
    assert (Hw4 : synced (selections_set from v w3));
    [apply synced_selections_set, synced_outputs_set; exact Hw|];
    generalize dependent (selections_set from v w3) end.
  intros w4 Hw4.
  match goal with |- context [syncFilter ?src ?sels ?st (?subs, ?f, ?ev) ?q] =>
    pose proof (foldl_syncFilter_synced src sels st [q] subs f ev) as Hnew;
    cbn [foldl] in Hnew;
    destruct (syncFilter src sels st (subs, f, ev) q) as [[subs' f'] ev'] end.
  intros q sel Hq Hsel. cbn [subscriptions selections state] in *.
  destruct (Hnew q Hq) as [Hold|Hq']; [by apply Hw4|by apply Hq'].
Qed.

Lemma synced_step (w : t) (a : Action) : synced w -> synced (step w a).
Proof.
  intros Hw. destruct a as [s|k stats|value| |c]; simpl.
  - unfold setSpec. destruct (deepEquals _ _); [done|]. by apply synced_cleanup in Hw.
  - by apply synced_resume.
  - by apply synced_state_set.
  - unfold destroy. by apply synced_selections_set, synced_state_set, synced_outputs_set,
      synced_cleanup.
  - by case_bool_decide.
Qed.

Lemma synced_run (actions : list Action) (w : t) : synced w -> synced (run w actions).
Proof.
  revert w. induction actions as [|a actions IH]; intros w Hw; [done|].
  apply IH. by apply synced_step.
Qed.

(** A subscriber whose clause is current writes nothing. *)
Lemma foldl_syncFilter_quiet (source : Source) (sels : list SelectionOutputs)
    (st : option ChartState) (subs : list Subscription) :
  (length sels <= 1)%nat ->
  (forall q sel, q ∈ subs -> sel ∈ sels ->
     currentClause q = Some (ident sel, selected st sel)) ->
  forall done f ev,
    foldl (syncFilter source (Some sels) st) (done, f, ev) subs = (done ++ subs, f, ev).
Proof.
  intros Hlen. induction subs as [|q subs IH]; intros Hcur done f ev.
  { by rewrite app_nil_r. }
  cbn [foldl]. 
  assert (Eq : syncFilter source (Some sels) st (done, f, ev) q = (done ++ [q], f, ev)).
  { unfold syncFilter. cbn [default from_option]. unfold id.
    destruct sels as [|sel [|sel' sels]]; [by destruct q| |simpl in Hlen; lia].
    cbn [foldl]. unfold syncSelection, deepEquals. fold (selected st sel).
    rewrite bool_decide_eq_true_2 by (apply Hcur; by left). by destruct q. }
  rewrite Eq, IH; [by rewrite <- (assoc_L (++))|].
  intros q' sel Hq' Hsel. apply Hcur; [by right|done].
Qed.

(** X11.  The subscriber does not repeat itself.  In a chart with at
    most one selection, setting the state store to a state that holds the
    same value for the selection's key as before stores the state and
    does nothing else: no clause is written to the filter. *)
Theorem state_set_unchanged_selection (src : Source) (tbl : string)
    (f0 : list FilterClause) (actions : list Action) (st : ChartState) :
  let w := run (create src tbl f0) actions in
  (length (default [] (selections w)) <= 1)%nat ->
  Forall (fun sel => selected (Some st) sel = selected (state w) sel)
         (default [] (selections w)) ->
  state_set (Some st) w = with_state (Some st) w.
Proof.
  intros w Hlen Hsame.
  assert (Hw : synced w) by (apply synced_run; by intros q sel ?%elem_of_nil).
  clearbody w. unfold state_set.
  assert (E : notify (with_state (Some st) w) = with_state (Some st) w).
  { unfold notify. cbn [source selections state filter subscriptions with_state].
    destruct (selections w) as [sels|] eqn:Esel.
    - rewrite foldl_syncFilter_quiet; [cbn [app log]; rewrite app_nil_r; unfold with_state; cbn; by rewrite Esel| |].
      + done.
      + intros q sel Hq Hsel. cbn [default from_option] in *. unfold id in *.
        rewrite (proj1 (Forall_forall _ _) Hsame sel Hsel).
        apply Hw; [done|]. rewrite Esel. cbn [default from_option]. unfold id.
        destruct sels as [|s0 [|s1 sels]]; [by apply elem_of_nil in Hsel| |simpl in Hlen; lia].
        by apply list_elem_of_singleton in Hsel as ->.
    - destruct (foldl_syncFilter (source w) None (Some st) (subscriptions w) [] (filter w) [])
        as (written & subs' & E & _ & _ & Hnil & _ & _ & Hempty).
      rewrite E, (Hempty eq_refl), (Hnil (Hempty eq_refl)). cbn [app fmap list_fmap writes foldl log].
      rewrite app_nil_r. unfold with_state. cbn. by rewrite Esel. }
  destruct (state w); exact E.
Qed.

End RuntimeRun3.

Lemma state_set_unchanged_selection_witness :
  let w := @run Sample.en_US Sample.equalWidth (create 0%nat "t" []) Sample.brushed in
  (length (default [] (selections w)) <= 1)%nat
  /\ Forall (fun sel => selected (Some Sample.brush) sel = selected (state w) sel)
            (default [] (selections w))
  /\ state_set (Some Sample.brush) w = with_state (Some Sample.brush) w.
Proof.
  cbv zeta.
  assert (H1 : (length (default [] (selections
                  (@run Sample.en_US Sample.equalWidth (create 0%nat "t" [])
                     Sample.brushed))) <= 1)%nat)
    by (vm_compute; lia).
  assert (H2 : Forall (fun sel =>
                         selected (Some Sample.brush) sel
                         = selected (state (@run Sample.en_US Sample.equalWidth
                                              (create 0%nat "t" []) Sample.brushed)) sel)
                      (default [] (selections
                         (@run Sample.en_US Sample.equalWidth (create 0%nat "t" [])
                            Sample.brushed)))).
  { vm_compute. constructor; [reflexivity|constructor]. }
  split; [exact H1|]. split; [exact H2|].
  exact (@state_set_unchanged_selection Sample.en_US Sample.equalWidth 0%nat "t" []
           Sample.brushed Sample.brush H1 H2).
Defined.

End RuntimeFacts3.

(** ** The chart runtime: clients are destroyed once *)

Section RuntimeFacts4.
Import Runtime.

Lemma imap_indices_NoDup {A} (p : A -> bool) (l : list A) :
  forall g : nat -> nat, Inj (=) (=) g ->
  NoDup (imap (fun i x => if p x then [g i] else []) l ≫= id)
  /\ forall y, y ∈ imap (fun i x => if p x then [g i] else []) l ≫= id -> exists i, y = g i.
Proof.
  induction l as [|x l IH]; intros g Hg.
  { split; [constructor|]. by intros y ?%elem_of_nil. }
  rewrite imap_cons. rewrite bind_cons.
  change (id (if p x then [g 0%nat] else [])) with (if p x then [g 0%nat] else []).
  change (imap ((fun i x0 => if p x0 then [g i] else []) ∘ S) l)
    with (imap (fun i x0 => if p x0 then [(g ∘ S) i] else []) l).
  destruct (IH (g ∘ S)) as [Hnd Hin]; [by apply _|].
  split.
  - apply NoDup_app. split; [|split; [|exact Hnd]].
    + destruct (p x); [apply NoDup_singleton|constructor].
    + intros y Hy Hy'. apply Hin in Hy' as (i & ->).
      destruct (p x); [|by apply elem_of_nil in Hy].
      apply list_elem_of_singleton in Hy. by apply Hg in Hy.
  - intros y [Hy|Hy]%elem_of_app.
    + destruct (p x); [|by apply elem_of_nil in Hy].
      apply list_elem_of_singleton in Hy. by exists 0%nat.
    + apply Hin in Hy as (i & ->). by exists (S i).
Qed.

Lemma tidy_captured (w w' : t) :
  tidy w -> destroyed w' = destroyed w ->
  captured <$> subscriptions w' = captured <$> subscriptions w -> tidy w'.
Proof. intros [Hd Hs] Ed Es. unfold tidy. by rewrite Ed, Es. Qed.

Lemma tidy_state_set (value : option ChartState) (w : t) :
  tidy w -> tidy (state_set value w).
Proof.
  intros Hw. destruct (state_set_cases value w) as [(_ & _ & ->)|(written & subs' & -> & Hround)];
    [done|].
  apply (tidy_captured w); [done|done|]. apply Hround.
Qed.

Lemma tidy_selections_set from (value : option (list SelectionOutputs)) (w : t) :
  tidy w -> tidy (selections_set from value w).
Proof.
  intros Hw. destruct (selections_set_cases from value w)
    as [(_ & _ & ->)|(written & subs' & -> & Hround)]; [done|].
  apply (tidy_captured w); [done|done|]. apply Hround.
Qed.

Lemma tidy_outputs_set (value : option nat) (w : t) :
  tidy w -> tidy (outputs_set value w).
Proof. unfold outputs_set. by destruct (outputs w), value. Qed.

Lemma tidy_cleanup (w : t) : consistent w -> tidy w -> tidy (cleanup w).
Proof.
  intros Hc Hw. unfold cleanup. destruct (cleanupFn w) as [[b ls]|] eqn:Hfn; [|done].
  unfold run_cleanupFn.
  match goal with |- context [state_set None ?w0] => set (w1 := w0) end.
  assert (Hc2 : consistent (state_set None w1)) by by apply consistent_state_set.
  assert (Hw2 : tidy (state_set None w1)) by by apply tidy_state_set.
  assert (Hfn2 : cleanupFn (state_set None w1) = Some (b, ls)).
  { destruct (state_set_cases None w1) as [(? & _ & ->)|(written & subs' & -> & _)]; done. }
  revert Hc2 Hw2 Hfn2. generalize (state_set None w1). clear w w1 Hc Hw Hfn.
  intros w [(Hlt & Hnd & Hdes & Href) Harmed] [Hd Hs] Hfn.
  destruct (armed_subscribed w b ls Harmed Hfn) as (q & Hq & Hb & Hls).
  unfold tidy. cbn [destroyed subscriptions]. split.
  - apply NoDup_app. split; [done|]. split.
    + intros x Hx Hx'. apply Hdes in Hx as [_ Hx]. apply Hx.
      apply list_elem_of_fmap in Hx' as (i & -> & _). simpl.
      unfold builds. apply list_elem_of_fmap. by exists q.
    + unfold clients_of. apply NoDup_fmap_2; [by intros i j [=]|].
      assert (Hin : captured q ∈ captured <$> subscriptions w).
      { apply list_elem_of_fmap. by exists q. }
      apply (proj1 (Forall_forall _ _) Hs) in Hin. simpl in Hin. by rewrite Hls in Hin.
  - apply Forall_forall. intros c (p & -> & [_ Hp]%list_elem_of_filter)%list_elem_of_fmap.
    apply (proj1 (Forall_forall _ _) Hs). apply list_elem_of_fmap. by exists p.
Qed.

Section RuntimeRun4.
Context `{Locale} `{BinningPolicy}.

Lemma clientLayers_NoDup (ctx : BuildContext.t) : NoDup (clientLayers ctx).
Proof.
  unfold clientLayers.
  apply (imap_indices_NoDup (layerHasClient ctx) _ (fun i => i)). by intros i j.
Qed.

Lemma tidy_resume (k : nat) (stats : FromExpr -> SQLField -> option FieldStats.t) (w : t) :
  tidy w -> tidy (resume k stats w).
Proof.
  intros Hw. unfold resume. destruct (pending w !! k) as [s|]; [|done].
  cbv zeta. cbn [spec table source next]. destruct (negb _); [done|].
  match goal with |- context [selections_set ?from ?v ?w3] =>
    assert (Hw4 : tidy (selections_set from v w3));
    [apply tidy_selections_set, tidy_outputs_set; exact Hw|];
    generalize dependent (selections_set from v w3) end.
  intros w4 Hw4.
  match goal with |- context [syncFilter ?src ?sels ?st (?subs, ?f, ?ev) ?q] =>
    destruct (foldl_syncFilter src sels st [q] subs f ev)
      as (written5 & subs5 & E & Hcap & _) end.
  cbn [foldl] in E. rewrite E. destruct Hw4 as [Hd Hs].
  unfold tidy. cbn [destroyed subscriptions]. split; [done|].
  rewrite fmap_app, Hcap. apply Forall_app. split; [done|].
  apply Forall_singleton. simpl. apply clientLayers_NoDup.
Qed.

Lemma tidy_step (w : t) (a : Action) : consistent w -> tidy w -> tidy (step w a).
Proof.
  intros Hc Hw. destruct a as [s|k stats|value| |c]; simpl.
  - unfold setSpec. destruct (deepEquals _ _); [done|]. by apply (tidy_cleanup w).
  - by apply tidy_resume.
  - by apply tidy_state_set.
  - unfold destroy.
    by apply tidy_selections_set, tidy_state_set, tidy_outputs_set, tidy_cleanup.
  - by case_bool_decide.
Qed.

(** X12.  However [setSpec], completions, state changes and [destroy]
    follow each other, the runtime destroys no client twice. *)
Theorem clients_destroyed_once (src : Source) (tbl : string) (f0 : list FilterClause)
    (actions : list Action) :
  owned src f0 = [] ->
  NoDup (destroyed (run (create src tbl f0) actions)).
Proof.
  intros Hf0.
  assert (G : forall w, consistent w -> tidy w -> tidy (run w actions)).
  { induction actions as [|a actions IH]; intros w Hc Hw; [done|].
    apply IH; [by apply consistent_step|by apply tidy_step]. }
  apply G; [by apply consistent_create|]. split; constructor.
Qed.

End RuntimeRun4.

Lemma clients_destroyed_once_witness :
  owned 0%nat [] = []
  /\ NoDup (destroyed (@run Sample.en_US Sample.equalWidth (create 0%nat "t" [])
                         (Sample.brushed ++ [Destroy; Destroy]))).
Proof.
  assert (H0 : owned 0%nat [] = []) by reflexivity.
  split; [exact H0|].
  exact (@clients_destroyed_once Sample.en_US Sample.equalWidth 0%nat "t" []
           (Sample.brushed ++ [Destroy; Destroy]) H0).
Defined.

End RuntimeFacts4.

(** ** The occupancy map of the dashboard *)

Section OccupancyMapFacts.
Import OccupancyMap.

Lemma toInt32_range (z : Z) : - 2 ^ 31 <= toInt32 z < 2 ^ 31.
Proof. unfold toInt32. pose proof (Z.mod_pos_bound (z + 2 ^ 31) (2 ^ 32)). lia. Qed.

Lemma toInt32_eqm (z : Z) : toInt32 z mod 2 ^ 32 = z mod 2 ^ 32.
Proof.
  unfold toInt32. rewrite Zminus_mod, Zmod_mod, <- Zminus_mod. f_equal. lia.
Qed.

Lemma testbit_eqm (a b i : Z) :
  a mod 2 ^ 32 = b mod 2 ^ 32 -> 0 <= i < 32 -> Z.testbit a i = Z.testbit b i.
Proof.
  intros E Hi. rewrite <- (Z.mod_pow2_bits_low a 32 i), <- (Z.mod_pow2_bits_low b 32 i) by lia.
  by rewrite E.
Qed.

Lemma testbit_toInt32 (z i : Z) : 0 <= i < 32 -> Z.testbit (toInt32 z) i = Z.testbit z i.
Proof. intros Hi. apply testbit_eqm; [apply toInt32_eqm|done]. Qed.

Lemma testbit_toUint32 (z i : Z) : 0 <= i < 32 -> Z.testbit (toUint32 z) i = Z.testbit z i.
Proof. intros Hi. unfold toUint32. apply Z.mod_pow2_bits_low. lia. Qed.

Lemma toUint32_range (z : Z) : 0 <= toUint32 z < 2 ^ 32.
Proof. unfold toUint32. apply Z.mod_pos_bound. lia. Qed.

(** The bits of a 32-bit integer above the sign bit repeat it. *)
Lemma testbit_int32_high (a i : Z) :
  - 2 ^ 31 <= a < 2 ^ 31 -> 31 <= i -> Z.testbit a i = (a <? 0).
Proof.
  intros Ha Hi. destruct (Z.ltb_spec a 0) as [Hneg|Hpos].
  - rewrite <- (Z.lnot_involutive a), Z.lnot_spec by lia. apply negb_true_iff.
    assert (0 <= Z.lnot a < 2 ^ 31) by (unfold Z.lnot; lia).
    destruct (decide (Z.lnot a = 0)) as [->|Hne]; [apply Z.bits_0|].
    apply Z.bits_above_log2; [lia|].
    apply Z.lt_le_trans with 31; [|done]. apply Z.log2_lt_pow2; lia.
  - destruct (decide (a = 0)) as [->|Hne]; [apply Z.bits_0|].
    apply Z.bits_above_log2; [lia|].
    apply Z.lt_le_trans with 31; [|done]. apply Z.log2_lt_pow2; lia.
Qed.

(** A 32-bit integer is zero when its 32 bits are. *)
Lemma int32_zero (a : Z) :
  - 2 ^ 31 <= a < 2 ^ 31 -> (forall i, 0 <= i < 32 -> Z.testbit a i = false) -> a = 0.
Proof.
  intros Ha Hbits. apply Z.bits_inj'. intros i Hi. rewrite Z.bits_0.
  destruct (decide (i < 32)) as [Hlt|Hge]; [apply Hbits; lia|].
  rewrite testbit_int32_high by lia. rewrite <- (testbit_int32_high a 31) by lia.
  apply Hbits. lia.
Qed.

Lemma and_range (a b : Z) : - 2 ^ 31 <= and a b < 2 ^ 31.
Proof.
  unfold and. pose proof (toInt32_range a) as Ha. pose proof (toInt32_range b) as Hb.
  set (x := toInt32 a) in *. set (y := toInt32 b) in *.
  assert (Hhigh : forall i, 31 <= i -> Z.testbit (Z.land x y) i = (Z.land x y <? 0)).
  { intros i Hi.
    rewrite Z.land_spec, (testbit_int32_high x), (testbit_int32_high y) by done.
    pose proof (Z.land_neg x y) as Hland.
    destruct (Z.ltb_spec x 0), (Z.ltb_spec y 0), (Z.ltb_spec (Z.land x y) 0);
      simpl; try done; lia. }
  destruct (Z.ltb_spec (Z.land x y) 0) as [Hneg|Hpos].
  - split; [|lia]. 
    destruct (Z.le_gt_cases (- 2 ^ 31) (Z.land x y)) as [|Hlt]; [done|exfalso].
    assert (Hl : 0 <= Z.lnot (Z.land x y)) by (unfold Z.lnot; lia).
    assert (2 ^ 31 <= Z.lnot (Z.land x y)) by (unfold Z.lnot; lia).
    assert (Hlog : 31 <= Z.log2 (Z.lnot (Z.land x y))) by (apply Z.log2_le_pow2; lia).
    pose proof (Z.bit_log2 (Z.lnot (Z.land x y)) ltac:(lia)) as Hbit.
    rewrite Z.lnot_spec in Hbit by lia. rewrite Hhigh in Hbit by done. done.
  - split; [lia|].
    destruct (Z.lt_ge_cases (Z.land x y) (2 ^ 31)) as [|Hge]; [done|exfalso].
    assert (Hlog : 31 <= Z.log2 (Z.land x y)) by (apply Z.log2_le_pow2; lia).
    pose proof (Z.bit_log2 (Z.land x y) ltac:(lia)) as Hbit.
    rewrite Hhigh in Hbit by done. done.
Qed.

(** [(a & b) != 0] *)
Lemma and_nonzero (a b : Z) :
  negb (and a b =? 0) = true
  <-> exists i, 0 <= i < 32 /\ Z.testbit a i = true /\ Z.testbit b i = true.
Proof.
  rewrite negb_true_iff, Z.eqb_neq. split.
  - intros Hne.
    destruct (decide (Exists (fun i => Z.testbit a i = true /\ Z.testbit b i = true)
                             (Z.of_nat <$> seq 0 32))) as [Hex|Hno].
    { apply Exists_exists in Hex as (i & Hin & Hi). exists i. split; [|done].
      apply list_elem_of_fmap in Hin as (n & -> & Hn%elem_of_seq). lia. }
    exfalso. apply Hne. apply int32_zero; [apply and_range|].
    intros i Hi. unfold and. rewrite Z.land_spec, !testbit_toInt32 by done.
    apply not_true_iff_false. intros [Ha Hb]%andb_true_iff. apply Hno.
    apply Exists_exists. exists i. split; [|done].
    apply list_elem_of_fmap. exists (Z.to_nat i). split; [lia|]. apply elem_of_seq. lia.
  - intros (i & Hi & Ha & Hb) E.
    assert (Z.testbit (and a b) i = true) as Hbit.
    { unfold and. rewrite Z.land_spec, !testbit_toInt32 by done. by rewrite Ha, Hb. }
    rewrite E, Z.bits_0 in Hbit. done.
Qed.


Lemma testbit_shl (a b i : Z) :
  0 <= b < 32 -> 0 <= i < 32 ->
  Z.testbit (shl a b) i = if i <? b then false else Z.testbit a (i - b).
Proof.
  intros Hb Hi. unfold shl. rewrite testbit_toInt32 by done.
  rewrite Z.mod_small by lia. rewrite Z.shiftl_spec by lia.
  destruct (Z.ltb_spec i b); [apply Z.testbit_neg_r; lia|].
  apply testbit_toInt32. lia.
Qed.

Lemma testbit_bit (x i : Z) :
  0 <= x < 32 -> 0 <= i < 32 -> Z.testbit (shl 1 x) i = (i =? x).
Proof.
  intros Hx Hi. rewrite testbit_shl by done.
  destruct (Z.eqb_spec i x) as [->|Hne].
  - by rewrite Z.ltb_irrefl, Z.sub_diag.
  - destruct (Z.ltb_spec i x); [done|].
    change 1 with (2 ^ 0). apply Z.pow2_bits_false. lia.
Qed.

Lemma testbit_ones32 (w j : Z) :
  1 <= w <= 31 -> 0 <= j < 32 -> Z.testbit (shl 1 w - 1) j = (j <? w).
Proof.
  intros Hw Hj.
  assert (E : (shl 1 w - 1) mod 2 ^ 32 = Z.ones w mod 2 ^ 32).
  { unfold shl. rewrite Zminus_mod, toInt32_eqm, <- Zminus_mod.
    rewrite (Z.mod_small w) by lia. change (toInt32 1) with 1.
    rewrite Z.shiftl_1_l, Z.ones_equiv. f_equal; lia. }
  rewrite (testbit_eqm _ _ j E) by done.
  destruct (Z.ltb_spec j w); [apply Z.ones_spec_low; lia|apply Z.ones_spec_high; lia].
Qed.

Lemma testbit_mask (x w i : Z) :
  0 <= x -> 1 <= w <= 31 -> x + w <= 32 -> 0 <= i < 32 ->
  Z.testbit (mask x w) i = (x <=? i) && (i <? x + w).
Proof.
  intros Hx Hw Hxw Hi. unfold mask. rewrite testbit_shl by lia.
  destruct (Z.leb_spec x i) as [Hle|Hgt].
  - assert ((i <? x) = false) as -> by lia. rewrite testbit_ones32 by lia. simpl.
    destruct (Z.ltb_spec (i - x) w), (Z.ltb_spec i (x + w)); try lia; done.
  - by assert ((i <? x) = true) as -> by lia.
Qed.

(** What [get] reads. *)
Lemma get_testbit (x y : Z) (m : t) :
  numColumns m <= 32 ->
  get x y m
  = (0 <=? x) && (x <? numColumns m) && (0 <=? y) && (y <? Z.of_nat (length (rows m)))
    && Z.testbit (row m y) x.
Proof.
  intros Hnc. unfold get.
  destruct (Z.ltb_spec x 0), (Z.leb_spec (numColumns m) x), (Z.ltb_spec y 0),
    (Z.leb_spec (Z.of_nat (length (rows m))) y); simpl;
    destruct (Z.leb_spec 0 x), (Z.ltb_spec x (numColumns m)), (Z.leb_spec 0 y),
      (Z.ltb_spec y (Z.of_nat (length (rows m)))); simpl; try lia; try done.
  apply eq_true_iff_eq. rewrite and_nonzero. split.
  - intros (i & Hi & Ha & Hb). rewrite testbit_bit in Hb by lia.
    apply Z.eqb_eq in Hb. by subst.
  - intros Ha. exists x. split; [lia|]. split; [done|].
    rewrite testbit_bit by lia. apply Z.eqb_refl.
Qed.

Lemma grow_more (n : Z) : 1 <= n -> n + 1 <= grow n.
Proof. intros Hn. unfold grow. apply Z.div_le_lower_bound; lia. Qed.

Lemma grown_enough (fuel : nat) :
  forall count n, 1 <= n -> count - n <= Z.of_nat fuel ->
  exists n', grown fuel count n = Some n' /\ count <= n' /\ n <= n'.
Proof.
  induction fuel as [|fuel IH]; intros count n Hn Hfuel; simpl.
  - destruct (Z.ltb_spec n count); [lia|]. exists n. repeat split; lia.
  - destruct (Z.ltb_spec n count); [|exists n; repeat split; lia].
    pose proof (grow_more n Hn).
    destruct (IH count (grow n)) as (n' & E & ? & ?); [lia|lia|].
    exists n'. repeat split; [done|lia|lia].
Qed.

Lemma row_app (m : t) (k : nat) (y : Z) :
  row (mk (numColumns m) (rows m ++ replicate k 0)) y = row m y.
Proof.
  unfold row. simpl. destruct (decide (Z.to_nat y < length (rows m))%nat).
  - by rewrite lookup_app_l.
  - rewrite lookup_app_r, (lookup_ge_None_2 (rows m)) by lia. simpl.
    destruct (replicate k 0 !! _) eqn:E; [|done]. by apply lookup_replicate in E as [-> _].
Qed.

(** [ensureSize] ends, keeps the bits and makes room. *)
Lemma ensureSize_spec (count : Z) (m : t) :
  wf m ->
  exists m', ensureSize count m = Some m' /\ wf m'
    /\ numColumns m' = numColumns m
    /\ count <= Z.of_nat (length (rows m'))
    /\ (length (rows m) <= length (rows m'))%nat
    /\ (forall y, row m' y = row m y)
    /\ (Z.of_nat (length (rows m)) < count \/ m' = m).
Proof.
  intros [Hne Hrange]. unfold ensureSize.
  set (len := Z.of_nat (length (rows m))).
  assert (1 <= len) by (unfold len; destruct (rows m); [done|simpl; lia]).
  destruct (Z.ltb_spec len count) as [Hlt|Hge].
  2:{ exists m. split; [done|]. split; [done|]. split; [done|]. split; [done|].
      split; [done|]. split; [done|]. by right. }
  pose proof (grow_more len ltac:(lia)).
  destruct (grown_enough (Z.to_nat count) count (grow len)) as (n' & -> & ? & ?); [lia|lia|].
  simpl. eexists. split; [reflexivity|]. simpl.
  split.
  { split; [by destruct (rows m)|]. apply Forall_app. split; [done|].
    apply Forall_replicate. lia. }
  split; [done|]. rewrite length_app, length_replicate.
  split; [lia|]. split; [lia|]. split; [|by left].
  intros y. apply row_app.
Qed.




Lemma row_store (y v : Z) (m : t) (y' : Z) :
  0 <= y < Z.of_nat (length (rows m)) -> 0 <= y' ->
  row (store y v m) y' = if y' =? y then toUint32 v else row m y'.
Proof.
  intros Hy Hy'. unfold row, store. simpl. destruct (Z.eqb_spec y' y) as [->|Hne].
  - rewrite list_lookup_insert_eq by lia. done.
  - rewrite list_lookup_insert_ne by lia. done.
Qed.

Lemma wf_store (y v : Z) (m : t) : wf m -> wf (store y v m).
Proof.
  intros [Hne Hall]. split.
  - simpl. intros E. apply (f_equal length) in E. rewrite length_insert in E.
    by destruct (rows m).
  - simpl. apply Forall_insert; [done|]. apply toUint32_range.
Qed.





Lemma elem_of_span (y height r : Z) : r ∈ span y height <-> y <= r < y + height.
Proof.
  unfold span. rewrite list_elem_of_fmap. split.
  - intros (dy & -> & Hdy%elem_of_seq). lia.
  - intros Hr. exists (Z.to_nat (r - y)). split; [lia|]. apply elem_of_seq. lia.
Qed.

(** The loop of [fill]. *)
Lemma fill_rows (msk : Z) (rs : list Z) :
  forall m : t,
  NoDup rs -> Forall (fun r => 0 <= r < Z.of_nat (length (rows m))) rs ->
  let m' := foldl (fun m r => store r (or (row m r) msk) m) m rs in
  numColumns m' = numColumns m /\ length (rows m') = length (rows m)
  /\ (wf m -> wf m')
  /\ forall y', 0 <= y' ->
       row m' y' = if bool_decide (y' ∈ rs) then toUint32 (or (row m y') msk) else row m y'.
Proof.
  induction rs as [|r rs IH]; intros m Hnd Hall; cbn [foldl]; cbv zeta.
  { split; [done|]. split; [done|]. split; [done|]. intros y' _.
    by rewrite bool_decide_eq_false_2 by apply not_elem_of_nil. }
  apply NoDup_cons in Hnd as [Hr Hnd]. apply Forall_cons in Hall as [Hr0 Hall].
  set (m1 := store r (or (row m r) msk) m).
  assert (Hall1 : Forall (fun r => 0 <= r < Z.of_nat (length (rows m1))) rs).
  { unfold m1, store. simpl. by rewrite length_insert. }
  destruct (IH m1 Hnd Hall1) as (Enc & Elen & Hwf & Hrow).
  split; [done|]. split; [by rewrite Elen; unfold m1, store; simpl; rewrite length_insert|].
  split; [intros ?; by apply Hwf, wf_store|].
  intros y' Hy'. rewrite Hrow by done. unfold m1. rewrite !row_store by lia.
  destruct (Z.eqb_spec y' r) as [->|Hne].
  - rewrite bool_decide_eq_false_2 by done. by rewrite bool_decide_eq_true_2 by by left.
  - destruct (decide (y' ∈ rs)) as [Hin|Hout].
    + rewrite !bool_decide_eq_true_2; [done|by right|done].
    + rewrite !bool_decide_eq_false_2; [done| |done].
      intros [?|?]%elem_of_cons; done.
Qed.

Lemma span_NoDup (y height : Z) : NoDup (span y height).
Proof.
  unfold span. apply NoDup_fmap_2; [intros a b; lia|apply NoDup_seq].
Qed.

(** The rectangle after the adjustments lies within the columns. *)
Lemma clip_spec (x y width height : Z) (m : t) :
  let '(cx, cy, cw, ch) := clip x y width height m in
  cx = Z.max x 0 /\ cy = Z.max y 0
  /\ cx + cw = Z.min (x + width) (numColumns m)
  /\ cy + ch = y + height.
Proof.
  unfold clip. destruct (Z.ltb_spec x 0), (Z.ltb_spec y 0); simpl;
    match goal with |- context [numColumns m <? ?a] => destruct (Z.ltb_spec (numColumns m) a) end;
    simpl. all: lia.
Qed.




(** X15.  [check] returns [true] exactly when no cell of the rectangle,
    clipped to the columns of the map and to rows [>= 0], is set; cells
    below the last row of the array count as free, and a rectangle that
    is empty after clipping is reported free.  It holds when the clipped
    rectangle is less than 32 columns wide. *)
Theorem check_free (x y width height : Z) (m : t) :
  numColumns m <= 32 ->
  Z.min (x + width) (numColumns m) - Z.max x 0 < 32 ->
  check x y width height m = true
  <-> forall x' y',
        Z.max x 0 <= x' < Z.min (x + width) (numColumns m) ->
        Z.max y 0 <= y' < y + height ->
        get x' y' m = false.
Proof.
  intros Hnc Hw. unfold check. pose proof (clip_spec x y width height m) as Hclip.
  destruct (clip x y width height m) as [[[cx cy] cw] ch].
  destruct Hclip as (Ecx & Ecy & Ecw & Ech).
  assert (Hcx : 0 <= cx) by lia. assert (Hcy : 0 <= cy) by lia.
  assert (Hcw : cx + cw <= numColumns m) by lia.
  rewrite <- Ecx, <- Ecw in Hw. rewrite <- Ecx, <- Ecy, <- Ecw, <- Ech.
  clear Ecx Ecy Ecw Ech x y width height.
  destruct (Z.leb_spec cw 0) as [Hw0|Hw0]; simpl; [split; [intros; lia|done]|].
  destruct (Z.leb_spec ch 0) as [Hh0|Hh0]; simpl; [split; [intros; lia|done]|].
  rewrite forallb_forall. split.
  - intros Hall x' y' Hx' Hy'. rewrite get_testbit by done.
    destruct (Z.ltb_spec y' (Z.of_nat (length (rows m)))) as [Hlen|Hlen];
      [|by rewrite andb_false_r].
    specialize (Hall y'). rewrite <- list_elem_of_In, elem_of_span in Hall.
    specialize (Hall Hy'). apply negb_true_iff, andb_false_iff in Hall as [Hall|Hall]; [lia|].
    apply negb_false_iff, Z.eqb_eq in Hall.
    destruct (Z.testbit (row m y') x') eqn:Hbit; [|by rewrite andb_false_r].
    assert (negb (and (row m y') (mask cx cw) =? 0) = true) as Hne.
    { apply and_nonzero. exists x'. split; [lia|]. split; [done|].
      rewrite testbit_mask by lia. lia. }
    by rewrite Hall in Hne.
  - intros Hfree r Hr%list_elem_of_In%elem_of_span. apply negb_true_iff.
    destruct (Z.ltb_spec r (Z.of_nat (length (rows m)))) as [Hlen|Hlen]; [|done]. simpl.
    apply negb_false_iff. destruct (and (row m r) (mask cx cw) =? 0) eqn:E; [done|exfalso].
    assert (Hne : negb (and (row m r) (mask cx cw) =? 0) = true) by by rewrite E.
    apply and_nonzero in Hne.
    destruct Hne as (i & Hi & Ha & Hb). rewrite testbit_mask in Hb by lia.
    specialize (Hfree i r ltac:(lia) Hr). rewrite get_testbit in Hfree by done.
    rewrite Ha in Hfree.
    assert ((0 <=? i) = true) as E1 by lia. assert ((i <? numColumns m) = true) as E2 by lia.
    assert ((0 <=? r) = true) as E3 by lia.
    assert ((r <? Z.of_nat (length (rows m))) = true) as E4 by lia.
    by rewrite E1, E2, E3, E4 in Hfree.
Qed.

Lemma check_free_witness :
  let m := mk 24 (<[1%nat := 8]> (replicate 128 0)) in
  numColumns m <= 32
  /\ Z.min (20 + 10) (numColumns m) - Z.max 20 0 < 32
  /\ (check 20 0 10 2 m = true
      <-> forall x' y',
            Z.max 20 0 <= x' < Z.min (20 + 10) (numColumns m) ->
            Z.max 0 0 <= y' < 0 + 2 ->
            get x' y' m = false).
Proof.
  cbv zeta.
  assert (Hnc : numColumns (mk 24 (<[1%nat := 8]> (replicate 128 0))) <= 32) by (simpl; lia).
  assert (Hw : Z.min (20 + 10) (numColumns (mk 24 (<[1%nat := 8]> (replicate 128 0))))
               - Z.max 20 0 < 32) by (simpl; lia).
  split; [exact Hnc|]. split; [exact Hw|].
  exact (check_free 20 0 10 2 (mk 24 (<[1%nat := 8]> (replicate 128 0))) Hnc Hw).
Defined.


Lemma find_app_first {A} (f : A -> bool) (l1 l2 : list A) :
  List.find f (l1 ++ l2)
  = match List.find f l1 with Some p => Some p | None => List.find f l2 end.
Proof. induction l1 as [|a l1 IH]; simpl; [done|]. by destruct (f a). Qed.

Lemma find_bind_first {A B} (f : B -> bool) (g : A -> list B) (l : list A) :
  List.find f (l ≫= g)
  = match List.find (fun a => bool_decide (is_Some (List.find f (g a)))) l with
    | Some a => List.find f (g a)
    | None => None
    end.
Proof.
  induction l as [|a l IH]; [done|]. rewrite bind_cons, find_app_first. simpl.
  destruct (List.find f (g a)) as [p|] eqn:E.
  - rewrite bool_decide_eq_true_2 by done. by rewrite E.
  - rewrite bool_decide_eq_false_2 by (by intros [? ?]). exact IH.
Qed.

Lemma find_row {A B} (f : A * B -> bool) (y : B) (xs : list A) :
  List.find f (xs ≫= (fun x => [(x, y)])) = (fun x => (x, y)) <$> List.find (fun x => f (x, y)) xs.
Proof.
  induction xs as [|x xs IH]; [done|]. rewrite bind_cons. simpl.
  destruct (f (x, y)); [done|exact IH].
Qed.

Lemma span_cons (y : Z) (n : nat) : span y (Z.of_nat (S n)) = y :: span (y + 1) (Z.of_nat n).
Proof.
  unfold span. rewrite !Nat2Z.id. cbn [seq fmap list_fmap]. f_equal; [lia|].
  rewrite <- fmap_S_seq, <- list_fmap_compose. apply list_fmap_ext. intros _ dy _. simpl. lia.
Qed.

(** The first row of a span that passes a test. *)
Lemma find_span (f : Z -> bool) (n : nat) :
  forall y,
  match List.find f (span y (Z.of_nat n)) with
  | Some r => y <= r < y + Z.of_nat n /\ f r = true /\ forall r0, y <= r0 < r -> f r0 = false
  | None => forall r0, y <= r0 < y + Z.of_nat n -> f r0 = false
  end.
Proof.
  induction n as [|n IH]; intros y.
  { simpl. intros r0 Hr0. lia. }
  rewrite span_cons. simpl. destruct (f y) eqn:Ey.
  - split; [lia|]. split; [done|]. intros r0 Hr0. lia.
  - specialize (IH (y + 1)). destruct (List.find f (span (y + 1) (Z.of_nat n))) as [r|].
    + destruct IH as (Hr & Hf & Hmin). split; [lia|]. split; [done|].
      intros r0 Hr0. destruct (decide (r0 = y)) as [->|Hne]; [done|]. apply Hmin. lia.
    + intros r0 Hr0. destruct (decide (r0 = y)) as [->|Hne]; [done|]. apply IH. lia.
Qed.

(** X16.  [find] throws exactly when [width <= 0], [height <= 0] or
    [width > numColumns].  Otherwise it returns the first position, rows
    first and then columns, at which [check] accepts the rectangle, among
    the positions [0 <= x <= numColumns - width], [0 <= y < rows.length];
    when [check] accepts none of them it returns [(0, rows.length)]. *)
Theorem find_first_fit (width height : Z) (m : t) :
  let free x y :=
    0 <= x <= numColumns m - width /\ 0 <= y < Z.of_nat (length (rows m))
    /\ check x y width height m = true in
  (find width height m = None <-> width <= 0 \/ height <= 0 \/ numColumns m < width)
  /\ forall x y,
       find width height m = Some (x, y) ->
       (free x y /\ forall x0 y0, free x0 y0 -> y < y0 \/ (y = y0 /\ x <= x0))
       \/ ((x, y) = (0, Z.of_nat (length (rows m))) /\ forall x0 y0, ~ free x0 y0).
Proof.
  intros free. unfold find.
  destruct (Z.leb_spec width 0), (Z.leb_spec height 0), (Z.ltb_spec (numColumns m) width);
    simpl; try (split; [split; [intros; lia|done]|done]).
  split; [split; [done|lia]|].
  intros x y. rewrite find_bind_first.
  set (len := Z.of_nat (length (rows m))).
  set (k := numColumns m - width + 1).
  set (rowfind := fun y => List.find (fun p : Z * Z => check p.1 p.2 width height m)
                              (span 0 k ≫= (fun x => [(x, y)]))).
  assert (Hrow : forall y0,
            match rowfind y0 with
            | Some p => p.2 = y0 /\ 0 <= p.1 < k /\ check p.1 y0 width height m = true
                        /\ forall x0, 0 <= x0 < p.1 -> check x0 y0 width height m = false
            | None => forall x0, 0 <= x0 < k -> check x0 y0 width height m = false
            end).
  { intros y0. unfold rowfind. rewrite find_row.
    pose proof (find_span (fun x => check x y0 width height m) (Z.to_nat k) 0) as Hs.
    rewrite Z2Nat.id in Hs by lia. simpl in Hs.
    destruct (List.find _ (span 0 k)) as [x0|]; simpl; [|done].
    destruct Hs as (? & ? & ?). repeat split; try done; lia. }
  pose proof (find_span (fun y => bool_decide (is_Some (rowfind y))) (length (rows m)) 0) as Hy.
  fold len in Hy. simpl in Hy.
  destruct (List.find _ (span 0 len)) as [y1|].
  - destruct Hy as (Hy1 & [p Ep]%bool_decide_eq_true & Hmin).
    pose proof (Hrow y1) as Hp. fold (rowfind y1). rewrite Ep in *. simpl.
    destruct Hp as (E2 & Hx & Hcheck & Hxmin).
    intros [= ->]. simpl in *. subst y1. left. split; [unfold free; repeat split; try done; lia|].
    intros x0 y0 (Hx0 & Hy0 & Hfree).
    destruct (Z.lt_trichotomy y0 y) as [Hlt|[->|Hgt]]; [exfalso|right|left; lia].
    + specialize (Hmin y0 ltac:(lia)). apply bool_decide_eq_false in Hmin.
      pose proof (Hrow y0) as Hr0. destruct (rowfind y0) as [q|].
      * apply Hmin. by exists q.
      * rewrite Hr0 in Hfree by (unfold k; lia). done.
    + split; [done|]. destruct (Z.le_gt_cases x x0) as [|Hlt]; [done|exfalso].
      rewrite Hxmin in Hfree by lia. done.
  - simpl. intros [= <- <-]. right. split; [done|].
    intros x0 y0 (Hx0 & Hy0 & Hfree).
    specialize (Hy y0 ltac:(lia)). apply bool_decide_eq_false in Hy.
    pose proof (Hrow y0) as Hr0. destruct (rowfind y0) as [q|].
    + apply Hy. by exists q.
    + rewrite Hr0 in Hfree by (unfold k; lia). done.
Qed.


Lemma row_range (m : t) (y : Z) : wf m -> 0 <= row m y < 2 ^ 32.
Proof.
  intros [_ Hall]. unfold row. destruct (rows m !! Z.to_nat y) as [r|] eqn:E; simpl; [|lia].
  by apply (Forall_lookup_1 _ _ _ _ Hall E).
Qed.




(** *** The columns of the map *)

Lemma below_pow2_bits (n r : Z) :
  0 <= n <= 32 -> 0 <= r < 2 ^ 32 ->
  r < 2 ^ n <-> forall i, n <= i < 32 -> Z.testbit r i = false.
Proof.
  intros Hn Hr. split.
  - intros Hlt i Hi. rewrite <- (Z.mod_small r (2 ^ n)) by lia.
    apply Z.mod_pow2_bits_high. lia.
  - intros Hbits. assert (E : r mod 2 ^ n = r).
    { apply Z.bits_inj'. intros i Hi. destruct (Z.lt_ge_cases i n) as [Hlt|Hge].
      - apply Z.mod_pow2_bits_low. lia.
      - rewrite Z.mod_pow2_bits_high by lia. symmetry.
        destruct (Z.lt_ge_cases i 32) as [Hlt|Hge32]; [apply Hbits; lia|].
        rewrite <- (Z.mod_small r (2 ^ 32)) by lia. apply Z.mod_pow2_bits_high. lia. }
    rewrite <- E. apply Z.mod_pos_bound. lia.
Qed.

Lemma clean_row (m : t) :
  0 <= numColumns m -> clean m <-> forall y, 0 <= y -> 0 <= row m y < 2 ^ numColumns m.
Proof.
  intros Hnc. unfold clean. rewrite Forall_lookup. split.
  - intros Hall y Hy. unfold row. destruct (rows m !! Z.to_nat y) as [r|] eqn:E; simpl.
    + by apply (Hall _ _ E).
    + split; [lia|]. apply Z.pow_pos_nonneg; lia.
  - intros Hrow i r E. specialize (Hrow (Z.of_nat i) ltac:(lia)).
    unfold row in Hrow. rewrite Nat2Z.id, E in Hrow. done.
Qed.

Lemma clean_store (y v : Z) (m : t) :
  0 <= numColumns m <= 32 -> clean m ->
  (forall i, numColumns m <= i < 32 -> Z.testbit v i = false) ->
  clean (store y v m).
Proof.
  intros Hnc Hclean Hbits. unfold clean, store. simpl.
  apply Forall_insert; [done|]. split; [apply toUint32_range|].
  apply below_pow2_bits; [done|apply toUint32_range|].
  intros i Hi. rewrite testbit_toUint32 by lia. by apply Hbits.
Qed.

Lemma clean_bits (m : t) (y i : Z) :
  0 <= numColumns m <= 32 -> wf m -> clean m -> 0 <= y -> numColumns m <= i < 32 ->
  Z.testbit (row m y) i = false.
Proof.
  intros Hnc Hwf Hclean Hy Hi.
  pose proof (proj1 (clean_row m ltac:(lia)) Hclean y Hy) as Hlt.
  pose proof (row_range m y Hwf) as Hr.
  by apply (below_pow2_bits (numColumns m) (row m y) Hnc Hr); [lia|].
Qed.

Lemma ensureSize_clean (count : Z) (m m' : t) :
  0 <= numColumns m -> clean m -> ensureSize count m = Some m' -> clean m'.
Proof.
  intros Hnc Hclean. unfold ensureSize.
  destruct (Z.of_nat (length (rows m)) <? count); [|by intros [= <-]].
  destruct (grown _ _ _) as [newLength|]; simpl; [|done]. intros [= <-].
  unfold clean. simpl. apply Forall_app. split; [done|].
  apply Forall_replicate. split; [lia|]. apply Z.pow_pos_nonneg; lia.
Qed.

Lemma ensureSize_numColumns (count : Z) (m m' : t) :
  ensureSize count m = Some m' -> numColumns m' = numColumns m.
Proof.
  unfold ensureSize. destruct (Z.of_nat (length (rows m)) <? count); [|by intros [= <-]].
  destruct (grown _ _ _) as [newLength|]; simpl; [|done]. by intros [= <-].
Qed.

Lemma ensureSize_wf (count : Z) (m m' : t) :
  wf m -> ensureSize count m = Some m' -> wf m'.
Proof.
  intros Hwf E. destruct (ensureSize_spec count m Hwf) as (m1 & E1 & Hwf1 & _). congruence.
Qed.

Lemma set_clean (x y value : Z) (m m' : t) :
  0 <= numColumns m <= 32 -> wf m -> clean m -> set x y value m = Some m' -> clean m'.
Proof.
  intros Hnc Hwf Hclean. unfold set.
  destruct (Z.ltb_spec x 0), (Z.leb_spec (numColumns m) x), (Z.ltb_spec y 0); simpl;
    try (by intros [= <-]).
  destruct (ensureSize (y + 1) m) as [m1|] eqn:E; simpl; [|done].
  pose proof (ensureSize_numColumns _ _ _ E) as Enc.
  assert (Hclean1 : clean m1) by (eapply ensureSize_clean; [|exact Hclean|exact E]; lia).
  pose proof (ensureSize_wf _ _ _ Hwf E) as Hwf1.
  destruct (value =? 0); [|destruct (value =? 1)]; intros [= <-]; [| |done].
  - apply clean_store; [lia|done|]. intros i Hi. unfold and.
    rewrite Z.land_spec, testbit_toInt32 by lia.
    rewrite (clean_bits m1 y i) by (done || lia). done.
  - apply clean_store; [lia|done|]. intros i Hi. unfold or.
    rewrite Z.lor_spec, !testbit_toInt32 by lia.
    rewrite (clean_bits m1 y i) by (done || lia). simpl.
    fold (shl 1 x). rewrite testbit_bit by lia. lia.
Qed.

Lemma mask_bits (cx cw n i : Z) :
  0 <= cx -> 1 <= cw -> cx + cw <= n -> n <= i < 32 -> Z.testbit (mask cx cw) i = false.
Proof.
  intros Hcx Hcw Hn Hi. rewrite testbit_mask by lia.
  destruct (Z.leb_spec cx i), (Z.ltb_spec i (cx + cw)); simpl; try done; lia.
Qed.

Lemma fill_clean (x y width height : Z) (m m' : t) :
  0 <= numColumns m <= 32 -> wf m -> clean m ->
  fill x y width height m = Some m' -> clean m'.
Proof.
  intros Hnc Hwf Hclean. unfold fill.
  pose proof (clip_spec x y width height m) as Hclip.
  destruct (clip x y width height m) as [[[cx cy] cw] ch].
  destruct Hclip as (Ecx & Ecy & Ecw & Ech).
  assert (Hcx : 0 <= cx) by lia. assert (Hcy : 0 <= cy) by lia.
  assert (Hcw : cx + cw <= numColumns m) by lia.
  clear Ecx Ecy Ecw Ech.
  destruct (Z.leb_spec cw 0) as [Hw0|Hw0]; simpl; [by intros [= <-]|].
  destruct (Z.leb_spec ch 0) as [Hh0|Hh0]; simpl; [by intros [= <-]|].
  destruct (ensureSize (cy + ch) m) as [m1|] eqn:E; simpl; [|done].
  pose proof (ensureSize_numColumns _ _ _ E) as Enc.
  assert (Hclean1 : clean m1) by (eapply ensureSize_clean; [|exact Hclean|exact E]; lia).
  pose proof (ensureSize_wf _ _ _ Hwf E) as Hwf1.
  destruct (ensureSize_spec (cy + ch) m Hwf) as (m2 & E2 & _ & _ & Hlen & _).
  assert (m2 = m1) as -> by congruence.
  assert (Hspan : Forall (fun r => 0 <= r < Z.of_nat (length (rows m1))) (span cy ch)).
  { apply Forall_forall. intros r Hr%elem_of_span. lia. }
  destruct (fill_rows (mask cx cw) (span cy ch) m1 (span_NoDup cy ch) Hspan)
    as (Enc' & Elen' & Hwf' & Hrow').
  intros [= <-]. apply clean_row; [lia|]. intros y' Hy'. rewrite Hrow', Enc' by done.
  destruct (bool_decide (y' ∈ span cy ch)); [|apply clean_row; [lia|done|done]].
  split; [apply toUint32_range|].
  apply below_pow2_bits; [lia|apply toUint32_range|].
  intros i Hi. rewrite testbit_toUint32 by lia. unfold or.
  rewrite Z.lor_spec, !testbit_toInt32 by lia.
  rewrite (clean_bits m1 y' i) by (done || lia). simpl.
  fold (mask cx cw). apply mask_bits with (numColumns m); lia.
Qed.


Lemma set_wf (x y value : Z) (m m' : t) :
  wf m -> set x y value m = Some m' -> wf m' /\ numColumns m' = numColumns m.
Proof.
  intros Hwf. unfold set.
  destruct ((x <? 0) || (numColumns m <=? x) || (y <? 0)); [by intros [= <-]|].
  destruct (ensureSize (y + 1) m) as [m1|] eqn:E; simpl; [|done].
  pose proof (ensureSize_numColumns _ _ _ E) as Enc.
  pose proof (ensureSize_wf _ _ _ Hwf E) as Hwf1.
  destruct (value =? 0); [|destruct (value =? 1)]; intros [= <-]; [| |done];
    (split; [by apply wf_store|done]).
Qed.

(** X18.  The columns of the map.  A new map holds no bit at or beyond
    [numColumns], and neither [set] nor [fill] ever sets one: both keep
    the array a non-empty array of 32-bit words and the number of
    columns. *)
Theorem columns_invariant :
  (forall n m, 0 <= n -> create n = Some m -> wf m /\ clean m /\ numColumns m = n /\ n <= 32)
  /\ (forall m m',
        wf m -> clean m -> 0 <= numColumns m <= 32 ->
        (exists x y value, set x y value m = Some m')
        \/ (exists x y width height, fill x y width height m = Some m') ->
        wf m' /\ clean m' /\ numColumns m' = numColumns m).
Proof.
  split.
  - intros n m Hn. unfold create. destruct (Z.ltb_spec 32 n); [done|]. intros [= <-].
    split; [split; [done|]|split; [|split; [done|lia]]].
    + apply (Forall_replicate (fun r => 0 <= r < 2 ^ 32) 128 0). lia.
    + apply (Forall_replicate (fun r => 0 <= r < 2 ^ n) 128 0).
      split; [lia|]. apply Z.pow_pos_nonneg; lia.
  - intros m m' Hwf Hclean Hnc [(x & y & value & E)|(x & y & width & height & E)].
    + destruct (set_wf x y value m m' Hwf E) as [Hwf' Enc].
      split; [done|]. split; [|done]. by apply (set_clean x y value m).
    + split; [|split; [by apply (fill_clean x y width height m)|]].
      * unfold fill in E. destruct (clip x y width height m) as [[[cx cy] cw] ch].
        destruct ((cw <=? 0) || (ch <=? 0)); [by injection E as <-|].
        destruct (ensureSize (cy + ch) m) as [m1|] eqn:E1; simpl in E; [|done].
        injection E as <-. pose proof (ensureSize_wf _ _ _ Hwf E1) as Hwf1.
        clear E1. induction (span cy ch) as [|r rs IH] using rev_ind; [done|].
        rewrite foldl_app. simpl. by apply wf_store.
      * unfold fill in E. destruct (clip x y width height m) as [[[cx cy] cw] ch].
        destruct ((cw <=? 0) || (ch <=? 0)); [by injection E as <-|].
        destruct (ensureSize (cy + ch) m) as [m1|] eqn:E1; simpl in E; [|done].
        injection E as <-. rewrite <- (ensureSize_numColumns _ _ _ E1).
        clear E1. induction (span cy ch) as [|r rs IH] using rev_ind; [done|].
        rewrite foldl_app. simpl. exact IH.
Qed.

Lemma span_snoc (y : Z) (n : nat) :
  span y (Z.of_nat (S n)) = span y (Z.of_nat n) ++ [y + Z.of_nat n].
Proof. unfold span. rewrite !Nat2Z.id, seq_S, fmap_app. done. Qed.

(** The last row of a span that passes a test. *)
Lemma find_reverse_span (f : Z -> bool) (n : nat) :
  match List.find f (reverse (span 0 (Z.of_nat n))) with
  | Some r => 0 <= r < Z.of_nat n /\ f r = true
              /\ forall r0, r < r0 < Z.of_nat n -> f r0 = false
  | None => forall r0, 0 <= r0 < Z.of_nat n -> f r0 = false
  end.
Proof.
  induction n as [|n IH].
  { simpl. intros r0 Hr0. lia. }
  rewrite span_snoc, reverse_snoc, Z.add_0_l. cbn [List.find].
  destruct (f (Z.of_nat n)) eqn:En.
  - split; [lia|]. split; [done|]. intros r0 Hr0. lia.
  - destruct (List.find f (reverse (span 0 (Z.of_nat n)))) as [r|].
    + destruct IH as (Hr & Hf & Hmax). split; [lia|]. split; [done|].
      intros r0 Hr0. destruct (decide (r0 = Z.of_nat n)) as [->|Hne]; [done|].
      apply Hmax. lia.
    + intros r0 Hr0. destruct (decide (r0 = Z.of_nat n)) as [->|Hne]; [done|].
      apply IH. lia.
Qed.

(** X19.  [maxOccupiedY] is the last row that holds a set cell, and [-1]
    when no cell is set; it is below the length of the array.  It holds
    for a map whose rows carry no bit outside its columns. *)
Theorem maxOccupiedY_spec (m : t) :
  wf m -> clean m -> 0 <= numColumns m <= 32 ->
  -1 <= maxOccupiedY m < Z.of_nat (length (rows m))
  /\ (forall x y, get x y m = true -> y <= maxOccupiedY m)
  /\ (0 <= maxOccupiedY m -> exists x, get x (maxOccupiedY m) m = true).
Proof.
  intros Hwf Hclean Hnc. unfold maxOccupiedY.
  pose proof (find_reverse_span (fun i => negb (row m i =? 0)) (length (rows m))) as Hfind.
  assert (Hset : forall x y, get x y m = true ->
                   0 <= y < Z.of_nat (length (rows m)) /\ negb (row m y =? 0) = true).
  { intros x y. rewrite get_testbit by lia. intros Hg.
    destruct (Z.leb_spec 0 y), (Z.ltb_spec y (Z.of_nat (length (rows m))));
      rewrite ?andb_false_r in Hg; try done. simpl in Hg.
    apply andb_true_iff in Hg as [_ Hbit]. split; [lia|].
    apply negb_true_iff, Z.eqb_neq. intros E. by rewrite E, Z.bits_0 in Hbit. }
  destruct (List.find _ _) as [r|]; simpl.
  - destruct Hfind as (Hr & Hne & Hmax). split; [lia|]. split.
    + intros x y [Hy Hrow]%Hset. destruct (Z.le_gt_cases y r) as [|Hgt]; [done|].
      rewrite Hmax in Hrow by lia. done.
    + intros _. apply negb_true_iff, Z.eqb_neq in Hne.
      pose proof (proj1 (clean_row m ltac:(lia)) Hclean r ltac:(lia)) as Hlt.
      assert (Hpos : 0 < row m r) by lia.
      exists (Z.log2 (row m r)). rewrite get_testbit by lia.
      pose proof (Z.log2_nonneg (row m r)).
      assert (Z.log2 (row m r) < numColumns m) by (apply Z.log2_lt_pow2; lia).
      rewrite Z.bit_log2 by done.
      destruct (Z.leb_spec 0 (Z.log2 (row m r))),
        (Z.ltb_spec (Z.log2 (row m r)) (numColumns m)),
        (Z.leb_spec 0 r), (Z.ltb_spec r (Z.of_nat (length (rows m)))); simpl; try done; lia.
  - destruct Hwf as [Hne _]. split; [destruct (rows m); [done|simpl; lia]|].
    split; [|lia]. intros x y [Hy Hrow]%Hset. rewrite Hfind in Hrow by lia. done.
Qed.

Lemma maxOccupiedY_spec_witness :
  let m := mk 24 (<[5%nat := 6]> (replicate 128 0)) in
  wf m /\ clean m /\ 0 <= numColumns m <= 32
  /\ -1 <= maxOccupiedY m < Z.of_nat (length (rows m))
  /\ (forall x y, get x y m = true -> y <= maxOccupiedY m)
  /\ (0 <= maxOccupiedY m -> exists x, get x (maxOccupiedY m) m = true).
Proof.
  cbv zeta.
  assert (Hwf : wf (mk 24 (<[5%nat := 6]> (replicate 128 0)))).
  { split; [done|]. cbn [rows]. apply Forall_insert; [apply Forall_replicate; lia|lia]. }
  assert (Hclean : clean (mk 24 (<[5%nat := 6]> (replicate 128 0)))).
  { unfold clean. cbn [rows numColumns].
    apply Forall_insert; [apply Forall_replicate; lia|lia]. }
  assert (Hnc : 0 <= numColumns (mk 24 (<[5%nat := 6]> (replicate 128 0))) <= 32)
    by (simpl; lia).
  split; [exact Hwf|]. split; [exact Hclean|]. split; [exact Hnc|].
  exact (maxOccupiedY_spec (mk 24 (<[5%nat := 6]> (replicate 128 0))) Hwf Hclean Hnc).
Defined.


(** *** The map of the dashboard *)




End OccupancyMapFacts.

(** ** [resolveLabelOverlap] *)

Section LabelOverlapFacts.
Context {T : Type}.
Implicit Types (labels : list T) (span : T -> LabelSpan.t) (gap : float).













End LabelOverlapFacts.
